(** * check_trace.py: cross-validation of a ChampSim debug trace against a
      Spike commit log.

    A shallow embedding of [tracer/qemu/check_trace.py].  Python's unbounded
    integers are [Z]; the cursors and the three counters, which only ever grow
    from zero by one, are [nat].  What the script prints is kept as a list of
    structured lines, in the order of the [print] calls. *)

From Stdlib Require Import Ascii String.
From Stdlib Require Import ZArith List Bool Lia.
Import ListNotations.

Local Open Scope Z_scope.

(** ** Data model *)

(** [SpikeInsn]: one instruction of the reference log. *)
Record SpikeInsn := mkSpikeInsn {
  s_ip       : Z;
  load_addr  : option Z;
  store_addr : option Z
}.

(** [TraceInsn]: one instruction of the trace under test.  [is_branch] and
    [branch_taken] are the integers the parser reads from one decimal digit. *)
Record TraceInsn := mkTraceInsn {
  t_ip         : Z;
  is_branch    : Z;
  branch_taken : Z;
  dst_mem      : list Z;
  src_mem      : list Z
}.

(** ** MMIO filter *)

Definition MMIO_REGIONS : list (Z * Z) :=
  [ (0x10000000, 0x10000100);
    (0x00100000, 0x00100010);
    (0x02000000, 0x0200FFFF);
    (0x0C000000, 0x0FFFFFFF) ].

(** The [for lo, hi in ...] loop of [is_mmio], over an arbitrary region list. *)
Fixpoint is_mmio_in (regions : list (Z * Z)) (addr : Z) : bool :=
  match regions with
  | [] => false
  | (lo, hi) :: rest =>
      if (lo <=? addr) && (addr <? hi) then true else is_mmio_in rest addr
  end.

Definition is_mmio (addr : Z) : bool := is_mmio_in MMIO_REGIONS addr.

(** Python's [x in l] on a list of integers. *)
Definition mem_in (a : Z) (l : list Z) : bool := existsb (Z.eqb a) l.

(** Truthiness of a Python integer and of a Python list. *)
Definition truthy (n : Z) : bool := negb (n =? 0).
Definition nonempty {A} (l : list A) : bool :=
  match l with [] => false | _ :: _ => true end.

(** ** Diagnostics *)

Inductive Kind := SYNC | BRANCH_TAKEN | SRC_MEM | DST_MEM.

(** One constructor per [print] call of the loop; the arguments are the
    values interpolated into the line. *)
Inductive Diagnostic :=
| Sync           (n : nat) (spike_ip trace_ip : Z)
| BranchTaken    (n : nat) (ip trace_taken spike_taken : Z)
| SrcMemMissing  (n : nat) (ip load : Z) (trace_src : list Z)
| SrcMemSpurious (n : nat) (ip : Z) (trace_src : list Z)
| DstMemMissing  (n : nat) (ip store : Z) (trace_dst : list Z)
| DstMemSpurious (n : nat) (ip : Z) (trace_dst : list Z).

Definition kind (d : Diagnostic) : Kind :=
  match d with
  | Sync _ _ _ => SYNC
  | BranchTaken _ _ _ _ => BRANCH_TAKEN
  | SrcMemMissing _ _ _ _ | SrcMemSpurious _ _ _ => SRC_MEM
  | DstMemMissing _ _ _ _ | DstMemSpurious _ _ _ => DST_MEM
  end.

Definition Kind_eqb (a b : Kind) : bool :=
  match a, b with
  | SYNC, SYNC | BRANCH_TAKEN, BRANCH_TAKEN
  | SRC_MEM, SRC_MEM | DST_MEM, DST_MEM => true
  | _, _ => false
  end.

(** Number of lines of kind [k] in a piece of output. *)
Fixpoint count_kind (k : Kind) (ds : list Diagnostic) : nat :=
  match ds with
  | [] => 0%nat
  | d :: rest =>
      ((if Kind_eqb (kind d) k then 1 else 0) + count_kind k rest)%nat
  end.

Definition is_error (d : Diagnostic) : bool := negb (Kind_eqb (kind d) SYNC).

(** ** The checking loop *)

(** The local variables of [check]. *)
Record State := mkState {
  si       : nat;
  ti       : nat;
  checked  : nat;
  errors   : nat;
  warnings : nat;
  out      : list Diagnostic
}.

Definition init : State := mkState 0 0 0 0 0 [].

(** Control flow inside one iteration: fall through to the next statement, or
    [break]. *)
Inductive Flow := Next (s : State) | Halt (s : State).

Definition and_then (f : Flow) (k : State -> Flow) : Flow :=
  match f with
  | Next s => k s
  | Halt s => Halt s
  end.

Notation "f >>= k" := (and_then f k) (at level 50, left associativity).

(** How one iteration of the [while] ends: back to the loop test
    ([continue], or the end of the body), or out of the loop ([break]). *)
Inductive Outcome := Continue (s : State) | Break (s : State).

Definition state_of (o : Outcome) : State :=
  match o with Continue s | Break s => s end.

Section Check.

Variable spike_insns : list SpikeInsn.
Variable trace_insns : list TraceInsn.
Variable max_insns : Z.
Variable stop_on_error : bool.

Definition n_spike : nat := length spike_insns.
Definition n_trace : nat := length trace_insns.

(** [print(...); errors += 1; if stop_on_error: break] *)
Definition report (d : Diagnostic) (s : State) : Flow :=
  let s' := mkState (si s) (ti s) (checked s) (S (errors s)) (warnings s)
                    (out s ++ [d]) in
  if stop_on_error then Halt s' else Next s'.

(** "Determine spike branch_taken from next IP": the pair
    [(spike_is_branch, spike_taken)]. *)
Definition infer_branch (i : nat) (sp : SpikeInsn) (tr : TraceInsn) : Z * Z :=
  match nth_error spike_insns (S i) with
  | Some nx =>
      let next_ip := s_ip nx in
      if negb (next_ip =? s_ip sp + 4) && negb (next_ip =? s_ip sp + 2)
      then (1, 1)
      else if (next_ip =? s_ip sp + 4) || (next_ip =? s_ip sp + 2)
      then (if truthy (is_branch tr) && truthy (branch_taken tr)
            then (1, 0) else (0, 0))
      else (0, 0)
  | None => (0, 0)
  end.

Definition spike_taken (i : nat) (sp : SpikeInsn) (tr : TraceInsn) : Z :=
  snd (infer_branch i sp tr).

(** "2. branch_taken correctness" *)
Definition check_branch (sp : SpikeInsn) (tr : TraceInsn) (taken : Z)
    (s : State) : Flow :=
  if truthy (is_branch tr) && negb (branch_taken tr =? taken)
  then report (BranchTaken (checked s) (s_ip sp) (branch_taken tr) taken) s
  else Next s.

(** "3. src_mem (loads)" *)
Definition check_src_mem (sp : SpikeInsn) (tr : TraceInsn) (s : State) : Flow :=
  match load_addr sp with
  | Some a =>
      if is_mmio a then Next s
      else if negb (mem_in a (src_mem tr))
      then report (SrcMemMissing (checked s) (s_ip sp) a (src_mem tr)) s
      else Next s
  | None =>
      if nonempty (src_mem tr)
      then report (SrcMemSpurious (checked s) (s_ip sp) (src_mem tr)) s
      else Next s
  end.

(** "4. dst_mem (stores)" *)
Definition check_dst_mem (sp : SpikeInsn) (tr : TraceInsn) (s : State) : Flow :=
  match store_addr sp with
  | Some a =>
      if is_mmio a then Next s
      else if negb (mem_in a (dst_mem tr))
      then report (DstMemMissing (checked s) (s_ip sp) a (dst_mem tr)) s
      else Next s
  | None =>
      if nonempty (dst_mem tr)
      then report (DstMemSpurious (checked s) (s_ip sp) (dst_mem tr)) s
      else Next s
  end.

(** [max_insns and checked >= max_insns] *)
Definition cap_reached (s : State) : bool :=
  truthy max_insns && (max_insns <=? Z.of_nat (checked s)).

(** [si < n_spike and ti < n_trace] *)
Definition in_range (s : State) : bool :=
  (si s <? n_spike)%nat && (ti s <? n_trace)%nat.

(** The statements of a matched pair, from [checked += 1] to [ti += 1]. *)
Definition matched (sp : SpikeInsn) (tr : TraceInsn) (s : State) : Outcome :=
  let s1 := mkState (si s) (ti s) (S (checked s)) (errors s) (warnings s)
                    (out s) in
  let taken := spike_taken (si s) sp tr in
  match check_branch sp tr taken s1
          >>= check_src_mem sp tr
          >>= check_dst_mem sp tr with
  | Next s' =>
      Continue (mkState (S (si s')) (S (ti s')) (checked s') (errors s')
                        (warnings s') (out s'))
  | Halt s' => Break s'
  end.

(** The [SYNC] branch: warn, skip one trace entry, [continue]. *)
Definition resync (sp : SpikeInsn) (tr : TraceInsn) (s : State) : State :=
  mkState (si s) (S (ti s)) (checked s) (errors s) (S (warnings s))
          (out s ++ [Sync (checked s) (s_ip sp) (t_ip tr)]).

(** One pass through the body of the [while]. Indexing past the end of a
    list raises in Python; the loop test excludes it, and here it ends the
    loop. *)
Definition body (s : State) : Outcome :=
  if cap_reached s then Break s
  else
    match nth_error spike_insns (si s), nth_error trace_insns (ti s) with
    | Some sp, Some tr =>
        if negb (s_ip sp =? t_ip tr) then Continue (resync sp tr s)
        else matched sp tr s
    | _, _ => Break s
    end.

(** The [while] loop.  [None] only when the fuel runs out. *)
Fixpoint loop (fuel : nat) (s : State) : option State :=
  if in_range s then
    match fuel with
    | O => None
    | S fuel' =>
        match body s with
        | Continue s' => loop fuel' s'
        | Break s' => Some s'
        end
    end
  else Some s.

(** The state of [check] when it reaches the summary.  Every pass that goes
    round again has moved [ti] forward, so [n_trace] passes are enough. *)
Definition check_run : option State := loop n_trace init.

End Check.

(** ** Summary and exit code *)

Inductive Verdict := PASS | FAIL.

(** ['PASS' if errors == 0 else 'FAIL'] *)
Definition verdict (s : State) : Verdict :=
  if (errors s =? 0)%nat then PASS else FAIL.

(** The four lines of the summary block. *)
Record Summary := mkSummary {
  sum_checked  : nat;
  sum_errors   : nat;
  sum_warnings : nat;
  sum_result   : Verdict
}.

Definition summary (s : State) : Summary :=
  mkSummary (checked s) (errors s) (warnings s) (verdict s).

(** [check] returns [errors]. *)
Definition check (spike_insns : list SpikeInsn) (trace_insns : list TraceInsn)
    (max_insns : Z) (stop_on_error : bool) : option nat :=
  option_map errors (check_run spike_insns trace_insns max_insns stop_on_error).

(** [sys.exit(0 if rc == 0 else 1)] *)
Definition exit_code (rc : nat) : Z := if (rc =? 0)%nat then 0 else 1.

(** ** Text: characters, regular expressions, integer literals *)

(** Lines are strings of one-byte characters; the tables below are Python's
    for code points below 256. *)

Definition code (c : ascii) : nat := nat_of_ascii c.

(** [\s], and the characters [str.strip()] removes. *)
Definition is_space (c : ascii) : bool :=
  let n := code c in
  ((9 <=? n) && (n <=? 13) || (28 <=? n) && (n <=? 32)
   || (n =? 133) || (n =? 160))%nat.

(** [\d] *)
Definition is_digit (c : ascii) : bool :=
  let n := code c in ((48 <=? n) && (n <=? 57))%nat.

(** [[0-9a-f]] *)
Definition is_hex (c : ascii) : bool :=
  let n := code c in
  ((48 <=? n) && (n <=? 57) || (97 <=? n) && (n <=? 102))%nat.

(** [.] (no DOTALL flag): anything but a newline. *)
Definition is_dot (c : ascii) : bool := negb (code c =? 10)%nat.

(** The regular expressions the script uses: literal text, one character of
    a class, greedy [+] and [*] over a class, concatenation, a greedy
    optional non-capturing group and numbered capturing groups. *)
Inductive regex :=
| Chars (t : string)
| Class (p : ascii -> bool)
| Many1 (p : ascii -> bool)
| Many0 (p : ascii -> bool)
| Seq   (r1 r2 : regex)
| Maybe (r : regex)
| Group (n : nat) (r : regex).

(** What the groups hold: [None] for a group that took no part. *)
Definition captures := nat -> option string.

Definition no_captures : captures := fun _ => None.

Definition set_group (n : nat) (w : string) (m : captures) : captures :=
  fun k => if (k =? n)%nat then Some w else m k.

(** [drop_prefix t s]: what follows [t] at the start of [s]. *)
Fixpoint drop_prefix (t s : string) : option string :=
  match t with
  | EmptyString => Some s
  | String a t' =>
      match s with
      | String b s' => if Ascii.eqb a b then drop_prefix t' s' else None
      | EmptyString => None
      end
  end.

(** The ways [p*] can split [s] into what it takes and what it leaves,
    longest first, as a backtracking matcher tries them. *)
Fixpoint many0 (p : ascii -> bool) (s : string) : list (string * string) :=
  match s with
  | String c s' =>
      if p c
      then map (fun wr => (String c (fst wr), snd wr)) (many0 p s')
           ++ [(EmptyString, s)]
      else [(EmptyString, s)]
  | EmptyString => [(EmptyString, s)]
  end.

Definition many1 (p : ascii -> bool) (s : string) : list (string * string) :=
  match s with
  | String c s' =>
      if p c
      then map (fun wr => (String c (fst wr), snd wr)) (many0 p s')
      else []
  | EmptyString => []
  end.

(** One way of matching at the start of a string: the text taken, the text
    left, and the groups. *)
Definition attempt : Type := string * string * captures.

(** All the ways [r] matches at the start of [s], in the order a
    backtracking matcher finds them; the first is the match [re] reports. *)
Fixpoint rmatch (r : regex) (s : string) (m : captures) : list attempt :=
  match r with
  | Chars t =>
      match drop_prefix t s with
      | Some rest => [(t, rest, m)]
      | None => []
      end
  | Class p =>
      match s with
      | String c s' => if p c then [(String c EmptyString, s', m)] else []
      | EmptyString => []
      end
  | Many1 p => map (fun wr => (fst wr, snd wr, m)) (many1 p s)
  | Many0 p => map (fun wr => (fst wr, snd wr, m)) (many0 p s)
  | Seq r1 r2 =>
      flat_map
        (fun a1 : attempt =>
           let '(w1, rest1, m1) := a1 in
           map (fun a2 : attempt =>
                  let '(w2, rest2, m2) := a2 in ((w1 ++ w2)%string, rest2, m2))
               (rmatch r2 rest1 m1))
        (rmatch r1 s m)
  | Maybe r' => rmatch r' s m ++ [(EmptyString, s, m)]
  | Group n r' =>
      map (fun a : attempt =>
             let '(w, rest, m') := a in (w, rest, set_group n w m'))
          (rmatch r' s m)
  end.

(** [pattern.match(s)]: the groups of the match at the start of [s]. *)
Definition re_match (r : regex) (s : string) : option captures :=
  match rmatch r s no_captures with
  | (_, _, m) :: _ => Some m
  | [] => None
  end.

(** [pattern.search(s)]: the groups of the leftmost match. *)
Fixpoint re_search (r : regex) (s : string) : option captures :=
  match re_match r s with
  | Some m => Some m
  | None =>
      match s with
      | String _ s' => re_search r s'
      | EmptyString => None
      end
  end.

(** [s.strip()] *)
Fixpoint lstrip (s : string) : string :=
  match s with
  | String c s' => if is_space c then lstrip s' else s
  | EmptyString => EmptyString
  end.

Fixpoint rstrip (s : string) : string :=
  match s with
  | String c s' =>
      match rstrip s' with
      | EmptyString => if is_space c then EmptyString
                       else String c EmptyString
      | t => String c t
      end
  | EmptyString => EmptyString
  end.

Definition strip (s : string) : string := rstrip (lstrip s).

(** [s.startswith(t)] *)
Definition startswith (t s : string) : bool :=
  match drop_prefix t s with Some _ => true | None => false end.

(** A Python call either returns or raises. *)
Inductive result (A : Type) := Ok (a : A) | Raise.
Arguments Ok {A} a.
Arguments Raise {A}.

Definition bind {A B} (x : result A) (k : A -> result B) : result B :=
  match x with
  | Ok a => k a
  | Raise => Raise
  end.

Notation "x <- e ;; k" := (bind e (fun x => k))
  (at level 61, e at next level, right associativity).

Definition hex_value (c : ascii) : Z :=
  let n := code c in
  if (n <=? 57)%nat then Z.of_nat (n - 48) else Z.of_nat (n - 87).

(** The digits of a literal, most significant first, in base [b]. *)
Fixpoint digits_value (b : Z) (acc : Z) (s : string) : Z :=
  match s with
  | String c s' => digits_value b (acc * b + hex_value c) s'
  | EmptyString => acc
  end.

Fixpoint all_chars (p : ascii -> bool) (s : string) : bool :=
  match s with
  | String c s' => p c && all_chars p s'
  | EmptyString => true
  end.

(** [int(g, 16)] on what a group holds, for the literals the grammars let
    through: [0x] and one or more lower-case hexadecimal digits.  On [None]
    Python raises, and so it does on text that is no integer literal. *)
Definition int16 (g : option string) : result Z :=
  match g with
  | Some (String "0" (String "x" ds)) =>
      match ds with
      | EmptyString => Raise
      | _ => if all_chars is_hex ds then Ok (digits_value 16 0 ds) else Raise
      end
  | _ => Raise
  end.

(** [int(g)] on what a group holds, for decimal digits. *)
Definition int10 (g : option string) : result Z :=
  match g with
  | Some EmptyString => Raise
  | Some ds => if all_chars is_digit ds then Ok (digits_value 10 0 ds)
               else Raise
  | None => Raise
  end.

(** ** The two grammars *)

Definition hex_literal : regex := Seq (Chars "0x") (Many1 is_hex).

Fixpoint seq (rs : list regex) : regex :=
  match rs with
  | [] => Chars EmptyString
  | [r] => r
  | r :: rest => Seq r (seq rest)
  end.

Definition SPIKE_RE : regex :=
  seq [ Chars "core"; Many1 is_space; Many1 is_digit; Chars ":";
        Many1 is_space; Many1 is_digit; Many1 is_space;
        Group 1 hex_literal;
        Many1 is_space; Chars "("; hex_literal; Chars ")";
        Group 2 (Many0 is_dot) ].

Definition MEM_RE : regex :=
  seq [ Chars "mem"; Many1 is_space; Group 1 hex_literal;
        Maybe (Seq (Many1 is_space) (Group 2 hex_literal)) ].

Definition DEBUG_RE : regex :=
  seq [ Chars "ip="; Group 1 hex_literal; Many1 is_space;
        Chars "branch="; Group 2 (Class is_digit); Many1 is_space;
        Chars "taken="; Group 3 (Class is_digit); Many1 is_space;
        Chars "dst_regs=["; Group 4 (Many1 is_digit); Chars ",";
        Group 5 (Many1 is_digit); Chars "]"; Many1 is_space;
        Chars "src_regs=["; Group 6 (Many1 is_digit); Chars ",";
        Group 7 (Many1 is_digit); Chars ",";
        Group 8 (Many1 is_digit); Chars ",";
        Group 9 (Many1 is_digit); Chars "]"; Many1 is_space;
        Chars "dst_mem=["; Group 10 hex_literal; Chars ",";
        Group 11 hex_literal; Chars "]"; Many1 is_space;
        Chars "src_mem=["; Group 12 hex_literal; Chars ",";
        Group 13 hex_literal; Chars ",";
        Group 14 hex_literal; Chars ",";
        Group 15 hex_literal; Chars "]" ].

(** ** The two parsers *)

(** [[a for a in l if a]] *)
Definition nonzero (l : list Z) : list Z := filter truthy l.

(** The body of the [for line in f] loop of [parse_spike]: [Ok None] for a
    line that is skipped, [Ok (Some i)] for an instruction appended. *)
Definition parse_spike_line (line : string) : result (option SpikeInsn) :=
  match re_match SPIKE_RE (strip line) with
  | None => Ok None
  | Some m =>
      ip <- int16 (m 1%nat) ;;
      match m 2%nat with
      | None => Raise
      | Some rest =>
          match re_search MEM_RE rest with
          | Some mm =>
              addr <- int16 (mm 1%nat) ;;
              match mm 2%nat with
              | Some _ => Ok (Some (mkSpikeInsn ip None (Some addr)))
              | None => Ok (Some (mkSpikeInsn ip (Some addr) None))
              end
          | None => Ok (Some (mkSpikeInsn ip None None))
          end
      end
  end.

(** The body of the loop of [parse_debug]. *)
Definition parse_debug_line (line : string) : result (option TraceInsn) :=
  if startswith "#" line then Ok None
  else
    match re_match DEBUG_RE (strip line) with
    | None => Ok None
    | Some m =>
        ip <- int16 (m 1%nat) ;;
        is_branch <- int10 (m 2%nat) ;;
        branch_taken <- int10 (m 3%nat) ;;
        d0 <- int16 (m 10%nat) ;;
        d1 <- int16 (m 11%nat) ;;
        s0 <- int16 (m 12%nat) ;;
        s1 <- int16 (m 13%nat) ;;
        s2 <- int16 (m 14%nat) ;;
        s3 <- int16 (m 15%nat) ;;
        Ok (Some (mkTraceInsn ip is_branch branch_taken
                              (nonzero [d0; d1]) (nonzero [s0; s1; s2; s3])))
    end.

(** A file is the list of its lines, as iterating over it yields them. *)
Fixpoint parse_lines {A} (parse_line : string -> result (option A))
    (lines : list string) (insns : list A) : result (list A) :=
  match lines with
  | [] => Ok insns
  | line :: rest =>
      r <- parse_line line ;;
      parse_lines parse_line rest
        (match r with Some i => insns ++ [i] | None => insns end)
  end.

Definition parse_spike (lines : list string) : result (list SpikeInsn) :=
  parse_lines parse_spike_line lines [].

Definition parse_debug (lines : list string) : result (list TraceInsn) :=
  parse_lines parse_debug_line lines [].

(** ** The program *)

(** What a run shows: the lines of the checking loop, the summary block and
    the exit code. *)
Record Run := mkRun {
  run_lines   : list Diagnostic;
  run_summary : Summary;
  run_exit    : Z
}.

Definition run_of (s : State) : Run :=
  mkRun (out s) (summary s) (exit_code (errors s)).

(** [main], on the contents of the two files and the two options.  The
    inner [None] stands for a loop that has not ended within its fuel. *)
Definition main (spike_log debug_trace : list string) (max_insns : Z)
    (stop_on_error : bool) : result (option Run) :=
  spike_insns <- parse_spike spike_log ;;
  trace_insns <- parse_debug debug_trace ;;
  Ok (option_map run_of
        (check_run spike_insns trace_insns max_insns stop_on_error)).

(** ** Auxiliary notions for the proofs *)

Definition flow_state (f : Flow) : State :=
  match f with Next s | Halt s => s end.

(** Same cursors, [checked] and [warnings]. *)
Definition same_position (s s' : State) : Prop :=
  si s' = si s /\ ti s' = ti s /\ checked s' = checked s /\
  warnings s' = warnings s.

(** The line each check prints, if any, for the pair numbered [n]. *)
Definition branch_diag (sp : SpikeInsn) (tr : TraceInsn) (taken : Z) (n : nat)
    : list Diagnostic :=
  if truthy (is_branch tr) && negb (branch_taken tr =? taken)
  then [BranchTaken n (s_ip sp) (branch_taken tr) taken] else [].

Definition src_diag (sp : SpikeInsn) (tr : TraceInsn) (n : nat)
    : list Diagnostic :=
  match load_addr sp with
  | Some a =>
      if is_mmio a then []
      else if negb (mem_in a (src_mem tr))
      then [SrcMemMissing n (s_ip sp) a (src_mem tr)] else []
  | None =>
      if nonempty (src_mem tr)
      then [SrcMemSpurious n (s_ip sp) (src_mem tr)] else []
  end.

Definition dst_diag (sp : SpikeInsn) (tr : TraceInsn) (n : nat)
    : list Diagnostic :=
  match store_addr sp with
  | Some a =>
      if is_mmio a then []
      else if negb (mem_in a (dst_mem tr))
      then [DstMemMissing n (s_ip sp) a (dst_mem tr)] else []
  | None =>
      if nonempty (dst_mem tr)
      then [DstMemSpurious n (s_ip sp) (dst_mem tr)] else []
  end.

Definition pair_diags (sp : SpikeInsn) (tr : TraceInsn) (taken : Z) (n : nat)
    : list Diagnostic :=
  branch_diag sp tr taken n ++ src_diag sp tr n ++ dst_diag sp tr n.

(** The lines a matched pair adds to the output: all of the pair's lines,
    or with stop-on-error just the first. *)
Definition pair_output (stop_on_error : bool) (ds : list Diagnostic)
    : list Diagnostic :=
  if stop_on_error then firstn 1 ds else ds.

(** ** Notions the statements use *)

(** The pass has reached the load check of its pair: stop-on-error is off,
    or the branch check printed nothing. *)
Definition reaches_load (stop_on_error : bool) (ds : list Diagnostic) : Prop :=
  stop_on_error = false \/ count_kind BRANCH_TAKEN ds = 0%nat.

(** The pass has reached the store check of its pair. *)
Definition reaches_store (stop_on_error : bool) (ds : list Diagnostic) : Prop :=
  stop_on_error = false \/
  (count_kind BRANCH_TAKEN ds = 0%nat /\ count_kind SRC_MEM ds = 0%nat).

(** The output of a run cut short by stop-on-error: SYNC lines, then the one
    error. *)
Definition only_sync (ds : list Diagnostic) : Prop :=
  Forall (fun d => kind d = SYNC) ds.

Definition ends_at_first_error (s : State) : Prop :=
  errors s = 1%nat /\
  exists pre d, out s = pre ++ [d] /\ only_sync pre /\ is_error d = true.

(** At every position the loop can compare, the head of the reference
    against one entry of the trace after the other, the two addresses differ.
    A reference with no instruction has no head and nothing is compared: the
    premise then holds of every trace. *)
Definition never_aligned (spike_insns : list SpikeInsn)
    (trace_insns : list TraceInsn) : Prop :=
  forall r c, nth_error spike_insns 0 = Some r -> In c trace_insns ->
    s_ip r <> t_ip c.

(** The SYNC lines of a run that never gets past the first reference
    instruction [r]. *)
Definition sync_lines (r : SpikeInsn) (trace_insns : list TraceInsn)
    : list Diagnostic :=
  map (fun c => Sync 0 (s_ip r) (t_ip c)) trace_insns.

(** One of the two sequences is used up. *)
Definition exhausted (spike_insns : list SpikeInsn)
    (trace_insns : list TraceInsn) (s : State) : Prop :=
  si s = length spike_insns \/ ti s = length trace_insns.

(** The first [k] entries of the two sequences agree in address, one by
    one. *)
Definition matched_pairs (k : nat) (spike_insns : list SpikeInsn)
    (trace_insns : list TraceInsn) : Prop :=
  forall i, (i < k)%nat ->
    exists sp tr, nth_error spike_insns i = Some sp /\
                  nth_error trace_insns i = Some tr /\
                  s_ip sp = t_ip tr.

(** ** A trace written from the reference *)

(** The rule of section 4.5.a of the specification, from the reference
    alone: taken when the next address is neither [ip + 4] nor [ip + 2]. *)
Definition inferred_taken (ip : Z) (next : option SpikeInsn) : Z :=
  match next with
  | Some nx =>
      if negb (s_ip nx =? ip + 4) && negb (s_ip nx =? ip + 2) then 1 else 0
  | None => 0
  end.

(** An address slot of the trace format: zero when there is no address. *)
Definition slot (a : option Z) : Z :=
  match a with Some x => x | None => 0 end.

(** The trace entry written for [sp], followed in the reference by [next]:
    the same address, branch and taken as inferred, and the reference's own
    load and store addresses in the first slots, read back as [parse_debug]
    reads them. *)
Definition synth_insn (sp : SpikeInsn) (next : option SpikeInsn) : TraceInsn :=
  let taken := inferred_taken (s_ip sp) next in
  mkTraceInsn (s_ip sp) taken taken
              (nonzero [slot (store_addr sp); 0])
              (nonzero [slot (load_addr sp); 0; 0; 0]).

Fixpoint synthesize (spike_insns : list SpikeInsn) : list TraceInsn :=
  match spike_insns with
  | [] => []
  | sp :: rest => synth_insn sp (hd_error rest) :: synthesize rest
  end.

(** What makes a trace one written from the reference: as long, the same
    addresses in the same order, no branch claim against the inferred
    outcome, and the slots filled from the reference's addresses. *)
Definition synthesized_from (spike_insns : list SpikeInsn)
    (trace_insns : list TraceInsn) : Prop :=
  length trace_insns = length spike_insns /\
  forall i sp tr,
    nth_error spike_insns i = Some sp ->
    nth_error trace_insns i = Some tr ->
    t_ip tr = s_ip sp /\
    (is_branch tr = 0 \/
     branch_taken tr = inferred_taken (s_ip sp) (nth_error spike_insns (S i))) /\
    src_mem tr = nonzero [slot (load_addr sp); 0; 0; 0] /\
    dst_mem tr = nonzero [slot (store_addr sp); 0].

(** No reference instruction loads from or stores to address zero. *)
Definition nonzero_addresses (spike_insns : list SpikeInsn) : Prop :=
  forall r, In r spike_insns ->
    load_addr r <> Some 0 /\ store_addr r <> Some 0.

(** ** The language of a regular expression *)

(** The texts a regular expression takes. *)
Fixpoint lang (r : regex) (w : string) : Prop :=
  match r with
  | Chars t => w = t
  | Class p => exists c, w = String c EmptyString /\ p c = true
  | Many1 p => w <> EmptyString /\ all_chars p w = true
  | Many0 p => all_chars p w = true
  | Seq r1 r2 =>
      exists w1 w2, w = (w1 ++ w2)%string /\ lang r1 w1 /\ lang r2 w2
  | Maybe r' => w = EmptyString \/ lang r' w
  | Group _ r' => lang r' w
  end.

(** [Group n r'] occurs in [r]. *)
Fixpoint group_in (n : nat) (r' r : regex) : Prop :=
  match r with
  | Seq r1 r2 => group_in n r' r1 \/ group_in n r' r2
  | Maybe r1 => group_in n r' r1
  | Group k r1 => (k = n /\ r' = r1) \/ group_in n r' r1
  | _ => False
  end.

(** Group [n] takes part in every match of [r]: it occurs outside every
    optional part. *)
Fixpoint always_set (n : nat) (r : regex) : bool :=
  match r with
  | Seq r1 r2 => always_set n r1 || always_set n r2
  | Group k r1 => (k =? n)%nat || always_set n r1
  | _ => false
  end.

(** ** Lines that fail a grammar *)

(** What a line adds to the parsed sequence. *)
Definition kept {A} (parse_line : string -> result (option A))
    (line : string) : list A :=
  match parse_line line with
  | Ok (Some i) => [i]
  | _ => []
  end.

(** The line does not match the reference grammar. *)
Definition fails_spike (line : string) : Prop :=
  re_match SPIKE_RE (strip line) = None.

(** The line is a comment or does not match the trace grammar. *)
Definition fails_debug (line : string) : Prop :=
  startswith "#" line = true \/ re_match DEBUG_RE (strip line) = None.

(** ** Sample inputs *)

(** A load the trace does not report. *)
Definition spike_load : list SpikeInsn :=
  [mkSpikeInsn 0x100 (Some 0x2000) None].
Definition trace_no_load : list TraceInsn :=
  [mkTraceInsn 0x100 0 0 [] []].

(** Example 2 of the specification: the instruction at 0x104 jumps to
    0x200, the trace calls it a branch that was not taken. *)
Definition spike_jump : list SpikeInsn :=
  [mkSpikeInsn 0x100 None None; mkSpikeInsn 0x104 None None;
   mkSpikeInsn 0x200 None None].
Definition trace_not_taken : list TraceInsn :=
  [mkTraceInsn 0x100 0 0 [] []; mkTraceInsn 0x104 1 0 [] []].

(** A jump the trace calls not taken, at an instruction whose load the
    trace does not report either. *)
Definition spike_jump_load : list SpikeInsn :=
  [mkSpikeInsn 0x100 (Some 0x2000) None; mkSpikeInsn 0x200 None None].
Definition trace_not_taken_no_load : list TraceInsn :=
  [mkTraceInsn 0x100 1 0 [] []].

(** A trace with one extra entry between two instructions of the
    reference. *)
Definition spike_two : list SpikeInsn :=
  [mkSpikeInsn 0x100 None None; mkSpikeInsn 0x104 None None].
Definition trace_extra : list TraceInsn :=
  [mkTraceInsn 0x100 0 0 [] []; mkTraceInsn 0x999 0 0 [] [];
   mkTraceInsn 0x104 0 0 [] []].

(** A reference and a trace that never meet. *)
Definition spike_apart : list SpikeInsn :=
  [mkSpikeInsn 0x100 None None; mkSpikeInsn 0x104 None None].
Definition trace_apart : list TraceInsn :=
  [mkTraceInsn 0x800 0 0 [] []; mkTraceInsn 0x804 1 1 [] [0x10];
   mkTraceInsn 0x808 0 0 [] []].

(** Example 4 of the specification: five pairs that match. *)
Definition spike_five : list SpikeInsn :=
  [mkSpikeInsn 0x100 None None; mkSpikeInsn 0x104 (Some 0x2000) None;
   mkSpikeInsn 0x108 None (Some 0x2008); mkSpikeInsn 0x10c None None;
   mkSpikeInsn 0x110 None None].
Definition trace_five : list TraceInsn :=
  [mkTraceInsn 0x100 0 0 [] []; mkTraceInsn 0x104 0 0 [] [0x2000];
   mkTraceInsn 0x108 0 0 [0x2008] []; mkTraceInsn 0x10c 0 0 [] [];
   mkTraceInsn 0x110 0 0 [] []].

(** A reference with a jump, a load, a store and an MMIO store. *)
Definition spike_mixed : list SpikeInsn :=
  [mkSpikeInsn 0x100 (Some 0x2000) None; mkSpikeInsn 0x104 None None;
   mkSpikeInsn 0x200 None (Some 0x3000); mkSpikeInsn 0x202 None None;
   mkSpikeInsn 0x206 None (Some 0x10000000)].

(** Two lines of a reference log with two [mem] clauses each. *)
Definition line_load_first : string :=
  "core   0: 3 0x80000008 (0x0062a023) mem 0x10 mem 0x20 0x30".
Definition line_store_first : string :=
  "core   0: 3 0x80000008 (0x0062a023) mem 0x10 0x30 mem 0x20".

(** Lines neither grammar takes. *)
Definition noise : list string :=
  ["core   0: >>>>  trap_vector"; "ip=0x100 branch=x taken=0";
   "# ip=0x100"; "mem 0x10"]%string.

(** ** Notions for the further properties *)

(** Number of error lines in a piece of output. *)
Definition error_lines (ds : list Diagnostic) : nat :=
  length (filter is_error ds).

(** [ds1] is the beginning of [ds2]. *)
Definition starts {A} (ds1 ds2 : list A) : Prop :=
  exists more, ds2 = ds1 ++ more.

(** A later state of a run: the counters have not gone down and the output
    has only grown. *)
Definition later (s s' : State) : Prop :=
  (checked s <= checked s')%nat /\ (errors s <= errors s')%nat /\
  (warnings s <= warnings s')%nat /\ starts (out s) (out s').

(** The state of a run seen from a trace with the entries [pre] put in
    front, each of them skipped against the reference instruction [r]. *)
Definition skip_prefix (r : SpikeInsn) (pre : list TraceInsn) (s : State)
    : State :=
  mkState (si s) (length pre + ti s) (checked s) (errors s)
          (length pre + warnings s) (sync_lines r pre ++ out s).

Definition map_outcome (f : State -> State) (o : Outcome) : Outcome :=
  match o with
  | Continue s => Continue (f s)
  | Break s => Break (f s)
  end.

(** The state a run is left in when, from [s] on, the entries [rest] of the
    trace are each skipped against the reference instruction [r]. *)
Definition skip_rest (r : SpikeInsn) (rest : list TraceInsn) (s : State)
    : State :=
  mkState (si s) (ti s + length rest) (checked s) (errors s)
          (warnings s + length rest)
          (out s ++ map (fun c => Sync (checked s) (s_ip r) (t_ip c)) rest).

(** What the three checks accept of the entry [tr] against the reference
    instruction [sp] at position [i]: no branch claim against the inferred
    outcome, the reference's load among the entry's loads unless it is MMIO,
    no load in the entry when the reference has none, and the same for
    stores. *)
Definition agrees (spike_insns : list SpikeInsn) (i : nat)
    (sp : SpikeInsn) (tr : TraceInsn) : Prop :=
  s_ip sp = t_ip tr /\
  (is_branch tr = 0 \/ branch_taken tr = spike_taken spike_insns i sp tr) /\
  (forall a, load_addr sp = Some a ->
     is_mmio a = true \/ In a (src_mem tr)) /\
  (load_addr sp = None -> src_mem tr = []) /\
  (forall a, store_addr sp = Some a ->
     is_mmio a = true \/ In a (dst_mem tr)) /\
  (store_addr sp = None -> dst_mem tr = []).

(** * run_sweep.py: the statistics read back from a simulation *)

(** [s.split()]: the maximal runs of characters that are not whitespace. *)
Fixpoint split_ws (s : string) : list string :=
  match s with
  | EmptyString => []
  | String c s' =>
      if is_space c then split_ws s'
      else
        match s' with
        | EmptyString => [String c EmptyString]
        | String c' _ =>
            if is_space c' then String c EmptyString :: split_ws s'
            else
              match split_ws s' with
              | t :: ts => String c t :: ts
              | [] => [String c EmptyString]
              end
        end
  end.

(** [t in s] for strings. *)
Fixpoint contains (t s : string) : bool :=
  if startswith t s then true
  else
    match s with
    | String _ s' => contains t s'
    | EmptyString => false
    end.

(** The dictionary [stats], with its three keys. *)
Record Stats := mkStats {
  ipc  : string;
  acc  : string;
  mpki : string
}.

Definition NA : string := "N/A".

(** [for i, p in enumerate(parts)], on what is left of [parts]:
    [parts[i + 1]] is the head of what follows [p], and raises when nothing
    follows. *)
Fixpoint scan_parts (parts : list string) (st : Stats) : result Stats :=
  match parts with
  | [] => Ok st
  | p :: rest =>
      st1 <- (if String.eqb p "Accuracy:"
              then match rest with
                   | next :: _ => Ok (mkStats (ipc st) next (mpki st))
                   | [] => Raise
                   end
              else Ok st) ;;
      st2 <- (if String.eqb p "MPKI:"
              then match rest with
                   | next :: _ => Ok (mkStats (ipc st1) (acc st1) next)
                   | [] => Raise
                   end
              else Ok st1) ;;
      scan_parts rest st2
  end.

(** The body of the loop over the lines of the output. *)
Definition parse_stats_line (line : string) (st : Stats) : result Stats :=
  st1 <- (if startswith "CPU 0 cumulative IPC" line
          then match nth_error (split_ws line) 4 with
               | Some v => Ok (mkStats v (acc st) (mpki st))
               | None => Raise
               end
          else Ok st) ;;
  if contains "Branch Prediction Accuracy" line
  then scan_parts (split_ws line) st1
  else Ok st1.

Fixpoint parse_stats_from (lines : list string) (st : Stats) : result Stats :=
  match lines with
  | [] => Ok st
  | line :: rest =>
      st' <- parse_stats_line line st ;;
      parse_stats_from rest st'
  end.

(** [parse_stats], on the lines of the text read. *)
Definition parse_stats (lines : list string) : result Stats :=
  parse_stats_from lines (mkStats NA NA NA).

(** [f"{s:<w}"] and [f"{s:>w}"]: spaces up to width [w], nothing cut. *)
Fixpoint spaces (n : nat) : string :=
  match n with
  | O => EmptyString
  | S n' => String " " (spaces n')
  end.

Definition ljust (w : nat) (s : string) : string :=
  (s ++ spaces (w - String.length s))%string.

Definition rjust (w : nat) (s : string) : string :=
  (spaces (w - String.length s) ++ s)%string.

(** The header and one row of the table of [generate_report]. *)
Definition report_header : string :=
  (ljust 22 "Branch Predictor" ++ " " ++ ljust 20 "Trace" ++ " "
   ++ rjust 8 "IPC" ++ " " ++ rjust 10 "Accuracy" ++ " " ++ rjust 8 "MPKI")
  %string.

Definition report_row (bp tname : string) (st : Stats) : string :=
  (ljust 22 bp ++ " " ++ ljust 20 tname ++ " "
   ++ rjust 8 (ipc st) ++ " " ++ rjust 10 (acc st) ++ " "
   ++ rjust 8 (mpki st))%string.

(** ["-" * n] *)
Fixpoint dashes (n : nat) : string :=
  match n with
  | O => EmptyString
  | S n' => String "-" (dashes n')
  end.

(** The list [lines] of [generate_report]: a result is the predictor, the
    trace name and the lines of the simulation's output. *)
Fixpoint report_rows (results : list (string * string * list string))
    : result (list string) :=
  match results with
  | [] => Ok []
  | (bp, tname, txt) :: rest =>
      st <- parse_stats txt ;;
      rows <- report_rows rest ;;
      Ok (report_row bp tname st :: rows)
  end.

Definition report_lines (results : list (string * string * list string))
    : result (list string) :=
  rows <- report_rows results ;;
  Ok (report_header :: dashes (String.length report_header) :: rows).

(** A line on which [parse_stats] raises: a line of the cumulative IPC with
    fewer than five fields, or a line of the branch prediction accuracy that
    ends in one of the two labels. *)
Definition breaks_stats (line : string) : Prop :=
  (startswith "CPU 0 cumulative IPC" line = true /\
   (length (split_ws line) < 5)%nat) \/
  (contains "Branch Prediction Accuracy" line = true /\
   exists pre l, split_ws line = pre ++ [l] /\
                 (l = "Accuracy:"%string \/ l = "MPKI:"%string)).


(** * Properties *)

(** ** The loop: general facts *)

Section LoopFacts.

Variable spike_insns : list SpikeInsn.
Variable trace_insns : list TraceInsn.
Variable max_insns : Z.
Variable stop_on_error : bool.

Let body' := body spike_insns trace_insns max_insns stop_on_error.
Let loop' := loop spike_insns trace_insns max_insns stop_on_error.
Let in_range' := in_range spike_insns trace_insns.

(** Inside the loop both cursors point at an instruction. *)
Lemma in_range_lookup (s : State) :
  in_range' s = true ->
  exists sp tr, nth_error spike_insns (si s) = Some sp /\
                nth_error trace_insns (ti s) = Some tr.
Proof.
  unfold in_range', in_range, n_spike, n_trace.
  rewrite andb_true_iff, !Nat.ltb_lt. intros [Hs Ht].
  destruct (nth_error spike_insns (si s)) as [sp|] eqn:Es.
  - destruct (nth_error trace_insns (ti s)) as [tr|] eqn:Et.
    + now exists sp, tr.
    + apply nth_error_None in Et. lia.
  - apply nth_error_None in Es. lia.
Qed.

Lemma lookup_in_range (s : State) sp tr :
  nth_error spike_insns (si s) = Some sp ->
  nth_error trace_insns (ti s) = Some tr ->
  in_range' s = true.
Proof.
  intros Hs Ht. unfold in_range', in_range, n_spike, n_trace.
  rewrite andb_true_iff, !Nat.ltb_lt. split.
  - apply nth_error_Some. congruence.
  - apply nth_error_Some. congruence.
Qed.


Lemma report_position d s :
  same_position s (flow_state (report stop_on_error d s)).
Proof. unfold report; destruct stop_on_error; simpl; repeat split. Qed.

Lemma check_branch_position sp tr taken s :
  same_position s (flow_state (check_branch stop_on_error sp tr taken s)).
Proof.
  unfold check_branch.
  destruct (truthy (is_branch tr) && negb (branch_taken tr =? taken)).
  - apply report_position.
  - repeat split.
Qed.

Lemma check_src_mem_position sp tr s :
  same_position s (flow_state (check_src_mem stop_on_error sp tr s)).
Proof.
  unfold check_src_mem.
  destruct (load_addr sp) as [a|].
  - destruct (is_mmio a); [repeat split|].
    destruct (negb (mem_in a (src_mem tr)));
      [apply report_position | repeat split].
  - destruct (nonempty (src_mem tr));
      [apply report_position | repeat split].
Qed.

Lemma check_dst_mem_position sp tr s :
  same_position s (flow_state (check_dst_mem stop_on_error sp tr s)).
Proof.
  unfold check_dst_mem.
  destruct (store_addr sp) as [a|].
  - destruct (is_mmio a); [repeat split|].
    destruct (negb (mem_in a (dst_mem tr)));
      [apply report_position | repeat split].
  - destruct (nonempty (dst_mem tr));
      [apply report_position | repeat split].
Qed.

Lemma same_position_trans s1 s2 s3 :
  same_position s1 s2 -> same_position s2 s3 -> same_position s1 s3.
Proof. unfold same_position. intuition congruence. Qed.

Lemma and_then_position s f k :
  same_position s (flow_state f) ->
  (forall s', same_position s' (flow_state (k s'))) ->
  same_position s (flow_state (f >>= k)).
Proof.
  intros Hf Hk. destruct f as [s1|s1]; simpl in *.
  - eapply same_position_trans; [exact Hf | apply Hk].
  - exact Hf.
Qed.

(** A pass that goes round again has moved the trace cursor by one. *)
Lemma body_continue_ti (s s' : State) :
  body' s = Continue s' -> ti s' = S (ti s).
Proof.
  unfold body', body.
  destruct (cap_reached max_insns s); [discriminate|].
  destruct (nth_error spike_insns (si s)) as [sp|]; [|discriminate].
  destruct (nth_error trace_insns (ti s)) as [tr|]; [|discriminate].
  destruct (negb (s_ip sp =? t_ip tr)).
  - intros H; injection H as <-. reflexivity.
  - unfold matched.
    set (s1 := mkState _ _ (S (checked s)) _ _ _).
    set (f := _ >>= _ >>= _).
    assert (Hp : same_position s1 (flow_state f)).
    { subst f. apply and_then_position; [apply and_then_position|].
      - apply check_branch_position.
      - intros; apply check_src_mem_position.
      - intros; apply check_dst_mem_position. }
    destruct f as [s2|s2]; [|discriminate].
    intros H; injection H as <-. simpl.
    destruct Hp as (_ & Ht & _). simpl in Ht. now rewrite Ht.
Qed.

(** The loop returns: [n_trace - ti] passes are always enough. *)
Lemma loop_total (fuel : nat) (s : State) :
  (n_trace trace_insns - ti s <= fuel)%nat ->
  exists s', loop' fuel s = Some s'.
Proof.
  revert s. induction fuel as [|fuel IH]; intros s Hf; simpl.
  - unfold loop'; simpl. destruct (in_range _ _ s) eqn:Hr; [|eauto].
    unfold in_range in Hr. rewrite andb_true_iff, !Nat.ltb_lt in Hr. lia.
  - unfold loop'; simpl. destruct (in_range _ _ s) eqn:Hr; [|eauto].
    destruct (body _ _ _ _ s) as [s1|s1] eqn:Hb; [|eauto].
    apply IH. apply body_continue_ti in Hb.
    unfold in_range in Hr. rewrite andb_true_iff, !Nat.ltb_lt in Hr. lia.
Qed.

(** Loop invariants: a property kept by every pass holds of the final
    state, which is either out of range or what a [break] left. *)
Lemma loop_invariant (P : State -> Prop) (fuel : nat) (s s' : State) :
  (forall s0, P s0 -> in_range' s0 = true -> P (state_of (body' s0))) ->
  P s -> loop' fuel s = Some s' ->
  P s' /\
  (in_range' s' = false \/
   exists s0, P s0 /\ in_range' s0 = true /\ body' s0 = Break s').
Proof.
  intros Hstep. revert s. induction fuel as [|fuel IH]; intros s HP.
  - unfold loop'; simpl. destruct (in_range _ _ s) eqn:Hr; [discriminate|].
    intros H; injection H as <-. auto.
  - unfold loop'; simpl. destruct (in_range _ _ s) eqn:Hr.
    + destruct (body _ _ _ _ s) as [s1|s1] eqn:Hb.
      * apply IH. specialize (Hstep s HP Hr). unfold body' in Hstep.
        now rewrite Hb in Hstep.
      * intros H; injection H as <-. split.
        -- specialize (Hstep s HP Hr). unfold body' in Hstep.
           now rewrite Hb in Hstep.
        -- right. exists s. auto.
    + intros H; injection H as <-. auto.
Qed.

Lemma loop_step (fuel : nat) (s : State) :
  in_range' s = true ->
  loop' (S fuel) s =
  match body' s with
  | Continue s' => loop' fuel s'
  | Break s' => Some s'
  end.
Proof. unfold loop', in_range', body'. simpl. now intros ->. Qed.

Lemma loop_exit (fuel : nat) (s : State) :
  in_range' s = false -> loop' fuel s = Some s.
Proof. unfold loop', in_range'. destruct fuel; simpl; now intros ->. Qed.

(** The rule for the loop: an invariant [P] kept by every pass that goes
    round again, and a postcondition [Q] met by every way out. *)
Lemma loop_rule (P Q : State -> Prop) (fuel : nat) (s s' : State) :
  (forall s0, P s0 -> in_range' s0 = true ->
     match body' s0 with Continue s1 => P s1 | Break s1 => Q s1 end) ->
  (forall s0, P s0 -> in_range' s0 = false -> Q s0) ->
  P s -> loop' fuel s = Some s' -> Q s'.
Proof.
  intros Hstep Hexit. revert s. induction fuel as [|fuel IH]; intros s HP.
  - unfold loop'; simpl. destruct (in_range _ _ s) eqn:Hr; [discriminate|].
    intros H; injection H as <-. now apply Hexit.
  - unfold loop'; simpl. destruct (in_range _ _ s) eqn:Hr.
    + specialize (Hstep s HP Hr). unfold body' in Hstep.
      destruct (body _ _ _ _ s) as [s1|s1] eqn:Hb.
      * now apply IH.
      * intros H; injection H as <-. exact Hstep.
    + intros H; injection H as <-. now apply Hexit.
Qed.

(** [check] reaches its summary on every input. *)
Lemma check_run_total :
  exists s, check_run spike_insns trace_insns max_insns stop_on_error = Some s.
Proof. apply loop_total. simpl. lia. Qed.

End LoopFacts.


Lemma State_eq s s' :
  si s = si s' -> ti s = ti s' -> checked s = checked s' ->
  errors s = errors s' -> warnings s = warnings s' -> out s = out s' ->
  s = s'.
Proof. destruct s, s'; simpl; intros; subst; reflexivity. Qed.

Section Pair.

Variable spike_insns : list SpikeInsn.
Variable stop_on_error : bool.

(** Without stop-on-error the three checks all run and the pair ends at
    [si += 1; ti += 1]. *)
Lemma matched_all (sp : SpikeInsn) (tr : TraceInsn) (s : State) :
  stop_on_error = false ->
  let n := S (checked s) in
  let ds := pair_diags sp tr (spike_taken spike_insns (si s) sp tr) n in
  matched spike_insns stop_on_error sp tr s =
  Continue (mkState (S (si s)) (S (ti s)) n (errors s + length ds)
                    (warnings s) (out s ++ ds)).
Proof.
  intros ->. unfold matched, pair_diags, branch_diag, src_diag, dst_diag,
    check_branch, check_src_mem, check_dst_mem, report.
  cbv zeta.
  destruct (truthy (is_branch tr) && negb (branch_taken tr =? _)); simpl;
    (destruct (load_addr sp) as [a|];
     [destruct (is_mmio a); [|destruct (negb (mem_in a (src_mem tr)))]
     |destruct (nonempty (src_mem tr))]); simpl;
    (destruct (store_addr sp) as [b|];
     [destruct (is_mmio b); [|destruct (negb (mem_in b (dst_mem tr)))]
     |destruct (nonempty (dst_mem tr))]); simpl;
    f_equal; apply State_eq; simpl; try reflexivity; try lia;
    rewrite <- ?app_assoc, ?app_nil_r; reflexivity.
Qed.

(** With stop-on-error the pair ends at the first line printed, before any
    later check and before the cursors move. *)
Lemma matched_stop (sp : SpikeInsn) (tr : TraceInsn) (s : State) :
  stop_on_error = true ->
  let n := S (checked s) in
  matched spike_insns stop_on_error sp tr s =
  match pair_diags sp tr (spike_taken spike_insns (si s) sp tr) n with
  | [] => Continue (mkState (S (si s)) (S (ti s)) n (errors s)
                            (warnings s) (out s))
  | d :: _ => Break (mkState (si s) (ti s) n (S (errors s))
                             (warnings s) (out s ++ [d]))
  end.
Proof.
  intros ->. unfold matched, pair_diags, branch_diag, src_diag, dst_diag,
    check_branch, check_src_mem, check_dst_mem, report.
  cbv zeta.
  destruct (truthy (is_branch tr) && negb (branch_taken tr =? _)); simpl;
    [reflexivity|];
    (destruct (load_addr sp) as [a|];
     [destruct (is_mmio a); [|destruct (negb (mem_in a (src_mem tr)))]
     |destruct (nonempty (src_mem tr))]); simpl; try reflexivity;
    (destruct (store_addr sp) as [b|];
     [destruct (is_mmio b); [|destruct (negb (mem_in b (dst_mem tr)))]
     |destruct (nonempty (dst_mem tr))]); simpl; reflexivity.
Qed.

End Pair.

(** ** Membership tests against their meaning *)

Lemma is_mmio_in_spec (regions : list (Z * Z)) (a : Z) :
  is_mmio_in regions a = true <->
  exists lo hi, In (lo, hi) regions /\ lo <= a < hi.
Proof.
  induction regions as [|[lo hi] rest IH]; simpl.
  - split; [discriminate | intros (? & ? & [] & _)].
  - destruct ((lo <=? a) && (a <? hi)) eqn:E.
    + split; [intros _ | reflexivity].
      apply andb_true_iff in E as [H1 H2].
      exists lo, hi. split; [now left | lia].
    + rewrite IH. split.
      * intros (l & h & Hin & Hr). exists l, h. split; [now right | exact Hr].
      * intros (l & h & [Heq | Hin] & Hr).
        -- injection Heq as <- <-.
           apply andb_false_iff in E as [E | E]; lia.
        -- exists l, h. split; assumption.
Qed.

Lemma mem_in_spec (a : Z) (l : list Z) : mem_in a l = true <-> In a l.
Proof.
  unfold mem_in. rewrite existsb_exists. split.
  - intros (x & Hin & Heq). apply Z.eqb_eq in Heq. now subst.
  - intros Hin. exists a. split; [exact Hin | apply Z.eqb_refl].
Qed.

Lemma mem_in_false (a : Z) (l : list Z) : ~ In a l -> mem_in a l = false.
Proof.
  intros H. destruct (mem_in a l) eqn:E; [|reflexivity].
  apply mem_in_spec in E. contradiction.
Qed.

Lemma nonempty_true {A} (l : list A) : l <> [] -> nonempty l = true.
Proof. destruct l; [congruence | reflexivity]. Qed.

Lemma count_kind_app k ds1 ds2 :
  count_kind k (ds1 ++ ds2) = (count_kind k ds1 + count_kind k ds2)%nat.
Proof. induction ds1 as [|d ds1 IH]; simpl; [reflexivity | lia]. Qed.

(** ** What one pass prints *)

Section Pass.

Variable spike_insns : list SpikeInsn.
Variable trace_insns : list TraceInsn.
Variable max_insns : Z.
Variable stop_on_error : bool.

Variables (s : State) (sp : SpikeInsn) (tr : TraceInsn).
Hypothesis Hsp : nth_error spike_insns (si s) = Some sp.
Hypothesis Htr : nth_error trace_insns (ti s) = Some tr.
Hypothesis Hcap : cap_reached max_insns s = false.

Lemma body_mismatch :
  s_ip sp <> t_ip tr ->
  body spike_insns trace_insns max_insns stop_on_error s =
  Continue (resync sp tr s).
Proof.
  intros Hne. unfold body. rewrite Hcap, Hsp, Htr.
  apply Z.eqb_neq in Hne. now rewrite Hne.
Qed.

Lemma body_match :
  s_ip sp = t_ip tr ->
  body spike_insns trace_insns max_insns stop_on_error s =
  matched spike_insns stop_on_error sp tr s.
Proof.
  intros He. unfold body. rewrite Hcap, Hsp, Htr.
  apply Z.eqb_eq in He. now rewrite He.
Qed.

Lemma body_match_out :
  s_ip sp = t_ip tr ->
  out (state_of (body spike_insns trace_insns max_insns stop_on_error s)) =
  out s ++ pair_output stop_on_error
             (pair_diags sp tr (spike_taken spike_insns (si s) sp tr)
                         (S (checked s))).
Proof.
  intros He. rewrite (body_match He). unfold pair_output.
  destruct stop_on_error eqn:Es.
  - rewrite matched_stop by reflexivity.
    destruct (pair_diags _ _ _ _); simpl; [now rewrite app_nil_r | reflexivity].
  - rewrite matched_all by reflexivity. reflexivity.
Qed.

End Pass.

(** ** Alignment *)

Lemma pair_diags_no_sync sp tr taken n :
  count_kind SYNC (pair_diags sp tr taken n) = 0%nat.
Proof.
  unfold pair_diags, branch_diag, src_diag, dst_diag.
  rewrite !count_kind_app.
  destruct (truthy (is_branch tr) && negb (branch_taken tr =? taken));
    (destruct (load_addr sp) as [a|];
     [destruct (is_mmio a); [|destruct (negb (mem_in a (src_mem tr)))]
     |destruct (nonempty (src_mem tr))]);
    (destruct (store_addr sp) as [b|];
     [destruct (is_mmio b); [|destruct (negb (mem_in b (dst_mem tr)))]
     |destruct (nonempty (dst_mem tr))]); reflexivity.
Qed.

Lemma count_kind_firstn_zero k n ds :
  count_kind k ds = 0%nat -> count_kind k (firstn n ds) = 0%nat.
Proof.
  revert n. induction ds as [|d ds IH]; intros [|n]; simpl; auto.
  destruct (Kind_eqb (kind d) k); simpl; [discriminate | auto].
Qed.

(** C1, as amended.  Take any pass of the loop that gets past the loop test
    and the cap test.  The reference cursor moves by at most one, and by one
    only when the two addresses are equal.  When they differ the pass prints
    one SYNC line, counts one warning, moves the trace cursor alone and goes
    round again.  When they are equal [checked] grows by exactly one and no
    SYNC line is printed.  Then, when stop-on-error is off or the three
    checks of the pair print nothing, both cursors move on by one and the
    loop goes round again, with the pair's lines printed and counted.  When
    stop-on-error is set and the checks of the pair print something, the
    loop is left at once, after the first of these lines and with one error
    counted, both cursors where they were. *)
Theorem alignment_step
    (spike_insns : list SpikeInsn) (trace_insns : list TraceInsn)
    (max_insns : Z) (stop_on_error : bool)
    (s : State) (sp : SpikeInsn) (tr : TraceInsn) :
  nth_error spike_insns (si s) = Some sp ->
  nth_error trace_insns (ti s) = Some tr ->
  cap_reached max_insns s = false ->
  let o := body spike_insns trace_insns max_insns stop_on_error s in
  let s' := state_of o in
  let ds := pair_diags sp tr (spike_taken spike_insns (si s) sp tr)
                       (S (checked s)) in
  (si s' = si s \/ si s' = S (si s)) /\
  (si s' = S (si s) -> s_ip sp = t_ip tr) /\
  (s_ip sp <> t_ip tr ->
     o = Continue s' /\
     out s' = out s ++ [Sync (checked s) (s_ip sp) (t_ip tr)] /\
     warnings s' = S (warnings s) /\
     si s' = si s /\ ti s' = S (ti s) /\
     checked s' = checked s /\ errors s' = errors s) /\
  (s_ip sp = t_ip tr ->
     checked s' = S (checked s) /\ warnings s' = warnings s /\
     (exists ds', out s' = out s ++ ds' /\ count_kind SYNC ds' = 0%nat) /\
     ((o = Continue s' /\ si s' = S (si s) /\ ti s' = S (ti s)) \/
      (o = Break s' /\ stop_on_error = true /\
       errors s' = S (errors s) /\ si s' = si s /\ ti s' = ti s)) /\
     (stop_on_error = false \/ ds = [] ->
        o = Continue (mkState (S (si s)) (S (ti s)) (S (checked s))
                              (errors s + length ds) (warnings s)
                              (out s ++ ds))) /\
     (stop_on_error = true -> forall d rest, ds = d :: rest ->
        o = Break (mkState (si s) (ti s) (S (checked s)) (S (errors s))
                           (warnings s) (out s ++ [d])))).
Proof.
  intros Hsp Htr Hcap o s' ds.
  destruct (Z.eq_dec (s_ip sp) (t_ip tr)) as [He | Hne].
  - assert (Hout := body_match_out spike_insns trace_insns max_insns
                      stop_on_error s sp tr Hsp Htr Hcap He).
    assert (Ho : o = matched spike_insns stop_on_error sp tr s)
      by (apply body_match; assumption).
    fold o in Hout. fold s' in Hout.
    assert (Hsync : exists ds', out s' = out s ++ ds' /\
                                count_kind SYNC ds' = 0%nat).
    { eexists; split; [exact Hout|]. unfold pair_output.
      destruct stop_on_error;
        [apply count_kind_firstn_zero|]; apply pair_diags_no_sync. }
    assert (Hcont : stop_on_error = false \/ ds = [] ->
              o = Continue (mkState (S (si s)) (S (ti s)) (S (checked s))
                                    (errors s + length ds) (warnings s)
                                    (out s ++ ds))).
    { intros Hc. rewrite Ho. destruct stop_on_error eqn:Es.
      - destruct Hc as [Hc | Hc]; [discriminate|].
        rewrite matched_stop by reflexivity. cbv zeta. fold ds.
        rewrite Hc. simpl. now rewrite Nat.add_0_r, app_nil_r.
      - now rewrite matched_all by reflexivity. }
    assert (Hbrk : stop_on_error = true -> forall d rest, ds = d :: rest ->
              o = Break (mkState (si s) (ti s) (S (checked s))
                                 (S (errors s)) (warnings s)
                                 (out s ++ [d]))).
    { intros Es d rest Hd. rewrite Ho, matched_stop by exact Es.
      cbv zeta. fold ds. now rewrite Hd. }
    assert (Hcases : (stop_on_error = false \/ ds = []) \/
                     (stop_on_error = true /\ exists d rest, ds = d :: rest)).
    { destruct stop_on_error; [|now left; left].
      destruct ds as [|d rest]; [now left; right | right; eauto]. }
    split; [|split; [|split]].
    + destruct Hcases as [Hc | (Es & d & rest & Hd)].
      * right. subst s'. now rewrite (Hcont Hc).
      * left. subst s'. now rewrite (Hbrk Es d rest Hd).
    + intros _. exact He.
    + intros Hne. contradiction.
    + intros _. split; [|split; [|split; [exact Hsync|split;
                                          [|split; [exact Hcont|exact Hbrk]]]]].
      * destruct Hcases as [Hc | (Es & d & rest & Hd)]; subst s';
          [now rewrite (Hcont Hc) | now rewrite (Hbrk Es d rest Hd)].
      * destruct Hcases as [Hc | (Es & d & rest & Hd)]; subst s';
          [now rewrite (Hcont Hc) | now rewrite (Hbrk Es d rest Hd)].
      * destruct Hcases as [Hc | (Es & d & rest & Hd)]; subst s'.
        -- left. rewrite (Hcont Hc). repeat split.
        -- right. rewrite (Hbrk Es d rest Hd). repeat split. exact Es.
  - assert (Ho : o = Continue (resync sp tr s))
      by (apply body_mismatch; assumption).
    subst s'; rewrite Ho; simpl. repeat split; auto; try contradiction.
    intros H. lia.
Qed.

(** The theorem at the first pass of a run on a matching pair whose load
    the trace lacks: with default options the pass goes round again, with
    stop-on-error it leaves the loop. *)
Lemma alignment_step_witness :
  nth_error spike_load (si init) = Some (mkSpikeInsn 0x100 (Some 0x2000) None) /\
  nth_error trace_no_load (ti init) = Some (mkTraceInsn 0x100 0 0 [] []) /\
  cap_reached 0 init = false /\
  checked (state_of (body spike_load trace_no_load 0 false init)) = 1%nat /\
  (exists d, body spike_load trace_no_load 0 false init
             = Continue (mkState 1 1 1 1 0 [d])) /\
  (exists d, body spike_load trace_no_load 0 true init
             = Break (mkState 0 0 1 1 0 [d])).
Proof.
  do 3 (split; [reflexivity|]).
  destruct (alignment_step spike_load trace_no_load 0 false init
              (mkSpikeInsn 0x100 (Some 0x2000) None)
              (mkTraceInsn 0x100 0 0 [] [])
              eq_refl eq_refl eq_refl) as (_ & _ & _ & H).
  destruct (H eq_refl) as (Hc & _ & _ & _ & Hk & _).
  split; [exact Hc|]. split.
  - eexists. exact (Hk (or_introl eq_refl)).
  - destruct (alignment_step spike_load trace_no_load 0 true init
                (mkSpikeInsn 0x100 (Some 0x2000) None)
                (mkTraceInsn 0x100 0 0 [] [])
                eq_refl eq_refl eq_refl) as (_ & _ & _ & H').
    destruct (H' eq_refl) as (_ & _ & _ & _ & _ & Hb).
    eexists. exact (Hb eq_refl _ _ eq_refl).
Defined.

(** C1 as stated fails: with stop-on-error set, a matched pair that counts
    an error is counted in [checked] and leaves both cursors in place. *)
Lemma alignment_match_halts_in_place :
  exists sp tr s',
    nth_error spike_load (si init) = Some sp /\
    nth_error trace_no_load (ti init) = Some tr /\
    s_ip sp = t_ip tr /\
    cap_reached 0 init = false /\
    body spike_load trace_no_load 0 true init = Break s' /\
    checked s' = S (checked init) /\
    si s' = si init /\ ti s' = ti init.
Proof.
  eexists _, _, _. repeat split; reflexivity.
Qed.

(** ** The lines of one matched pair, counted by kind *)

Ltac pair_cases sp tr :=
  (destruct (load_addr sp) as [?a|];
   [destruct (is_mmio _); [|destruct (negb (mem_in _ (src_mem tr)))]
   |destruct (nonempty (src_mem tr))]);
  (destruct (store_addr sp) as [?b|];
   [destruct (is_mmio _); [|destruct (negb (mem_in _ (dst_mem tr)))]
   |destruct (nonempty (dst_mem tr))]).

Section Counting.

Variables (stop_on_error : bool) (sp : SpikeInsn) (tr : TraceInsn).
Variables (taken : Z) (n : nat).

Let printed := pair_output stop_on_error (pair_diags sp tr taken n).
Let branch_wrong := truthy (is_branch tr) && negb (branch_taken tr =? taken).

Lemma count_branch_taken :
  count_kind BRANCH_TAKEN printed = if branch_wrong then 1%nat else 0%nat.
Proof.
  unfold printed, branch_wrong, pair_output, pair_diags, branch_diag,
    src_diag, dst_diag.
  destruct (truthy (is_branch tr) && negb (branch_taken tr =? taken));
    pair_cases sp tr; destruct stop_on_error; reflexivity.
Qed.

(** The load check prints at most one line, and none when stop-on-error has
    already left the loop at the branch check. *)
Lemma count_src_mem :
  count_kind SRC_MEM printed =
  if stop_on_error && branch_wrong then 0%nat
  else length (src_diag sp tr n).
Proof.
  unfold printed, branch_wrong, pair_output, pair_diags, branch_diag,
    src_diag, dst_diag.
  destruct (truthy (is_branch tr) && negb (branch_taken tr =? taken));
    pair_cases sp tr; destruct stop_on_error; reflexivity.
Qed.

(** The store check prints at most one line, and none when stop-on-error
    has already left the loop at the branch check or at the load check. *)
Lemma count_dst_mem :
  count_kind DST_MEM printed =
  if stop_on_error && (branch_wrong || nonempty (src_diag sp tr n)) then 0%nat
  else length (dst_diag sp tr n).
Proof.
  unfold printed, branch_wrong, pair_output, pair_diags, branch_diag,
    src_diag, dst_diag.
  destruct (truthy (is_branch tr) && negb (branch_taken tr =? taken));
    pair_cases sp tr; destruct stop_on_error; reflexivity.
Qed.

End Counting.

Lemma branch_wrong_spec (b t taken : Z) :
  truthy b && negb (t =? taken) = true <-> b <> 0 /\ t <> taken.
Proof.
  unfold truthy. rewrite andb_true_iff, !negb_true_iff, !Z.eqb_neq. tauto.
Qed.

(** ** Branch outcome *)

(** C2.  At a matched pair that has a next reference instruction: when the
    next address is neither [ip + 4] nor [ip + 2] the inference gives
    (is-branch, taken) = (1, 1); otherwise it gives taken = 0, with
    is-branch raised only by the trace's own branch=1 taken=1; and the pass
    prints a BRANCH_TAKEN line exactly when the trace says is_branch and its
    taken flag differs from the inferred one, and then just one.  On
    Example 2 the run prints that one line and exits with 1. *)
Theorem branch_outcome_inference
    (spike_insns : list SpikeInsn) (trace_insns : list TraceInsn)
    (max_insns : Z) (stop_on_error : bool)
    (s : State) (sp nx : SpikeInsn) (tr : TraceInsn) :
  nth_error spike_insns (si s) = Some sp ->
  nth_error trace_insns (ti s) = Some tr ->
  cap_reached max_insns s = false ->
  s_ip sp = t_ip tr ->
  nth_error spike_insns (S (si s)) = Some nx ->
  let inferred := infer_branch spike_insns (si s) sp tr in
  let inferred_taken := spike_taken spike_insns (si s) sp tr in
  (s_ip nx <> s_ip sp + 4 /\ s_ip nx <> s_ip sp + 2 ->
     inferred = (1, 1) /\ inferred_taken = 1) /\
  (s_ip nx = s_ip sp + 4 \/ s_ip nx = s_ip sp + 2 ->
     inferred_taken = 0 /\
     (fst inferred = 1 <-> is_branch tr <> 0 /\ branch_taken tr <> 0)) /\
  (exists ds,
     out (state_of (body spike_insns trace_insns max_insns stop_on_error s))
       = out s ++ ds /\
     (count_kind BRANCH_TAKEN ds = 1%nat <->
        is_branch tr <> 0 /\ branch_taken tr <> inferred_taken) /\
     (count_kind BRANCH_TAKEN ds <= 1)%nat) /\
  (exists s',
     check_run spike_jump trace_not_taken 0 false = Some s' /\
     out s' = [BranchTaken 2 0x104 0 1] /\
     errors s' = 1%nat /\ exit_code (errors s') = 1).
Proof.
  intros Hsp Htr Hcap He Hnx inferred inferred_taken.
  split; [|split; [|split]].
  - intros [H4 H2]. subst inferred inferred_taken.
    unfold spike_taken, infer_branch. rewrite Hnx.
    apply Z.eqb_neq in H4, H2. rewrite H4, H2. simpl. auto.
  - intros H. subst inferred inferred_taken.
    unfold spike_taken, infer_branch. rewrite Hnx.
    assert (Hor : (s_ip nx =? s_ip sp + 4) || (s_ip nx =? s_ip sp + 2) = true).
    { apply orb_true_iff. rewrite !Z.eqb_eq. exact H. }
    assert (Hand : negb (s_ip nx =? s_ip sp + 4)
                   && negb (s_ip nx =? s_ip sp + 2) = false).
    { rewrite <- negb_orb, Hor. reflexivity. }
    rewrite Hand, Hor.
    destruct (truthy (is_branch tr) && truthy (branch_taken tr)) eqn:Et;
      simpl; (split; [reflexivity|]).
    + apply andb_true_iff in Et as [E1 E2]. unfold truthy in *.
      rewrite negb_true_iff, Z.eqb_neq in E1, E2. tauto.
    + split; [discriminate|]. intros [E1 E2].
      apply andb_false_iff in Et. unfold truthy in Et.
      rewrite !negb_false_iff, !Z.eqb_eq in Et. tauto.
  - eexists. split; [apply body_match_out with (tr := tr); eassumption|].
    rewrite count_branch_taken. fold inferred_taken.
    rewrite <- branch_wrong_spec.
    destruct (truthy (is_branch tr) && negb (branch_taken tr =? inferred_taken));
      split; try tauto; try lia; intros; discriminate.
  - eexists. repeat split.
Qed.

(** The theorem at the second pair of Example 2. *)
Lemma branch_outcome_inference_witness :
  cap_reached 0 (mkState 1 1 1 0 0 []) = false /\
  spike_taken spike_jump 1 (mkSpikeInsn 0x104 None None)
              (mkTraceInsn 0x104 1 0 [] []) = 1.
Proof.
  split; [reflexivity|].
  destruct (branch_outcome_inference spike_jump trace_not_taken 0 false
              (mkState 1 1 1 0 0 [])
              (mkSpikeInsn 0x104 None None) (mkSpikeInsn 0x200 None None)
              (mkTraceInsn 0x104 1 0 [] [])
              eq_refl eq_refl eq_refl eq_refl eq_refl) as (H & _).
  apply H. split; discriminate.
Defined.

(** ** Loads and stores *)

Lemma src_diag_mmio sp tr n a :
  load_addr sp = Some a -> is_mmio a = true -> src_diag sp tr n = [].
Proof. unfold src_diag. now intros -> ->. Qed.

Lemma src_diag_missing sp tr n a :
  load_addr sp = Some a -> is_mmio a = false -> ~ In a (src_mem tr) ->
  src_diag sp tr n = [SrcMemMissing n (s_ip sp) a (src_mem tr)].
Proof.
  unfold src_diag. intros -> -> Hin. now rewrite (mem_in_false _ _ Hin).
Qed.

Lemma src_diag_spurious sp tr n :
  load_addr sp = None -> src_mem tr <> [] ->
  src_diag sp tr n = [SrcMemSpurious n (s_ip sp) (src_mem tr)].
Proof. unfold src_diag. intros -> Hne. now rewrite (nonempty_true _ Hne). Qed.

Lemma dst_diag_mmio sp tr n a :
  store_addr sp = Some a -> is_mmio a = true -> dst_diag sp tr n = [].
Proof. unfold dst_diag. now intros -> ->. Qed.

Lemma dst_diag_missing sp tr n a :
  store_addr sp = Some a -> is_mmio a = false -> ~ In a (dst_mem tr) ->
  dst_diag sp tr n = [DstMemMissing n (s_ip sp) a (dst_mem tr)].
Proof.
  unfold dst_diag. intros -> -> Hin. now rewrite (mem_in_false _ _ Hin).
Qed.

Lemma dst_diag_spurious sp tr n :
  store_addr sp = None -> dst_mem tr <> [] ->
  dst_diag sp tr n = [DstMemSpurious n (s_ip sp) (dst_mem tr)].
Proof. unfold dst_diag. intros -> Hne. now rewrite (nonempty_true _ Hne). Qed.

Lemma not_mmio (a : Z) :
  ~ (exists lo hi, In (lo, hi) MMIO_REGIONS /\ lo <= a < hi) ->
  is_mmio a = false.
Proof.
  intros H. destruct (is_mmio a) eqn:E; [|reflexivity].
  apply is_mmio_in_spec in E. contradiction.
Qed.

(** C3, as amended.  Let [ds] be what the pass of a matched pair prints.  A
    reference load inside an MMIO interval [lo, hi) never gives a SRC_MEM
    line, whatever the trace holds.  When the pass reaches the load check
    (stop-on-error is off, or the branch check found nothing), a load address
    outside every MMIO interval and absent from the trace's list gives
    exactly one SRC_MEM line, and so does a non-empty trace list against no
    reference load.  The same holds of stores and DST_MEM, the store check
    being reached when stop-on-error is off or neither earlier check found
    anything. *)
Theorem memory_checks
    (spike_insns : list SpikeInsn) (trace_insns : list TraceInsn)
    (max_insns : Z) (stop_on_error : bool)
    (s : State) (sp : SpikeInsn) (tr : TraceInsn) :
  nth_error spike_insns (si s) = Some sp ->
  nth_error trace_insns (ti s) = Some tr ->
  cap_reached max_insns s = false ->
  s_ip sp = t_ip tr ->
  exists ds,
    out (state_of (body spike_insns trace_insns max_insns stop_on_error s))
      = out s ++ ds /\
    (forall a lo hi,
       load_addr sp = Some a -> In (lo, hi) MMIO_REGIONS -> lo <= a < hi ->
       count_kind SRC_MEM ds = 0%nat) /\
    (forall a,
       load_addr sp = Some a ->
       ~ (exists lo hi, In (lo, hi) MMIO_REGIONS /\ lo <= a < hi) ->
       ~ In a (src_mem tr) -> reaches_load stop_on_error ds ->
       count_kind SRC_MEM ds = 1%nat) /\
    (load_addr sp = None -> src_mem tr <> [] ->
       reaches_load stop_on_error ds ->
       count_kind SRC_MEM ds = 1%nat) /\
    (forall a lo hi,
       store_addr sp = Some a -> In (lo, hi) MMIO_REGIONS -> lo <= a < hi ->
       count_kind DST_MEM ds = 0%nat) /\
    (forall a,
       store_addr sp = Some a ->
       ~ (exists lo hi, In (lo, hi) MMIO_REGIONS /\ lo <= a < hi) ->
       ~ In a (dst_mem tr) -> reaches_store stop_on_error ds ->
       count_kind DST_MEM ds = 1%nat) /\
    (store_addr sp = None -> dst_mem tr <> [] ->
       reaches_store stop_on_error ds ->
       count_kind DST_MEM ds = 1%nat).
Proof.
  intros Hsp Htr Hcap He.
  eexists. split; [apply body_match_out with (tr := tr); eassumption|].
  set (taken := spike_taken spike_insns (si s) sp tr).
  set (n := S (checked s)).
  assert (Hload : forall ds0, reaches_load stop_on_error
              (pair_output stop_on_error (pair_diags sp tr taken n)) ->
            src_diag sp tr n = [ds0] ->
            count_kind SRC_MEM
              (pair_output stop_on_error (pair_diags sp tr taken n)) = 1%nat).
  { intros d0 Hr Hd. unfold reaches_load in Hr.
    rewrite count_branch_taken in Hr. rewrite count_src_mem, Hd.
    destruct stop_on_error; [|reflexivity].
    destruct Hr as [Hr|Hr]; [discriminate|].
    destruct (truthy _ && _); [discriminate | reflexivity]. }
  assert (Hstore : forall ds0, reaches_store stop_on_error
              (pair_output stop_on_error (pair_diags sp tr taken n)) ->
            dst_diag sp tr n = [ds0] ->
            count_kind DST_MEM
              (pair_output stop_on_error (pair_diags sp tr taken n)) = 1%nat).
  { intros d0 Hr Hd. unfold reaches_store in Hr.
    rewrite count_branch_taken, count_src_mem in Hr.
    rewrite count_dst_mem, Hd.
    destruct stop_on_error; [|reflexivity].
    destruct Hr as [Hr|[Hb Hl]]; [discriminate|].
    destruct (truthy _ && _); [discriminate|]. simpl in *.
    destruct (src_diag sp tr n); [reflexivity | discriminate]. }
  repeat apply conj.
  - intros a lo hi Ha Hin Hr. rewrite count_src_mem.
    rewrite (src_diag_mmio sp tr n a Ha).
    + now destruct (_ && _).
    + apply is_mmio_in_spec. eauto.
  - intros a Ha Hm Hin Hr. eapply Hload; [exact Hr|].
    apply src_diag_missing; [exact Ha | apply not_mmio; exact Hm | exact Hin].
  - intros Ha Hne Hr. eapply Hload; [exact Hr|].
    now apply src_diag_spurious.
  - intros a lo hi Ha Hin Hr. rewrite count_dst_mem.
    rewrite (dst_diag_mmio sp tr n a Ha).
    + now destruct (_ && _).
    + apply is_mmio_in_spec. eauto.
  - intros a Ha Hm Hin Hr. eapply Hstore; [exact Hr|].
    apply dst_diag_missing; [exact Ha | apply not_mmio; exact Hm | exact Hin].
  - intros Ha Hne Hr. eapply Hstore; [exact Hr|].
    now apply dst_diag_spurious.
Qed.

(** The theorem at Example 3: a load the trace does not report, default
    options: one SRC_MEM line. *)
Lemma memory_checks_witness :
  cap_reached 0 init = false /\
  count_kind SRC_MEM
    (out (state_of (body spike_load trace_no_load 0 false init))) = 1%nat.
Proof.
  split; [reflexivity|].
  destruct (memory_checks spike_load trace_no_load 0 false init
              (mkSpikeInsn 0x100 (Some 0x2000) None)
              (mkTraceInsn 0x100 0 0 [] [])
              eq_refl eq_refl eq_refl eq_refl)
    as (ds & Hout & _ & Hmiss & _).
  rewrite Hout. change (count_kind SRC_MEM ds = 1%nat).
  apply (Hmiss 0x2000); [reflexivity | | intros [] | now left].
  intros (lo & hi & Hin & Hr). simpl in Hin.
  repeat (destruct Hin as [Hin | Hin]; [injection Hin as <- <-; lia|]).
  exact Hin.
Defined.

(** C3 as stated fails: with stop-on-error set, a pair whose branch check
    already counted an error is left before its load check; the load at
    0x2000, outside every MMIO interval and absent from the trace's list,
    gives no SRC_MEM line. *)
Lemma missing_load_unreported_after_branch_error :
  exists sp tr s',
    nth_error spike_jump_load 0 = Some sp /\
    nth_error trace_not_taken_no_load 0 = Some tr /\
    s_ip sp = t_ip tr /\
    load_addr sp = Some 0x2000 /\ is_mmio 0x2000 = false /\
    mem_in 0x2000 (src_mem tr) = false /\
    check_run spike_jump_load trace_not_taken_no_load 0 true = Some s' /\
    out s' = [BranchTaken 1 0x100 0 1] /\
    count_kind SRC_MEM (out s') = 0%nat.
Proof.
  eexists _, _, _. repeat split; reflexivity.
Qed.

(** ** Cancellation *)

Lemma pair_diags_errors sp tr taken n d :
  In d (pair_diags sp tr taken n) -> is_error d = true.
Proof.
  unfold pair_diags, branch_diag, src_diag, dst_diag.
  destruct (truthy (is_branch tr) && negb (branch_taken tr =? taken));
    pair_cases sp tr; simpl; intuition (subst; reflexivity).
Qed.

Lemma cap_break spike_insns trace_insns max_insns stop_on_error s :
  cap_reached max_insns s = true ->
  body spike_insns trace_insns max_insns stop_on_error s = Break s.
Proof. intros H. unfold body. now rewrite H. Qed.

Lemma only_sync_app ds d :
  only_sync ds -> kind d = SYNC -> only_sync (ds ++ [d]).
Proof.
  intros H1 H2. apply Forall_app. split; [exact H1 | now constructor].
Qed.

(** With stop-on-error a run counts at most one error, and the line of that
    error is the last one printed. *)
Lemma stop_on_error_run spike_insns trace_insns max_insns s' :
  check_run spike_insns trace_insns max_insns true = Some s' ->
  (errors s' = 0%nat /\ only_sync (out s')) \/ ends_at_first_error s'.
Proof.
  unfold check_run. intros Hrun.
  apply (loop_rule spike_insns trace_insns max_insns true
           (fun s => errors s = 0%nat /\ only_sync (out s))
           (fun s => (errors s = 0%nat /\ only_sync (out s))
                     \/ ends_at_first_error s)
           _ _ _) with (4 := Hrun).
  - intros s0 [He Ho] Hr.
    destruct (in_range_lookup _ _ _ Hr) as (sp & tr & Hsp & Htr).
    destruct (cap_reached max_insns s0) eqn:Hcap.
    { rewrite cap_break by assumption. now left. }
    destruct (Z.eq_dec (s_ip sp) (t_ip tr)) as [Heq | Hne].
    + rewrite (body_match _ _ _ _ _ _ _ Hsp Htr Hcap Heq).
      rewrite matched_stop by reflexivity.
      destruct (pair_diags _ _ _ _) as [|d ds] eqn:Hd; simpl.
      * auto.
      * right. split; [simpl; now rewrite He|].
        exists (out s0), d. repeat split; [exact Ho|].
        eapply pair_diags_errors. rewrite Hd. now left.
    + rewrite (body_mismatch _ _ _ _ _ _ _ Hsp Htr Hcap Hne). simpl.
      split; [exact He|]. now apply only_sync_app.
  - intros s0 H _. now left.
  - split; [reflexivity | constructor].
Qed.

(** C7, as amended.  The cap is tested at the top of every pass, matched
    pair or not, before the addresses are compared: once it is reached the
    pass leaves the loop and prints and counts nothing.  A pass that skips a
    trace entry with a SYNC line always goes round again, whatever the
    stop-on-error flag.  On a matched pair the flag only matters when the
    pair finds an error: a pair without one ends the same with the flag set
    or not, and a pair with one, under the flag, leaves the loop right after
    the first error line, with that single error counted.  A whole run under
    the flag prints SYNC lines only, then at most one error line, which is
    the last. *)
Theorem cancellation_points
    (spike_insns : list SpikeInsn) (trace_insns : list TraceInsn)
    (max_insns : Z) (s : State) (sp : SpikeInsn) (tr : TraceInsn) :
  nth_error spike_insns (si s) = Some sp ->
  nth_error trace_insns (ti s) = Some tr ->
  let pass := body spike_insns trace_insns max_insns in
  (cap_reached max_insns s = true ->
     forall stop_on_error, pass stop_on_error s = Break s) /\
  (cap_reached max_insns s = false -> s_ip sp <> t_ip tr ->
     forall stop_on_error,
       pass stop_on_error s = Continue (resync sp tr s)) /\
  (cap_reached max_insns s = false -> s_ip sp = t_ip tr ->
     errors (state_of (pass false s)) = errors s ->
     pass true s = pass false s) /\
  (cap_reached max_insns s = false -> s_ip sp = t_ip tr ->
     errors (state_of (pass false s)) <> errors s ->
     exists d rest,
       out (state_of (pass false s)) = out s ++ d :: rest /\
       is_error d = true /\
       pass true s =
       Break (mkState (si s) (ti s) (S (checked s)) (S (errors s))
                      (warnings s) (out s ++ [d]))) /\
  (exists s',
     check_run spike_insns trace_insns max_insns true = Some s' /\
     ((errors s' = 0%nat /\ only_sync (out s')) \/ ends_at_first_error s')).
Proof.
  intros Hsp Htr pass. repeat apply conj.
  - intros Hcap stop. now apply cap_break.
  - intros Hcap Hne stop. now apply body_mismatch.
  - intros Hcap Heq. unfold pass.
    rewrite !(body_match _ _ _ _ _ _ _ Hsp Htr Hcap Heq).
    rewrite matched_all, matched_stop by reflexivity. simpl.
    destruct (pair_diags _ _ _ _) as [|d ds]; simpl; intros H; [|lia].
    f_equal. apply State_eq; simpl; auto using app_nil_r.
  - intros Hcap Heq. unfold pass.
    rewrite !(body_match _ _ _ _ _ _ _ Hsp Htr Hcap Heq).
    rewrite matched_all, matched_stop by reflexivity. simpl.
    destruct (pair_diags _ _ _ _) as [|d ds] eqn:Hd; simpl; intros H; [lia|].
    exists d, ds. repeat split.
    eapply pair_diags_errors. rewrite Hd. now left.
  - destruct (check_run_total spike_insns trace_insns max_insns true)
      as (s' & Hs').
    exists s'. split; [exact Hs'|]. now apply stop_on_error_run in Hs'.
Qed.

(** The theorem on the run with an extra trace entry, cap 1, after its
    first pair: the cap ends the loop at the entry that does not match. *)
Lemma cancellation_points_witness :
  cap_reached 1 (mkState 1 1 1 0 0 []) = true /\
  body spike_two trace_extra 1 false (mkState 1 1 1 0 0 []) =
  Break (mkState 1 1 1 0 0 []).
Proof.
  split; [reflexivity|].
  destruct (cancellation_points spike_two trace_extra 1 (mkState 1 1 1 0 0 [])
              (mkSpikeInsn 0x104 None None) (mkTraceInsn 0x999 0 0 [] [])
              eq_refl eq_refl) as (H & _).
  apply H. reflexivity.
Defined.

(** C7 as stated fails: the cap is also tested on a pass whose pair does not
    match.  After the first pair of this run the cursors are on 0x104 and
    0x999; with cap 1 the pass leaves the loop there, with no cap it would
    print a SYNC line and go on, and so the capped run ends with no
    warning. *)
Lemma cap_tested_on_mismatch :
  exists s sp tr s',
    body spike_two trace_extra 1 false init = Continue s /\
    nth_error spike_two (si s) = Some sp /\
    nth_error trace_extra (ti s) = Some tr /\
    s_ip sp <> t_ip tr /\
    body spike_two trace_extra 1 false s = Break s /\
    body spike_two trace_extra 0 false s = Continue (resync sp tr s) /\
    check_run spike_two trace_extra 1 false = Some s' /\
    checked s' = 1%nat /\ warnings s' = 0%nat.
Proof.
  eexists _, _, _, _.
  do 3 (split; [reflexivity|]).
  split; [discriminate|].
  repeat split; reflexivity.
Qed.

(** ** Permanent desynchronisation *)

Lemma firstn_snoc {A} (l : list A) (i : nat) (x : A) :
  nth_error l i = Some x -> firstn (S i) l = firstn i l ++ [x].
Proof.
  revert i. induction l as [|a l IH]; intros [|i] H; simpl in *;
    try discriminate.
  - now injection H as ->.
  - f_equal. now apply IH.
Qed.

(** C5, as amended.  When every trace entry differs in address from the head
    of the reference, the run ends normally with nothing checked, no error,
    verdict PASS and exit code 0, the reference cursor still at 0.  When
    moreover the cap is not negative and the reference has an instruction
    (or the trace has none), the trace is used up, with one SYNC line and one
    warning for each of its entries.  With an empty reference or a negative
    cap the run ends where it starts: no trace entry is read and no line is
    printed. *)
Theorem permanent_desync
    (spike_insns : list SpikeInsn) (trace_insns : list TraceInsn)
    (max_insns : Z) (stop_on_error : bool) :
  never_aligned spike_insns trace_insns ->
  exists s,
    check_run spike_insns trace_insns max_insns stop_on_error = Some s /\
    checked s = 0%nat /\ errors s = 0%nat /\ si s = 0%nat /\
    verdict s = PASS /\ exit_code (errors s) = 0 /\
    (0 <= max_insns -> spike_insns <> [] \/ trace_insns = [] ->
       ti s = length trace_insns /\
       warnings s = length trace_insns /\
       count_kind SYNC (out s) = length trace_insns /\
       forall r, nth_error spike_insns 0 = Some r ->
                 out s = sync_lines r trace_insns) /\
    (spike_insns = [] \/ max_insns < 0 -> s = init).
Proof.
  intros Hna.
  destruct (check_run_total spike_insns trace_insns max_insns stop_on_error)
    as (s & Hs).
  exists s. split; [exact Hs|].
  set (P := fun s0 : State =>
    si s0 = 0%nat /\ checked s0 = 0%nat /\ errors s0 = 0%nat /\
    (ti s0 <= length trace_insns)%nat /\ warnings s0 = ti s0 /\
    count_kind SYNC (out s0) = ti s0 /\
    (forall r, nth_error spike_insns 0 = Some r ->
               out s0 = sync_lines r (firstn (ti s0) trace_insns)) /\
    (spike_insns = [] \/ max_insns < 0 -> s0 = init)).
  set (Q := fun s0 : State =>
    checked s0 = 0%nat /\ errors s0 = 0%nat /\ si s0 = 0%nat /\
    (0 <= max_insns -> spike_insns <> [] \/ trace_insns = [] ->
       ti s0 = length trace_insns /\ warnings s0 = length trace_insns /\
       count_kind SYNC (out s0) = length trace_insns /\
       forall r, nth_error spike_insns 0 = Some r ->
                 out s0 = sync_lines r trace_insns) /\
    (spike_insns = [] \/ max_insns < 0 -> s0 = init)).
  assert (HQ : Q s).
  { unfold check_run in Hs.
    apply (loop_rule spike_insns trace_insns max_insns stop_on_error P Q
             _ _ _) with (4 := Hs).
    - intros s0 (Hsi & Hch & Her & Hle & Hw & Hc & Ho & Hi) Hr.
      destruct (in_range_lookup _ _ _ Hr) as (sp & tr & Hsp & Htr).
      rewrite Hsi in Hsp.
      destruct (cap_reached max_insns s0) eqn:Hcap.
      + rewrite cap_break by assumption.
        unfold cap_reached, truthy in Hcap. rewrite Hch in Hcap.
        apply andb_true_iff in Hcap as [H1 H2].
        rewrite negb_true_iff, Z.eqb_neq in H1. apply Z.leb_le in H2.
        simpl in H2.
        split; [exact Hch|]. split; [exact Her|]. split; [exact Hsi|].
        split; [intros Hpos; lia | exact Hi].
      + assert (Hne : s_ip sp <> t_ip tr)
          by (apply Hna; [exact Hsp | exact (nth_error_In _ _ Htr)]).
        rewrite (body_mismatch _ _ _ _ _ _ _
                   ltac:(rewrite Hsi; exact Hsp) Htr Hcap Hne).
        unfold P, resync; cbn [si ti checked errors warnings out].
        split; [exact Hsi|]. split; [exact Hch|]. split; [exact Her|].
        split.
        { assert (ti s0 < length trace_insns)%nat
            by (apply nth_error_Some; congruence).
          lia. }
        split; [now rewrite Hw|].
        split; [rewrite count_kind_app, Hc; simpl; lia|].
        split.
        * intros r Hr1. rewrite (firstn_snoc _ _ _ Htr).
          unfold sync_lines. rewrite map_app. simpl.
          assert (r = sp) by congruence. subst r.
          rewrite (Ho sp Hsp), Hch. reflexivity.
        * intros [He | Hneg]; exfalso.
          -- rewrite He in Hsp. discriminate.
          -- unfold cap_reached, truthy in Hcap. rewrite Hch in Hcap.
             apply andb_false_iff in Hcap as [H1 | H2].
             ++ rewrite negb_false_iff, Z.eqb_eq in H1. lia.
             ++ apply Z.leb_gt in H2. simpl in H2. lia.
    - intros s0 (Hsi & Hch & Her & Hle & Hw & Hc & Ho & Hi) Hr.
      split; [exact Hch|]. split; [exact Her|]. split; [exact Hsi|].
      split; [|exact Hi].
      intros _ Hg.
      assert (Hti : ti s0 = length trace_insns).
      { unfold in_range, n_spike, n_trace in Hr.
        apply andb_false_iff in Hr. rewrite !Nat.ltb_ge in Hr.
        destruct Hr as [Hr | Hr]; [|lia].
        rewrite Hsi in Hr.
        destruct Hg as [Hg | Hg]; [|rewrite Hg in *; simpl in *; lia].
        destruct spike_insns; [now elim Hg | simpl in Hr; lia]. }
      split; [exact Hti|]. split; [congruence|]. split; [congruence|].
      intros r Hr0. rewrite (Ho r Hr0), Hti, firstn_all. reflexivity.
    - unfold P, init; simpl.
      split; [reflexivity|]. split; [reflexivity|]. split; [reflexivity|].
      split; [lia|]. split; [reflexivity|]. split; [reflexivity|].
      split; [intros r _; reflexivity | intros _; reflexivity]. }
  destruct HQ as (Hch & Her & Hsi & Hrest & Hinit).
  split; [exact Hch|]. split; [exact Her|]. split; [exact Hsi|].
  split; [unfold verdict; now rewrite Her|].
  split; [now rewrite Her|].
  split; [exact Hrest | exact Hinit].
Qed.

(** The theorem on a reference and a trace that never meet, default
    options. *)
Lemma permanent_desync_witness :
  never_aligned spike_apart trace_apart /\
  exists s, check_run spike_apart trace_apart 0 false = Some s /\
            warnings s = 3%nat /\ checked s = 0%nat.
Proof.
  assert (H : never_aligned spike_apart trace_apart).
  { intros r c Hr Hin. injection Hr as <-. simpl in Hin.
    repeat (destruct Hin as [<- | Hin]; [discriminate|]).
    destruct Hin. }
  split; [exact H|].
  destruct (permanent_desync spike_apart trace_apart 0 false H)
    as (s & Hs & Hc & _ & _ & _ & _ & Hw & _).
  exists s. split; [exact Hs|]. split; [|exact Hc].
  apply Hw; [reflexivity | left; discriminate].
Defined.

(** C5 as stated fails in two ways.  A reference with no instruction shares
    no address with any trace, yet the loop is never entered: the three
    trace entries are left unread and no SYNC line is printed.  And with a
    negative cap the cap test ends the loop in its first pass, before the
    addresses are compared: again no warning, no trace entry used. *)
Lemma desync_without_sync_lines :
  (never_aligned [] trace_apart /\
   exists s, check_run [] trace_apart 0 false = Some s /\
             warnings s = 0%nat /\ count_kind SYNC (out s) = 0%nat /\
             ti s = 0%nat /\ length trace_apart = 3%nat) /\
  (never_aligned spike_apart trace_apart /\
   exists s, check_run spike_apart trace_apart (-1) false = Some s /\
             warnings s = 0%nat /\ count_kind SYNC (out s) = 0%nat /\
             ti s = 0%nat /\ length trace_apart = 3%nat).
Proof.
  split; split.
  - intros r c Hr. discriminate.
  - exists init. repeat split.
  - intros r c Hr Hin. injection Hr as <-. simpl in Hin.
    repeat (destruct Hin as [<- | Hin]; [discriminate|]).
    destruct Hin.
  - exists init. repeat split.
Qed.

(** ** The cap on checked instructions *)

Lemma matched_ext spike_insns spike_insns' stop_on_error sp tr s :
  nth_error spike_insns (S (si s)) = nth_error spike_insns' (S (si s)) ->
  matched spike_insns stop_on_error sp tr s =
  matched spike_insns' stop_on_error sp tr s.
Proof.
  intros H. unfold matched, spike_taken, infer_branch. now rewrite H.
Qed.

(** How a matched pair ends: on to the next pair, or out at an error. *)
Lemma matched_cases spike_insns stop_on_error sp tr s :
  (exists e ds,
     matched spike_insns stop_on_error sp tr s =
     Continue (mkState (S (si s)) (S (ti s)) (S (checked s)) e
                       (warnings s) (out s ++ ds))) \/
  (stop_on_error = true /\ exists d,
     matched spike_insns stop_on_error sp tr s =
     Break (mkState (si s) (ti s) (S (checked s)) (S (errors s))
                    (warnings s) (out s ++ [d]))).
Proof.
  destruct stop_on_error eqn:Es.
  - rewrite matched_stop by reflexivity.
    destruct (pair_diags _ _ _ _) as [|d ds].
    + left. exists (errors s), []. now rewrite app_nil_r.
    + right. split; [reflexivity|]. now exists d.
  - rewrite matched_all by reflexivity. left. eauto.
Qed.

Section Cap.

Variable spike_insns : list SpikeInsn.
Variable trace_insns : list TraceInsn.
Variable stop_on_error : bool.

(** With no cap the loop is left only with a sequence used up, or by
    stop-on-error at an error. *)
Lemma uncapped_run s :
  check_run spike_insns trace_insns 0 stop_on_error = Some s ->
  exhausted spike_insns trace_insns s \/
  (stop_on_error = true /\ (0 < errors s)%nat).
Proof.
  unfold check_run. intros Hrun.
  apply (loop_rule spike_insns trace_insns 0 stop_on_error
           (fun s0 => (si s0 <= length spike_insns)%nat /\
                      (ti s0 <= length trace_insns)%nat)
           (fun s0 => exhausted spike_insns trace_insns s0 \/
                      (stop_on_error = true /\ (0 < errors s0)%nat))
           _ _ _) with (4 := Hrun).
  - intros s0 [Hs Ht] Hr.
    destruct (in_range_lookup _ _ _ Hr) as (sp & tr & Hsp & Htr).
    assert (Hs' : (si s0 < length spike_insns)%nat)
      by (apply nth_error_Some; congruence).
    assert (Ht' : (ti s0 < length trace_insns)%nat)
      by (apply nth_error_Some; congruence).
    assert (Hcap : cap_reached 0 s0 = false) by reflexivity.
    destruct (Z.eq_dec (s_ip sp) (t_ip tr)) as [Heq | Hne].
    + rewrite (body_match _ _ _ _ _ _ _ Hsp Htr Hcap Heq).
      destruct (matched_cases spike_insns stop_on_error sp tr s0)
        as [(e & ds & ->) | (Hstop & d & ->)]; simpl.
      * lia.
      * right. split; [exact Hstop | lia].
    + rewrite (body_mismatch _ _ _ _ _ _ _ Hsp Htr Hcap Hne). simpl. lia.
  - intros s0 [Hs Ht] Hr. left.
    unfold exhausted, in_range, n_spike, n_trace in *.
    apply andb_false_iff in Hr. rewrite !Nat.ltb_ge in Hr. lia.
  - simpl. lia.
Qed.

(** With a cap [k > 0] no more than [k] pairs are checked. *)
Lemma capped_run k s :
  0 < k ->
  check_run spike_insns trace_insns k stop_on_error = Some s ->
  Z.of_nat (checked s) <= k.
Proof.
  unfold check_run. intros Hk Hrun.
  apply (loop_rule spike_insns trace_insns k stop_on_error
           (fun s0 => Z.of_nat (checked s0) <= k)
           (fun s0 => Z.of_nat (checked s0) <= k)
           _ _ _) with (4 := Hrun).
  - intros s0 Hc Hr.
    destruct (in_range_lookup _ _ _ Hr) as (sp & tr & Hsp & Htr).
    destruct (cap_reached k s0) eqn:Hcap.
    { now rewrite cap_break by assumption. }
    assert (Hlt : Z.of_nat (checked s0) < k).
    { unfold cap_reached, truthy in Hcap.
      apply andb_false_iff in Hcap as [H | H].
      - rewrite negb_false_iff, Z.eqb_eq in H. lia.
      - apply Z.leb_gt in H. lia. }
    destruct (Z.eq_dec (s_ip sp) (t_ip tr)) as [Heq | Hne].
    + rewrite (body_match _ _ _ _ _ _ _ Hsp Htr Hcap Heq).
      destruct (matched_cases spike_insns stop_on_error sp tr s0)
        as [(e & ds & ->) | (Hstop & d & ->)]; simpl; lia.
    + rewrite (body_mismatch _ _ _ _ _ _ _ Hsp Htr Hcap Hne). simpl. lia.
  - auto.
  - simpl. lia.
Qed.

(** With cap 1 and at least two matched pairs ahead, the run is the first
    pass and nothing more, and it is the run on the first pair alone, the
    reference cut after the next address that pair's branch check reads. *)
Lemma cap_one_run :
  matched_pairs 2 spike_insns trace_insns ->
  let s := state_of (body spike_insns trace_insns 1 stop_on_error init) in
  check_run spike_insns trace_insns 1 stop_on_error = Some s /\
  check_run (firstn 2 spike_insns) (firstn 1 trace_insns) 1 stop_on_error
    = Some s /\
  checked s = 1%nat /\ warnings s = 0%nat /\
  (si s <= 1)%nat /\ (ti s <= 1)%nat.
Proof.
  intros Hm.
  destruct (Hm 0%nat ltac:(lia)) as (sp0 & tr0 & Hs0 & Ht0 & He0).
  destruct (Hm 1%nat ltac:(lia)) as (sp1 & tr1 & Hs1 & Ht1 & _).
  destruct spike_insns as [|x0 [|x1 srest]]; try discriminate.
  destruct trace_insns as [|y0 [|y1 trest]]; try discriminate.
  simpl in Hs0, Ht0. injection Hs0 as ->. injection Ht0 as ->.
  assert (Hb : body (sp0 :: x1 :: srest) (tr0 :: y1 :: trest) 1
                 stop_on_error init =
               matched (sp0 :: x1 :: srest) stop_on_error sp0 tr0 init).
  { apply body_match with (tr := tr0); auto. }
  assert (Hb' : body [sp0; x1] [tr0] 1 stop_on_error init =
                matched (sp0 :: x1 :: srest) stop_on_error sp0 tr0 init).
  { rewrite (body_match [sp0; x1] [tr0] 1 stop_on_error init sp0 tr0)
      by auto.
    now apply matched_ext. }
  cbv zeta. unfold check_run, n_trace. simpl firstn. simpl length.
  rewrite !loop_step by reflexivity. rewrite Hb, Hb'.
  destruct (matched_cases (sp0 :: x1 :: srest) stop_on_error sp0 tr0 init)
    as [(e & ds & ->) | (Hstop & d & ->)]; simpl state_of.
  - split; [|split].
    + rewrite loop_step by reflexivity.
      now rewrite cap_break by reflexivity.
    + now rewrite loop_exit by reflexivity.
    + simpl. repeat split; lia.
  - repeat split; simpl; lia.
Qed.

End Cap.

(** C6, as amended.  With [max_insns = 0] the cap never ends the loop: the
    run goes on until a sequence is used up, unless stop-on-error ends it at
    an error.  With [max_insns = k > 0] at most [k] pairs are checked.  With
    [max_insns = 1] and five matched pairs ahead exactly one instruction is
    checked, the run is the first pass and stops short of the second pair,
    and it equals the run on the first pair alone (with the one further
    reference address its branch check reads), so the exit code depends on
    nothing else. *)
Theorem cap_semantics
    (spike_insns : list SpikeInsn) (trace_insns : list TraceInsn)
    (stop_on_error : bool) :
  (exists s,
     check_run spike_insns trace_insns 0 stop_on_error = Some s /\
     (exhausted spike_insns trace_insns s \/
      (stop_on_error = true /\ (0 < errors s)%nat))) /\
  (forall k, 0 < k ->
     exists s,
       check_run spike_insns trace_insns k stop_on_error = Some s /\
       Z.of_nat (checked s) <= k) /\
  (matched_pairs 5 spike_insns trace_insns ->
     exists s,
       check_run spike_insns trace_insns 1 stop_on_error = Some s /\
       checked s = 1%nat /\
       s = state_of (body spike_insns trace_insns 1 stop_on_error init) /\
       (si s <= 1)%nat /\ (ti s <= 1)%nat /\
       check_run (firstn 2 spike_insns) (firstn 1 trace_insns) 1
                 stop_on_error = Some s).
Proof.
  repeat apply conj.
  - destruct (check_run_total spike_insns trace_insns 0 stop_on_error)
      as (s & Hs).
    exists s. split; [exact Hs | now apply uncapped_run].
  - intros k Hk.
    destruct (check_run_total spike_insns trace_insns k stop_on_error)
      as (s & Hs).
    exists s. split; [exact Hs | now apply capped_run with (2 := Hs)].
  - intros Hm.
    assert (Hm2 : matched_pairs 2 spike_insns trace_insns).
    { intros i Hi. apply Hm. lia. }
    destruct (cap_one_run spike_insns trace_insns stop_on_error Hm2)
      as (H1 & H2 & H3 & H4 & H5 & H6).
    eexists. split; [exact H1|]. auto.
Qed.

(** The theorem on Example 4. *)
Lemma cap_semantics_witness :
  matched_pairs 5 spike_five trace_five /\
  exists s, check_run spike_five trace_five 1 false = Some s /\
            checked s = 1%nat.
Proof.
  assert (H : matched_pairs 5 spike_five trace_five).
  { intros i Hi.
    destruct i as [|[|[|[|[|i]]]]];
      [eexists _, _; repeat split; reflexivity .. | exfalso; lia]. }
  split; [exact H|].
  destruct (cap_semantics spike_five trace_five false) as (_ & _ & Hex).
  destruct (Hex H) as (s & Hs & Hc & _).
  exists s. split; [exact Hs | exact Hc].
Defined.

(** C6 as stated fails: with [max_insns = 0] and stop-on-error set, this run
    ends at the error of its first pair with neither sequence used up. *)
Lemma uncapped_run_ends_early :
  exists s,
    check_run spike_jump_load trace_not_taken_no_load 0 true = Some s /\
    (si s < length spike_jump_load)%nat /\
    (ti s < length trace_not_taken_no_load)%nat /\
    ~ exhausted spike_jump_load trace_not_taken_no_load s.
Proof.
  eexists. split; [reflexivity|]. simpl.
  repeat split; try lia. unfold exhausted; simpl. intros [H | H]; discriminate.
Qed.

(** ** Round trip *)

Lemma spike_taken_inferred spike_insns i sp tr :
  spike_taken spike_insns i sp tr =
  inferred_taken (s_ip sp) (nth_error spike_insns (S i)).
Proof.
  unfold spike_taken, infer_branch, inferred_taken.
  destruct (nth_error spike_insns (S i)) as [nx|]; [|reflexivity].
  destruct (negb (s_ip nx =? s_ip sp + 4) && negb (s_ip nx =? s_ip sp + 2));
    [reflexivity|].
  destruct ((s_ip nx =? s_ip sp + 4) || (s_ip nx =? s_ip sp + 2));
    [|reflexivity].
  now destruct (truthy (is_branch tr) && truthy (branch_taken tr)).
Qed.

Lemma nonzero_slot_some (a : Z) (zeros : list Z) :
  a <> 0 -> nonzero (a :: zeros) = a :: nonzero zeros.
Proof.
  intros Ha. unfold nonzero. simpl. unfold truthy at 1.
  apply Z.eqb_neq in Ha. now rewrite Ha.
Qed.

Lemma mem_in_head (a : Z) (l : list Z) : mem_in a (a :: l) = true.
Proof. unfold mem_in. simpl. now rewrite Z.eqb_refl. Qed.

(** The load check is silent on a list filled from the reference's own
    load address. *)
Lemma src_diag_synthesized sp tr n :
  load_addr sp <> Some 0 ->
  src_mem tr = nonzero [slot (load_addr sp); 0; 0; 0] ->
  src_diag sp tr n = [].
Proof.
  intros Hl Hsrc. unfold src_diag. rewrite Hsrc.
  destruct (load_addr sp) as [a|]; simpl slot; [|reflexivity].
  rewrite nonzero_slot_some by congruence.
  rewrite mem_in_head. now destruct (is_mmio a).
Qed.

Lemma dst_diag_synthesized sp tr n :
  store_addr sp <> Some 0 ->
  dst_mem tr = nonzero [slot (store_addr sp); 0] ->
  dst_diag sp tr n = [].
Proof.
  intros Hl Hdst. unfold dst_diag. rewrite Hdst.
  destruct (store_addr sp) as [a|]; simpl slot; [|reflexivity].
  rewrite nonzero_slot_some by congruence.
  rewrite mem_in_head. now destruct (is_mmio a).
Qed.

(** A pair of a reference instruction and the entry written from it prints
    nothing. *)
Lemma synthesized_pair_clean sp tr taken n :
  load_addr sp <> Some 0 -> store_addr sp <> Some 0 ->
  (is_branch tr = 0 \/ branch_taken tr = taken) ->
  src_mem tr = nonzero [slot (load_addr sp); 0; 0; 0] ->
  dst_mem tr = nonzero [slot (store_addr sp); 0] ->
  pair_diags sp tr taken n = [].
Proof.
  intros Hl Hs Hb Hsrc Hdst. unfold pair_diags.
  rewrite src_diag_synthesized, dst_diag_synthesized by assumption.
  unfold branch_diag.
  destruct Hb as [-> | ->]; [reflexivity|].
  rewrite Z.eqb_refl. now rewrite andb_false_r.
Qed.

Lemma nth_error_synthesize spike_insns i :
  nth_error (synthesize spike_insns) i =
  option_map (fun sp => synth_insn sp (nth_error spike_insns (S i)))
             (nth_error spike_insns i).
Proof.
  revert i. induction spike_insns as [|sp rest IH]; intros [|i]; simpl;
    try reflexivity.
  apply IH.
Qed.

Lemma length_synthesize spike_insns :
  length (synthesize spike_insns) = length spike_insns.
Proof. induction spike_insns; simpl; congruence. Qed.

Lemma synthesize_synthesized spike_insns :
  synthesized_from spike_insns (synthesize spike_insns).
Proof.
  split; [apply length_synthesize|].
  intros i sp tr Hsp Htr. rewrite nth_error_synthesize, Hsp in Htr.
  simpl in Htr. injection Htr as <-. simpl. auto.
Qed.

(** C4.  Let no reference instruction touch address zero.  Then the trace
    [synthesize] writes from the reference is one written from it, and
    every trace written from the reference is checked without a line printed,
    an error or a warning: verdict PASS, exit code 0, under any cap and
    either setting of stop-on-error, and with every instruction checked when
    there is no cap. *)
Theorem round_trip
    (spike_insns : list SpikeInsn) (max_insns : Z) (stop_on_error : bool) :
  nonzero_addresses spike_insns ->
  synthesized_from spike_insns (synthesize spike_insns) /\
  forall trace_insns,
    synthesized_from spike_insns trace_insns ->
    exists s,
      check_run spike_insns trace_insns max_insns stop_on_error = Some s /\
      errors s = 0%nat /\ warnings s = 0%nat /\ out s = [] /\
      check spike_insns trace_insns max_insns stop_on_error = Some 0%nat /\
      verdict s = PASS /\ exit_code (errors s) = 0 /\
      (max_insns = 0 -> checked s = length spike_insns).
Proof.
  intros Hnz. split; [apply synthesize_synthesized|].
  intros trace_insns [Hlen Hsyn].
  destruct (check_run_total spike_insns trace_insns max_insns stop_on_error)
    as (s & Hs).
  exists s. split; [exact Hs|].
  set (P := fun s0 : State =>
    ti s0 = si s0 /\ checked s0 = si s0 /\
    (si s0 <= length spike_insns)%nat /\
    errors s0 = 0%nat /\ warnings s0 = 0%nat /\ out s0 = []).
  set (Q := fun s0 : State =>
    errors s0 = 0%nat /\ warnings s0 = 0%nat /\ out s0 = [] /\
    (max_insns = 0 -> checked s0 = length spike_insns)).
  assert (HQ : Q s).
  { unfold check_run in Hs.
    apply (loop_rule spike_insns trace_insns max_insns stop_on_error P Q
             _ _ _) with (4 := Hs).
    - intros s0 (Hti & Hch & Hle & He & Hw & Ho) Hr.
      destruct (in_range_lookup _ _ _ Hr) as (sp & tr & Hsp & Htr).
      destruct (cap_reached max_insns s0) eqn:Hcap.
      + rewrite cap_break by assumption. unfold Q. repeat split; auto.
        intros ->. discriminate.
      + assert (Htr' := Htr). rewrite Hti in Htr'.
        destruct (Hsyn _ _ _ Hsp Htr') as (Hip & Hbr & Hsrc & Hdst).
        destruct (Hnz sp (nth_error_In _ _ Hsp)) as [Hl Hst].
        rewrite (body_match _ _ _ _ _ _ _ Hsp Htr Hcap (eq_sym Hip)).
        assert (Hclean : pair_diags sp tr
                           (spike_taken spike_insns (si s0) sp tr)
                           (S (checked s0)) = []).
        { apply synthesized_pair_clean; auto.
          now rewrite spike_taken_inferred. }
        assert (Hlt : (si s0 < length spike_insns)%nat)
          by (apply nth_error_Some; congruence).
        destruct stop_on_error eqn:Es.
        * rewrite matched_stop, Hclean by reflexivity.
          unfold P; simpl. repeat split; auto; lia.
        * rewrite matched_all, Hclean by reflexivity.
          unfold P; simpl. rewrite app_nil_r. repeat split; auto; lia.
    - intros s0 (Hti & Hch & Hle & He & Hw & Ho) Hr.
      unfold Q. repeat split; auto. intros _.
      unfold in_range, n_spike, n_trace in Hr.
      apply andb_false_iff in Hr. rewrite !Nat.ltb_ge in Hr. lia.
    - unfold P, init; simpl. repeat split; auto; lia. }
  destruct HQ as (He & Hw & Ho & Hc).
  repeat split; auto.
  - unfold check. now rewrite Hs, <- He.
  - unfold verdict. now rewrite He.
  - now rewrite He.
Qed.

(** The theorem on a reference with a jump, a load, a store and an MMIO
    store. *)
Lemma round_trip_witness :
  nonzero_addresses spike_mixed /\
  check spike_mixed (synthesize spike_mixed) 0 false = Some 0%nat.
Proof.
  assert (H : nonzero_addresses spike_mixed).
  { intros r Hin. simpl in Hin.
    repeat (destruct Hin as [<- | Hin]; [split; discriminate|]).
    destruct Hin. }
  split; [exact H|].
  destruct (round_trip spike_mixed 0 false H) as (Hsyn & Hall).
  destruct (Hall _ Hsyn) as (s & _ & _ & _ & _ & Hc & _).
  exact Hc.
Defined.

(** ** The matcher against the language *)

Lemma drop_prefix_sound t s rest :
  drop_prefix t s = Some rest -> s = (t ++ rest)%string.
Proof.
  revert s. induction t as [|a t IH]; intros s H; simpl in *.
  - now injection H as <-.
  - destruct s as [|b s]; [discriminate|].
    destruct (Ascii.eqb a b) eqn:E; [|discriminate].
    apply Ascii.eqb_eq in E. subst b. f_equal. now apply IH.
Qed.

Lemma many0_sound p s w rest :
  In (w, rest) (many0 p s) ->
  s = (w ++ rest)%string /\ all_chars p w = true.
Proof.
  revert w rest. induction s as [|c s IH]; intros w rest H; simpl in H.
  - destruct H as [H | []]. injection H as <- <-. now split.
  - destruct (p c) eqn:Hp.
    + apply in_app_or in H as [H | [H | []]].
      * apply in_map_iff in H as ([w0 r0] & Heq & Hin).
        simpl in Heq. injection Heq as <- <-.
        destruct (IH _ _ Hin) as [-> Hall]. simpl. now rewrite Hp.
      * injection H as <- <-. now split.
    + destruct H as [H | []]. injection H as <- <-. now split.
Qed.

Lemma many1_sound p s w rest :
  In (w, rest) (many1 p s) ->
  s = (w ++ rest)%string /\ w <> EmptyString /\ all_chars p w = true.
Proof.
  destruct s as [|c s]; simpl; [intros []|].
  destruct (p c) eqn:Hp; [|intros []].
  intros H. apply in_map_iff in H as ([w0 r0] & Heq & Hin).
  simpl in Heq. injection Heq as <- <-.
  destruct (many0_sound _ _ _ _ Hin) as [-> Hall].
  simpl. rewrite Hp. repeat split; [discriminate | exact Hall].
Qed.

Lemma string_app_assoc (a b c : string) :
  ((a ++ b) ++ c)%string = (a ++ (b ++ c))%string.
Proof. induction a as [|x a IH]; simpl; [reflexivity | now rewrite IH]. Qed.

(** Every way the matcher finds splits the input into a text of the
    language and the rest. *)
Lemma rmatch_sound r : forall s m w rest m',
  In (w, rest, m') (rmatch r s m) ->
  s = (w ++ rest)%string /\ lang r w.
Proof.
  induction r as [t | p | p | p | r1 IH1 r2 IH2 | r1 IH1 | n r1 IH1];
    intros s m w rest m' H; simpl in H.
  - destruct (drop_prefix t s) as [rest0|] eqn:E; [|destruct H].
    destruct H as [H | []]. injection H as <- <- <-.
    split; [now apply drop_prefix_sound | reflexivity].
  - destruct s as [|c s]; [destruct H|].
    destruct (p c) eqn:Hp; [|destruct H].
    destruct H as [H | []]. injection H as <- <- <-.
    split; [reflexivity | now exists c].
  - apply in_map_iff in H as ([w0 r0] & Heq & Hin).
    simpl in Heq. injection Heq as <- <- <-.
    destruct (many1_sound _ _ _ _ Hin) as (-> & Hne & Hall).
    now repeat split.
  - apply in_map_iff in H as ([w0 r0] & Heq & Hin).
    simpl in Heq. injection Heq as <- <- <-.
    destruct (many0_sound _ _ _ _ Hin) as (-> & Hall).
    now split.
  - apply in_flat_map in H as ([[w1 rest1] m1] & H1 & H2).
    apply in_map_iff in H2 as ([[w2 rest2] m2] & Heq & H2).
    injection Heq as <- <- <-.
    destruct (IH1 _ _ _ _ _ H1) as [-> L1].
    destruct (IH2 _ _ _ _ _ H2) as [-> L2].
    split; [now rewrite string_app_assoc|].
    simpl. now exists w1, w2.
  - apply in_app_or in H as [H | [H | []]].
    + destruct (IH1 _ _ _ _ _ H) as [-> L]. split; [reflexivity | now right].
    + injection H as <- <- <-. split; [reflexivity | now left].
  - apply in_map_iff in H as ([[w1 rest1] m1] & Heq & H).
    injection Heq as <- <- <-.
    destruct (IH1 _ _ _ _ _ H) as [-> L]. now split.
Qed.

(** What a group holds after a match was there before, or is a text of a
    group with that number. *)
Lemma rmatch_groups r : forall s m w rest m',
  In (w, rest, m') (rmatch r s m) ->
  forall n t, m' n = Some t ->
    m n = Some t \/ exists r', group_in n r' r /\ lang r' t.
Proof.
  induction r as [t0 | p | p | p | r1 IH1 r2 IH2 | r1 IH1 | k r1 IH1];
    intros s m w rest m' H n t Hn; simpl in H.
  - destruct (drop_prefix t0 s); [|destruct H].
    destruct H as [H | []]. injection H as <- <- <-. now left.
  - destruct s as [|c s]; [destruct H|].
    destruct (p c); [|destruct H].
    destruct H as [H | []]. injection H as <- <- <-. now left.
  - apply in_map_iff in H as ([w0 r0] & Heq & _).
    injection Heq as <- <- <-. now left.
  - apply in_map_iff in H as ([w0 r0] & Heq & _).
    injection Heq as <- <- <-. now left.
  - apply in_flat_map in H as ([[w1 rest1] m1] & H1 & H2).
    apply in_map_iff in H2 as ([[w2 rest2] m2] & Heq & H2).
    injection Heq as <- <- <-.
    destruct (IH2 _ _ _ _ _ H2 n t Hn) as [Hm1 | (r' & Hg & Hl)].
    + destruct (IH1 _ _ _ _ _ H1 n t Hm1) as [Hm | (r' & Hg & Hl)].
      * now left.
      * right. exists r'. simpl. auto.
    + right. exists r'. simpl. auto.
  - apply in_app_or in H as [H | [H | []]].
    + destruct (IH1 _ _ _ _ _ H n t Hn) as [Hm | (r' & Hg & Hl)].
      * now left.
      * right. exists r'. simpl. auto.
    + injection H as <- <- <-. now left.
  - apply in_map_iff in H as ([[w1 rest1] m1] & Heq & H).
    injection Heq as <- <- <-.
    unfold set_group in Hn. destruct (n =? k)%nat eqn:E.
    + injection Hn as <-. apply Nat.eqb_eq in E. subst n.
      right. exists r1. split; [simpl; now left|].
      now destruct (rmatch_sound _ _ _ _ _ _ H).
    + destruct (IH1 _ _ _ _ _ H n t Hn) as [Hm | (r' & Hg & Hl)].
      * now left.
      * right. exists r'. simpl. auto.
Qed.

(** A match never empties a group, and fills every group outside the
    optional parts. *)
Lemma rmatch_keeps r : forall s m w rest m' n,
  In (w, rest, m') (rmatch r s m) ->
  m n <> None -> m' n <> None.
Proof.
  induction r as [t0 | p | p | p | r1 IH1 r2 IH2 | r1 IH1 | k r1 IH1];
    intros s m w rest m' n H Hn; simpl in H.
  - destruct (drop_prefix t0 s); [|destruct H].
    destruct H as [H | []]. now injection H as <- <- <-.
  - destruct s as [|c s]; [destruct H|].
    destruct (p c); [|destruct H].
    destruct H as [H | []]. now injection H as <- <- <-.
  - apply in_map_iff in H as ([w0 r0] & Heq & _).
    now injection Heq as <- <- <-.
  - apply in_map_iff in H as ([w0 r0] & Heq & _).
    now injection Heq as <- <- <-.
  - apply in_flat_map in H as ([[w1 rest1] m1] & H1 & H2).
    apply in_map_iff in H2 as ([[w2 rest2] m2] & Heq & H2).
    injection Heq as <- <- <-. eauto.
  - apply in_app_or in H as [H | [H | []]]; [eauto|].
    now injection H as <- <- <-.
  - apply in_map_iff in H as ([[w1 rest1] m1] & Heq & H).
    injection Heq as <- <- <-.
    unfold set_group. destruct (n =? k)%nat; [discriminate | eauto].
Qed.

Lemma rmatch_sets r : forall s m w rest m' n,
  In (w, rest, m') (rmatch r s m) ->
  always_set n r = true -> m' n <> None.
Proof.
  induction r as [t0 | p | p | p | r1 IH1 r2 IH2 | r1 IH1 | k r1 IH1];
    intros s m w rest m' n H Hn; simpl in H, Hn; try discriminate.
  - apply in_flat_map in H as ([[w1 rest1] m1] & H1 & H2).
    apply in_map_iff in H2 as ([[w2 rest2] m2] & Heq & H2).
    injection Heq as <- <- <-.
    destruct (always_set n r2) eqn:E2; [eauto|].
    rewrite orb_false_r in Hn.
    eapply rmatch_keeps; [exact H2 | eauto].
  - apply in_map_iff in H as ([[w1 rest1] m1] & Heq & H).
    injection Heq as <- <- <-.
    unfold set_group. destruct (k =? n)%nat eqn:E.
    + apply Nat.eqb_eq in E. subst k. rewrite Nat.eqb_refl. discriminate.
    + simpl in Hn. rewrite Nat.eqb_sym, E. eauto.
Qed.

(** What [re_match] and [re_search] report is one of the ways found, from
    no groups, at some position of the text. *)
Lemma re_match_in r s m :
  re_match r s = Some m ->
  exists w rest, In (w, rest, m) (rmatch r s no_captures).
Proof.
  unfold re_match. destruct (rmatch r s no_captures) as [|[[w rest] m0] l];
    [discriminate|].
  intros H. injection H as <-. exists w, rest. now left.
Qed.

Lemma re_search_in r s m :
  re_search r s = Some m ->
  exists s' w rest, In (w, rest, m) (rmatch r s' no_captures).
Proof.
  induction s as [|c s IH]; simpl.
  - destruct (re_match r EmptyString) as [m0|] eqn:E; [|discriminate].
    intros H. injection H as <-.
    destruct (re_match_in _ _ _ E) as (w & rest & Hin). eauto.
  - destruct (re_match r (String c s)) as [m0|] eqn:E.
    + intros H. injection H as <-.
      destruct (re_match_in _ _ _ E) as (w & rest & Hin). eauto.
    + exact IH.
Qed.

(** A group that always takes part holds, after a match from no groups, a
    text of a group with its number. *)
Lemma group_text r s w rest m n :
  In (w, rest, m) (rmatch r s no_captures) ->
  always_set n r = true ->
  exists t r', m n = Some t /\ group_in n r' r /\ lang r' t.
Proof.
  intros Hin Hset.
  destruct (m n) as [t|] eqn:E.
  - destruct (rmatch_groups _ _ _ _ _ _ Hin n t E) as [H | (r' & Hg & Hl)];
      [discriminate|].
    now exists t, r'.
  - now apply (rmatch_sets _ _ _ _ _ _ n Hin) in Hset.
Qed.

(** [int()] accepts what the grammars let through. *)
Lemma int16_hex_literal t :
  lang hex_literal t -> exists v, int16 (Some t) = Ok v.
Proof.
  simpl. intros (w1 & w2 & -> & -> & Hne & Hall). simpl.
  destruct w2 as [|c w2]; [congruence|].
  rewrite Hall. eauto.
Qed.

Lemma int10_digit t :
  lang (Class is_digit) t -> exists v, int10 (Some t) = Ok v.
Proof.
  simpl. intros (c & -> & Hc). simpl. rewrite Hc. simpl. eauto.
Qed.

(** ** The parsers never raise *)

Ltac group_of Hin n :=
  let t := fresh "t" in
  let r' := fresh "r" in
  let Hm := fresh "Hm" in
  let Hg := fresh "Hg" in
  let Hl := fresh "Hl" in
  destruct (group_text _ _ _ _ _ n Hin eq_refl) as (t & r' & Hm & Hg & Hl);
  cbv [SPIKE_RE MEM_RE DEBUG_RE hex_literal seq group_in] in Hg;
  decompose [or and] Hg; clear Hg; try lia; try contradiction;
  subst r'; rewrite Hm.

Ltac int16_ok Hl :=
  let v := fresh "v" in
  let Hv := fresh "Hv" in
  destruct (int16_hex_literal _ Hl) as (v & Hv); rewrite Hv; simpl bind.

Ltac int10_ok Hl :=
  let v := fresh "v" in
  let Hv := fresh "Hv" in
  destruct (int10_digit _ Hl) as (v & Hv); rewrite Hv; simpl bind.

Lemma parse_spike_line_ok line :
  exists r, parse_spike_line line = Ok r.
Proof.
  unfold parse_spike_line.
  destruct (re_match SPIKE_RE (strip line)) as [m|] eqn:E; [|eauto].
  destruct (re_match_in _ _ _ E) as (w & rest & Hin).
  group_of Hin 1%nat. int16_ok Hl.
  group_of Hin 2%nat.
  destruct (re_search MEM_RE t0) as [mm|] eqn:Es; [|eauto].
  destruct (re_search_in _ _ _ Es) as (s' & w' & rest' & Hin').
  group_of Hin' 1%nat. int16_ok Hl1.
  destruct (mm 2%nat); eauto.
Qed.

Lemma parse_debug_line_ok line :
  exists r, parse_debug_line line = Ok r.
Proof.
  unfold parse_debug_line.
  destruct (startswith "#" line); [eauto|].
  destruct (re_match DEBUG_RE (strip line)) as [m|] eqn:E; [|eauto].
  destruct (re_match_in _ _ _ E) as (w & rest & Hin).
  group_of Hin 1%nat. int16_ok Hl.
  group_of Hin 2%nat. int10_ok Hl0.
  group_of Hin 3%nat. int10_ok Hl1.
  group_of Hin 10%nat. int16_ok Hl2.
  group_of Hin 11%nat. int16_ok Hl3.
  group_of Hin 12%nat. int16_ok Hl4.
  group_of Hin 13%nat. int16_ok Hl5.
  group_of Hin 14%nat. int16_ok Hl6.
  group_of Hin 15%nat. int16_ok Hl7.
  eauto.
Qed.

Lemma parse_lines_kept {A} (parse_line : string -> result (option A)) :
  (forall line, exists r, parse_line line = Ok r) ->
  forall lines insns,
    parse_lines parse_line lines insns
    = Ok (insns ++ flat_map (kept parse_line) lines).
Proof.
  intros Hok. induction lines as [|line lines IH]; intros insns; simpl.
  - now rewrite app_nil_r.
  - unfold kept at 1. destruct (Hok line) as (r & ->). simpl.
    rewrite IH. destruct r; [now rewrite <- app_assoc | reflexivity].
Qed.

Lemma parse_spike_kept lines :
  parse_spike lines = Ok (flat_map (kept parse_spike_line) lines).
Proof. apply (parse_lines_kept _ parse_spike_line_ok). Qed.

Lemma parse_debug_kept lines :
  parse_debug lines = Ok (flat_map (kept parse_debug_line) lines).
Proof. apply (parse_lines_kept _ parse_debug_line_ok). Qed.

Lemma fails_spike_dropped line :
  fails_spike line -> parse_spike_line line = Ok None.
Proof. unfold fails_spike, parse_spike_line. now intros ->. Qed.

Lemma fails_debug_dropped line :
  fails_debug line -> parse_debug_line line = Ok None.
Proof.
  unfold fails_debug, parse_debug_line.
  destruct (startswith "#" line); [reflexivity|].
  intros [H | ->]; [discriminate | reflexivity].
Qed.

Lemma flat_map_nil {A B} (f : A -> list B) (l : list A) :
  Forall (fun x => f x = []) l -> flat_map f l = [].
Proof. induction 1 as [|x l Hx _ IH]; simpl; [reflexivity | now rewrite Hx]. Qed.

Lemma all_fail_spike lines :
  Forall fails_spike lines -> parse_spike lines = Ok [].
Proof.
  intros H. rewrite parse_spike_kept. f_equal. apply flat_map_nil.
  eapply Forall_impl; [|exact H].
  intros line Hl. unfold kept. now rewrite fails_spike_dropped.
Qed.

Lemma all_fail_debug lines :
  Forall fails_debug lines -> parse_debug lines = Ok [].
Proof.
  intros H. rewrite parse_debug_kept. f_equal. apply flat_map_nil.
  eapply Forall_impl; [|exact H].
  intros line Hl. unfold kept. now rewrite fails_debug_dropped.
Qed.

(** With nothing on one side the loop is not entered. *)
Lemma check_run_no_spike trace_insns max_insns stop_on_error :
  check_run [] trace_insns max_insns stop_on_error = Some init.
Proof. unfold check_run. now apply loop_exit. Qed.

Lemma check_run_no_trace spike_insns max_insns stop_on_error :
  check_run spike_insns [] max_insns stop_on_error = Some init.
Proof.
  unfold check_run. apply loop_exit. unfold in_range. apply andb_false_r.
Qed.

(** ** Parse leniency *)

(** C9.  Neither parser ever raises: each returns the instructions of the
    lines that match its grammar, in order, and a line that fails the grammar
    adds nothing.  So an input of which every line fails (an empty one
    included) parses to the empty sequence; and when either input is such,
    the program runs to its end with nothing checked, no line printed, no
    error, verdict PASS and exit code 0.  The program returns on every pair
    of inputs. *)
Theorem parse_leniency :
  (forall lines,
     parse_spike lines = Ok (flat_map (kept parse_spike_line) lines)) /\
  (forall lines,
     parse_debug lines = Ok (flat_map (kept parse_debug_line) lines)) /\
  (forall line, fails_spike line -> kept parse_spike_line line = []) /\
  (forall line, fails_debug line -> kept parse_debug_line line = []) /\
  (forall lines, Forall fails_spike lines -> parse_spike lines = Ok []) /\
  (forall lines, Forall fails_debug lines -> parse_debug lines = Ok []) /\
  (forall spike_log debug_trace max_insns stop_on_error,
     exists r,
       main spike_log debug_trace max_insns stop_on_error = Ok (Some r)) /\
  (forall spike_log debug_trace max_insns stop_on_error,
     Forall fails_spike spike_log \/ Forall fails_debug debug_trace ->
     exists r,
       main spike_log debug_trace max_insns stop_on_error = Ok (Some r) /\
       sum_checked (run_summary r) = 0%nat /\
       sum_errors (run_summary r) = 0%nat /\
       sum_result (run_summary r) = PASS /\
       run_lines r = [] /\ run_exit r = 0).
Proof.
  repeat apply conj.
  - apply parse_spike_kept.
  - apply parse_debug_kept.
  - intros line H. unfold kept. now rewrite fails_spike_dropped.
  - intros line H. unfold kept. now rewrite fails_debug_dropped.
  - apply all_fail_spike.
  - apply all_fail_debug.
  - intros spike_log debug_trace max_insns stop_on_error. unfold main.
    rewrite parse_spike_kept, parse_debug_kept. simpl.
    destruct (check_run_total (flat_map (kept parse_spike_line) spike_log)
                (flat_map (kept parse_debug_line) debug_trace)
                max_insns stop_on_error) as (s & ->).
    simpl. eauto.
  - intros spike_log debug_trace max_insns stop_on_error [H | H]; unfold main.
    + rewrite (all_fail_spike _ H), parse_debug_kept. simpl.
      rewrite check_run_no_spike. simpl. eexists. split; [reflexivity|].
      repeat split.
    + rewrite parse_spike_kept, (all_fail_debug _ H). simpl.
      rewrite check_run_no_trace. simpl. eexists. split; [reflexivity|].
      repeat split.
Qed.

(** The theorem on a reference log of lines no grammar takes, against an
    empty trace file. *)
Lemma parse_leniency_witness :
  Forall fails_spike noise /\
  exists r, main noise [] 0 false = Ok (Some r) /\
            sum_checked (run_summary r) = 0%nat /\ run_exit r = 0.
Proof.
  assert (H : Forall fails_spike noise)
    by (repeat constructor).
  split; [exact H|].
  destruct parse_leniency as (_ & _ & _ & _ & _ & _ & _ & Hrun).
  destruct (Hrun noise [] 0 false (or_introl H))
    as (r & Hr & Hc & _ & _ & _ & He).
  exists r. auto.
Defined.

(** ** One address per reference instruction *)

Lemma parse_spike_line_one_address line i :
  parse_spike_line line = Ok (Some i) ->
  load_addr i = None \/ store_addr i = None.
Proof.
  unfold parse_spike_line.
  destruct (re_match SPIKE_RE (strip line)) as [m|]; [|discriminate].
  destruct (int16 (m 1%nat)) as [ip|]; [|discriminate]. simpl.
  destruct (m 2%nat) as [rest|]; [|discriminate].
  destruct (re_search MEM_RE rest) as [mm|].
  - destruct (int16 (mm 1%nat)) as [addr|]; [|discriminate]. simpl.
    destruct (mm 2%nat); intros H; injection H as <-; simpl; auto.
  - intros H; injection H as <-; simpl; auto.
Qed.

(** C10.  Every instruction [parse_spike] returns has a load address or a
    store address or neither, never both.  Of two [mem] clauses on a line
    only the first is read: a load followed by a store gives the load, a
    store followed by a load gives the store.  So against no trace entry does
    a parsed reference instruction make both the load check and the store
    check look for an address of its own. *)
Theorem reference_one_address :
  (forall lines insns,
     parse_spike lines = Ok insns ->
     forall i, In i insns -> load_addr i = None \/ store_addr i = None) /\
  parse_spike_line line_load_first
    = Ok (Some (mkSpikeInsn 0x80000008 (Some 0x10) None)) /\
  parse_spike_line line_store_first
    = Ok (Some (mkSpikeInsn 0x80000008 None (Some 0x10))) /\
  (forall lines insns,
     parse_spike lines = Ok insns ->
     forall i tr n a b, In i insns ->
       ~ (src_diag i tr n = [SrcMemMissing n (s_ip i) a (src_mem tr)] /\
          dst_diag i tr n = [DstMemMissing n (s_ip i) b (dst_mem tr)])).
Proof.
  assert (Hone : forall lines insns,
            parse_spike lines = Ok insns ->
            forall i, In i insns -> load_addr i = None \/ store_addr i = None).
  { intros lines insns Hp i Hin.
    rewrite parse_spike_kept in Hp. injection Hp as <-.
    apply in_flat_map in Hin as (line & _ & Hk). unfold kept in Hk.
    destruct (parse_spike_line line) as [[j|]|] eqn:E;
      [|destruct Hk|destruct Hk].
    destruct Hk as [<- | []]. eapply parse_spike_line_one_address, E. }
  repeat apply conj.
  - exact Hone.
  - vm_compute. reflexivity.
  - vm_compute. reflexivity.
  - intros lines insns Hp i tr n a b Hin [Hs Hd].
    unfold src_diag, dst_diag in *.
    destruct (Hone _ _ Hp i Hin) as [H | H]; rewrite H in *.
    + destruct (nonempty (src_mem tr)); discriminate.
    + destruct (nonempty (dst_mem tr)); discriminate.
Qed.

(** The theorem on a log of the two sample lines. *)
Lemma reference_one_address_witness :
  parse_spike [line_load_first; line_store_first]
    = Ok [mkSpikeInsn 0x80000008 (Some 0x10) None;
          mkSpikeInsn 0x80000008 None (Some 0x10)] /\
  (load_addr (mkSpikeInsn 0x80000008 (Some 0x10) None) = None \/
   store_addr (mkSpikeInsn 0x80000008 (Some 0x10) None) = None).
Proof.
  assert (H : parse_spike [line_load_first; line_store_first]
              = Ok [mkSpikeInsn 0x80000008 (Some 0x10) None;
                    mkSpikeInsn 0x80000008 None (Some 0x10)])
    by (vm_compute; reflexivity).
  split; [exact H|].
  destruct reference_one_address as (Hone & _).
  apply (Hone _ _ H). now left.
Defined.

(** Address zero is what the round trip cannot carry: the slot written from
    a load at 0 reads back as unused, and the load is reported missing. *)
Lemma round_trip_loses_address_zero :
  check [mkSpikeInsn 0x100 (Some 0) None]
        (synthesize [mkSpikeInsn 0x100 (Some 0) None]) 0 false = Some 1%nat.
Proof. reflexivity. Qed.

(** A negative cap is reached before the first pass. *)
Lemma negative_cap_checks_nothing spike_insns trace_insns stop_on_error :
  check_run spike_insns trace_insns (-1) stop_on_error = Some init.
Proof.
  unfold check_run.
  destruct (in_range spike_insns trace_insns init) eqn:Hr.
  - destruct (in_range_lookup _ _ _ Hr) as (sp & tr & _ & Htr).
    destruct trace_insns as [|c l]; [discriminate|].
    unfold n_trace. simpl length. rewrite loop_step by exact Hr.
    now rewrite cap_break by reflexivity.
  - now apply loop_exit.
Qed.

(** ** Verdict and exit code *)




(** ** The examples of the specification *)

(** Example 1: a load the trace reports. *)
Example example_load_reported :
  check_run spike_load [mkTraceInsn 0x100 0 0 [] [0x2000]] 0 false
    = Some (mkState 1 1 1 0 0 []) /\
  exit_code 0 = 0.
Proof. split; reflexivity. Qed.

(** Example 3: a load the trace does not report. *)
Example example_load_missing :
  check_run spike_load trace_no_load 0 false
    = Some (mkState 1 1 1 1 0 [SrcMemMissing 1 0x100 0x2000 []]) /\
  exit_code 1 = 1.
Proof. split; reflexivity. Qed.

(** A load from the UART, which the trace cannot see, is not looked for. *)
Example example_mmio_load :
  check_run [mkSpikeInsn 0x100 (Some 0x10000005) None] trace_no_load 0 false
    = Some (mkState 1 1 1 0 0 []).
Proof. reflexivity. Qed.

(** The two parsers and the loop together, on two lines each. *)
Example example_main :
  main ["core   0: 3 0x80000000 (0x00000297) x5  0x80000000";
        "core   0: 3 0x80000004 (0x0002a303) x6  0x00000001 mem 0x80001000"]%string
       ["ip=0x80000000 branch=0 taken=0 dst_regs=[5,0] src_regs=[0,0,0,0] dst_mem=[0x0,0x0] src_mem=[0x0,0x0,0x0,0x0]";
        "ip=0x80000004 branch=0 taken=0 dst_regs=[6,0] src_regs=[5,0,0,0] dst_mem=[0x0,0x0] src_mem=[0x80001000,0x0,0x0,0x0]"]%string
       0 false
  = Ok (Some (mkRun [] (mkSummary 2 0 0 PASS) 0)).
Proof. vm_compute. reflexivity. Qed.

(** * Further properties of the checking loop *)

(** ** Counters, cursors and output *)

Lemma error_lines_app ds1 ds2 :
  error_lines (ds1 ++ ds2) = (error_lines ds1 + error_lines ds2)%nat.
Proof. unfold error_lines. now rewrite filter_app, length_app. Qed.

Lemma all_errors_counts ds :
  (forall d, In d ds -> is_error d = true) ->
  error_lines ds = length ds /\ count_kind SYNC ds = 0%nat.
Proof.
  induction ds as [|d ds IH]; intros H; [now split|].
  destruct IH as [IH1 IH2]; [intros; apply H; now right|].
  pose proof (H d (or_introl eq_refl)) as Hd.
  unfold error_lines in *. simpl. rewrite Hd. simpl.
  unfold is_error in Hd. apply negb_true_iff in Hd. rewrite Hd.
  split; [now rewrite IH1 | exact IH2].
Qed.

Lemma pair_diags_counts sp tr taken n :
  error_lines (pair_diags sp tr taken n) = length (pair_diags sp tr taken n)
  /\ count_kind SYNC (pair_diags sp tr taken n) = 0%nat.
Proof. apply all_errors_counts. intros d. apply pair_diags_errors. Qed.

Lemma pair_diags_length sp tr taken n :
  (length (pair_diags sp tr taken n) <= 3)%nat.
Proof.
  unfold pair_diags, branch_diag, src_diag, dst_diag.
  destruct (truthy (is_branch tr) && negb (branch_taken tr =? taken));
    pair_cases sp tr; simpl; lia.
Qed.

(** Every way a pass can end, in one case analysis: the cap, a skipped
    trace entry, a pair gone through, a pair left at its first error. *)
Lemma body_cases spike_insns trace_insns max_insns stop_on_error s :
  in_range spike_insns trace_insns s = true ->
  exists sp tr,
    nth_error spike_insns (si s) = Some sp /\
    nth_error trace_insns (ti s) = Some tr /\
    let pass := body spike_insns trace_insns max_insns stop_on_error s in
    let ds := pair_diags sp tr (spike_taken spike_insns (si s) sp tr)
                         (S (checked s)) in
    (cap_reached max_insns s = true /\ pass = Break s) \/
    (cap_reached max_insns s = false /\ s_ip sp <> t_ip tr /\
     pass = Continue (resync sp tr s)) \/
    (cap_reached max_insns s = false /\ s_ip sp = t_ip tr /\
     (stop_on_error = false \/ ds = []) /\
     pass = Continue (mkState (S (si s)) (S (ti s)) (S (checked s))
                              (errors s + length ds) (warnings s)
                              (out s ++ ds))) \/
    (cap_reached max_insns s = false /\ s_ip sp = t_ip tr /\
     stop_on_error = true /\
     exists d rest, ds = d :: rest /\
       pass = Break (mkState (si s) (ti s) (S (checked s)) (S (errors s))
                             (warnings s) (out s ++ [d]))).
Proof.
  intros Hr. destruct (in_range_lookup _ _ _ Hr) as (sp & tr & Hsp & Htr).
  exists sp, tr. split; [exact Hsp|]. split; [exact Htr|]. cbv zeta.
  destruct (cap_reached max_insns s) eqn:Hcap.
  { left. split; [reflexivity | now apply cap_break]. }
  destruct (Z.eq_dec (s_ip sp) (t_ip tr)) as [Heq | Hne].
  - rewrite (body_match _ _ _ _ _ _ _ Hsp Htr Hcap Heq).
    destruct stop_on_error eqn:Es.
    + rewrite matched_stop by reflexivity.
      destruct (pair_diags _ _ _ _) as [|d rest].
      * right. right. left. repeat split; auto. simpl.
        now rewrite Nat.add_0_r, app_nil_r.
      * right. right. right. repeat split; auto. now exists d, rest.
    + rewrite matched_all by reflexivity.
      right. right. left. repeat split; auto.
  - right. left. repeat split; auto. now apply body_mismatch.
Qed.

(** X1.  The counters of a run are the counts of what it printed: [warnings]
    is the number of SYNC lines, [errors], which [check] returns, the number
    of error lines, and nothing else is printed. *)
Theorem counters_count_lines
    (spike_insns : list SpikeInsn) (trace_insns : list TraceInsn)
    (max_insns : Z) (stop_on_error : bool) :
  exists s,
    check_run spike_insns trace_insns max_insns stop_on_error = Some s /\
    warnings s = count_kind SYNC (out s) /\
    errors s = error_lines (out s) /\
    length (out s) = (warnings s + errors s)%nat /\
    check spike_insns trace_insns max_insns stop_on_error
      = Some (error_lines (out s)).
Proof.
  destruct (check_run_total spike_insns trace_insns max_insns stop_on_error)
    as (s & Hs).
  exists s. split; [exact Hs|].
  set (P := fun s0 : State =>
    warnings s0 = count_kind SYNC (out s0) /\
    errors s0 = error_lines (out s0) /\
    length (out s0) = (warnings s0 + errors s0)%nat).
  assert (HP : P s).
  { unfold check_run in Hs.
    apply (loop_rule spike_insns trace_insns max_insns stop_on_error P P
             _ _ _) with (4 := Hs).
    - intros s0 (Hw & He & Hl) Hr.
      destruct (body_cases _ _ max_insns stop_on_error _ Hr)
        as (sp & tr & _ & _ & Hc). cbv zeta in Hc.
      destruct (pair_diags_counts sp tr
                  (spike_taken spike_insns (si s0) sp tr) (S (checked s0)))
        as [Hpe Hps].
      destruct Hc as [(_ & ->) | [(_ & _ & ->) | [(_ & _ & _ & ->)
                     | (_ & _ & _ & d & rest & Hd & ->)]]]; unfold P; simpl.
      + auto.
      + rewrite count_kind_app, error_lines_app, length_app. simpl.
        unfold error_lines at 2. simpl. lia.
      + rewrite count_kind_app, error_lines_app, length_app. lia.
      + rewrite Hd in Hpe, Hps.
        rewrite count_kind_app, error_lines_app, length_app.
        assert (Hde : is_error d = true).
        { eapply pair_diags_errors. rewrite Hd. now left. }
        unfold error_lines at 2. simpl. rewrite Hde. simpl.
        unfold is_error in Hde. apply negb_true_iff in Hde. rewrite Hde.
        lia.
    - auto.
    - unfold P; simpl. auto. }
  destruct HP as (Hw & He & Hl). repeat split; auto.
  unfold check. now rewrite Hs, <- He.
Qed.

(** X2.  At the end of a run the trace cursor is the reference cursor plus
    the warnings; neither cursor is past its sequence; [checked] is the
    reference cursor, or one more when stop-on-error left the loop inside a
    pair; there are at most three errors for each instruction checked, and
    no more instructions checked than either sequence has. *)
Theorem cursor_accounting
    (spike_insns : list SpikeInsn) (trace_insns : list TraceInsn)
    (max_insns : Z) (stop_on_error : bool) :
  exists s,
    check_run spike_insns trace_insns max_insns stop_on_error = Some s /\
    ti s = (si s + warnings s)%nat /\
    (si s <= length spike_insns)%nat /\
    (ti s <= length trace_insns)%nat /\
    (checked s = si s \/
     (checked s = S (si s) /\ stop_on_error = true /\ (0 < errors s)%nat)) /\
    (errors s <= 3 * checked s)%nat /\
    (checked s <= length spike_insns)%nat /\
    (checked s <= length trace_insns)%nat.
Proof.
  destruct (check_run_total spike_insns trace_insns max_insns stop_on_error)
    as (s & Hs).
  exists s. split; [exact Hs|].
  set (P := fun s0 : State =>
    ti s0 = (si s0 + warnings s0)%nat /\
    (si s0 <= length spike_insns)%nat /\
    (ti s0 <= length trace_insns)%nat /\
    checked s0 = si s0 /\ (errors s0 <= 3 * checked s0)%nat).
  set (Q := fun s0 : State =>
    ti s0 = (si s0 + warnings s0)%nat /\
    (si s0 <= length spike_insns)%nat /\
    (ti s0 <= length trace_insns)%nat /\
    (checked s0 = si s0 \/
     (checked s0 = S (si s0) /\ stop_on_error = true /\
      (0 < errors s0)%nat)) /\
    (errors s0 <= 3 * checked s0)%nat /\
    (checked s0 <= length spike_insns)%nat /\
    (checked s0 <= length trace_insns)%nat).
  unfold check_run in Hs.
  apply (loop_rule spike_insns trace_insns max_insns stop_on_error P Q
           _ _ _) with (4 := Hs).
  - intros s0 (Ht & Hsn & Htn & Hc & He) Hr.
    destruct (body_cases _ _ max_insns stop_on_error _ Hr)
      as (sp & tr & Hsp & Htr & Hcase). cbv zeta in Hcase.
    assert (Hs' : (si s0 < length spike_insns)%nat)
      by (apply nth_error_Some; congruence).
    assert (Ht' : (ti s0 < length trace_insns)%nat)
      by (apply nth_error_Some; congruence).
    pose proof (pair_diags_length sp tr
                  (spike_taken spike_insns (si s0) sp tr) (S (checked s0)))
      as Hlen.
    destruct Hcase as [(_ & ->) | [(_ & _ & ->) | [(_ & _ & _ & ->)
                      | (_ & _ & Hstop & d & rest & Hd & ->)]]];
      unfold P, Q; simpl.
    + repeat split; auto; lia.
    + repeat split; auto; lia.
    + repeat split; auto; lia.
    + repeat split; auto; try lia. right. repeat split; auto; lia.
  - intros s0 (Ht & Hsn & Htn & Hc & He) _. unfold Q.
    repeat split; auto; lia.
  - unfold P; simpl. repeat split; lia.
Qed.

(** ** Runs compared *)

Lemma later_refl s : later s s.
Proof. repeat split; auto. exists []. now rewrite app_nil_r. Qed.

Lemma later_trans s1 s2 s3 : later s1 s2 -> later s2 s3 -> later s1 s3.
Proof.
  intros (A1 & A2 & A3 & m1 & A4) (B1 & B2 & B3 & m2 & B4).
  repeat split; try lia. exists (m1 ++ m2). now rewrite B4, A4, app_assoc.
Qed.

Lemma loop_later spike_insns trace_insns max_insns stop_on_error fuel s s' :
  loop spike_insns trace_insns max_insns stop_on_error fuel s = Some s' ->
  later s s'.
Proof.
  intros Hrun.
  apply (loop_rule spike_insns trace_insns max_insns stop_on_error
           (later s) (later s) _ _ _) with (4 := Hrun).
  - intros s0 Hl Hr.
    destruct (body_cases _ _ max_insns stop_on_error _ Hr)
      as (sp & tr & _ & _ & Hc). cbv zeta in Hc.
    destruct Hc as [(_ & ->) | [(_ & _ & ->) | [(_ & _ & _ & ->)
                   | (_ & _ & _ & d & rest & _ & ->)]]];
      [exact Hl | | | ]; (eapply later_trans; [exact Hl|]);
      unfold later, starts; simpl; repeat split; try lia; eauto.
  - auto.
  - apply later_refl.
Qed.

Section StopOnError.

Variable spike_insns : list SpikeInsn.
Variable trace_insns : list TraceInsn.
Variable max_insns : Z.

(** From any state, the run under stop-on-error against the run without. *)
Lemma stop_against_full : forall fuel s st sf,
  loop spike_insns trace_insns max_insns true fuel s = Some st ->
  loop spike_insns trace_insns max_insns false fuel s = Some sf ->
  (errors sf = errors s -> st = sf) /\
  (errors sf <> errors s ->
   exists pre d rest,
     out sf = out s ++ pre ++ d :: rest /\
     only_sync pre /\ is_error d = true /\
     out st = out s ++ pre ++ [d] /\ errors st = S (errors s)).
Proof.
  induction fuel as [|fuel IH]; intros s st sf Ht Hf.
  - simpl in Ht, Hf. destruct (in_range _ _ s); [discriminate|].
    injection Ht as <-. injection Hf as <-. split; [auto | congruence].
  - destruct (in_range spike_insns trace_insns s) eqn:Hr.
    2:{ rewrite loop_exit in Ht, Hf by exact Hr.
        injection Ht as <-. injection Hf as <-. split; [auto | congruence]. }
    rewrite loop_step in Ht, Hf by exact Hr.
    destruct (in_range_lookup _ _ _ Hr) as (sp & tr & Hsp & Htr).
    destruct (cap_reached max_insns s) eqn:Hcap.
    { rewrite cap_break in Ht, Hf by exact Hcap.
      injection Ht as <-. injection Hf as <-. split; [auto | congruence]. }
    destruct (Z.eq_dec (s_ip sp) (t_ip tr)) as [Heq | Hne].
    + rewrite (body_match _ _ _ true _ _ _ Hsp Htr Hcap Heq) in Ht.
      rewrite (body_match _ _ _ false _ _ _ Hsp Htr Hcap Heq) in Hf.
      rewrite matched_stop in Ht by reflexivity.
      rewrite matched_all in Hf by reflexivity. cbv zeta in Ht, Hf.
      destruct (pair_diags sp tr _ _) as [|d rest0] eqn:Hd.
      * simpl in Hf. rewrite Nat.add_0_r, app_nil_r in Hf.
        exact (IH _ _ _ Ht Hf).
      * injection Ht as <-.
        destruct (loop_later _ _ _ _ _ _ _ Hf) as (_ & He & _ & more & Ho).
        simpl in He, Ho. split; [simpl; lia|]. intros _.
        exists [], d, (rest0 ++ more). simpl. repeat split.
        -- rewrite Ho, <- app_assoc. reflexivity.
        -- constructor.
        -- eapply pair_diags_errors. rewrite Hd. now left.
    + rewrite (body_mismatch _ _ _ true _ _ _ Hsp Htr Hcap Hne) in Ht.
      rewrite (body_mismatch _ _ _ false _ _ _ Hsp Htr Hcap Hne) in Hf.
      destruct (IH _ _ _ Ht Hf) as [H1 H2]. simpl in H1, H2.
      split; [exact H1|]. intros Hne'.
      destruct (H2 Hne') as (pre & d & rest & Ho & Hp & Hd & Hot & Het).
      exists (Sync (checked s) (s_ip sp) (t_ip tr) :: pre), d, rest.
      rewrite <- app_assoc in Ho, Hot. simpl in Ho, Hot.
      repeat split; auto. now constructor.
Qed.

End StopOnError.

(** X3.  The run under stop-on-error is the run without it, cut right after
    its first error line: when the full run counts no error the two runs end
    in the same state; otherwise the output of the full run is SYNC lines,
    its first error line and the rest, and the run under stop-on-error
    prints those SYNC lines and that error line and counts one error. *)
Theorem stop_on_error_cuts_full_run
    (spike_insns : list SpikeInsn) (trace_insns : list TraceInsn)
    (max_insns : Z) :
  exists sf st,
    check_run spike_insns trace_insns max_insns false = Some sf /\
    check_run spike_insns trace_insns max_insns true = Some st /\
    (errors sf = 0%nat -> st = sf) /\
    (errors sf <> 0%nat ->
     exists pre d rest,
       out sf = pre ++ d :: rest /\ only_sync pre /\ is_error d = true /\
       out st = pre ++ [d] /\ errors st = 1%nat).
Proof.
  destruct (check_run_total spike_insns trace_insns max_insns false)
    as (sf & Hf).
  destruct (check_run_total spike_insns trace_insns max_insns true)
    as (st & Ht).
  exists sf, st. split; [exact Hf|]. split; [exact Ht|].
  exact (stop_against_full _ _ _ _ _ _ _ Ht Hf).
Qed.

(** The theorem on Example 3: no error with the load reported, the same
    state either way. *)
Lemma stop_on_error_cuts_full_run_witness :
  check_run spike_load [mkTraceInsn 0x100 0 0 [] [0x2000]] 0 true
  = check_run spike_load [mkTraceInsn 0x100 0 0 [] [0x2000]] 0 false.
Proof.
  destruct (stop_on_error_cuts_full_run spike_load
              [mkTraceInsn 0x100 0 0 [] [0x2000]] 0)
    as (sf & st & Hf & Ht & Hsame & _).
  rewrite Hf, Ht. f_equal. apply Hsame.
  assert (He : option_map errors (Some sf) = Some 0%nat)
    by (rewrite <- Hf; reflexivity).
  now injection He.
Defined.

Section CapCut.

Variable spike_insns : list SpikeInsn.
Variable trace_insns : list TraceInsn.
Variable stop_on_error : bool.
Variable k : Z.
Hypothesis Hk : 0 < k.

(** From any state not past the cap, the capped run against the run
    without a cap. *)
Lemma capped_against_uncapped : forall fuel s sk s0,
  Z.of_nat (checked s) <= k ->
  loop spike_insns trace_insns k stop_on_error fuel s = Some sk ->
  loop spike_insns trace_insns 0 stop_on_error fuel s = Some s0 ->
  Z.of_nat (checked sk) = Z.min k (Z.of_nat (checked s0)) /\
  later sk s0 /\
  (Z.of_nat (checked s0) < k -> sk = s0).
Proof.
  induction fuel as [|fuel IH]; intros s sk s0 Hc Hrk Hr0.
  - simpl in Hrk, Hr0. destruct (in_range _ _ s); [discriminate|].
    injection Hrk as <-. injection Hr0 as <-.
    split; [lia | split; [apply later_refl | auto]].
  - destruct (in_range spike_insns trace_insns s) eqn:Hr.
    2:{ rewrite loop_exit in Hrk, Hr0 by exact Hr.
        injection Hrk as <-. injection Hr0 as <-.
        split; [lia | split; [apply later_refl | auto]]. }
    destruct (cap_reached k s) eqn:Hcap.
    { rewrite loop_step, cap_break in Hrk by assumption.
      injection Hrk as <-.
      pose proof (loop_later _ _ _ _ _ _ _ Hr0) as Hl.
      assert (Hck : k <= Z.of_nat (checked s)).
      { unfold cap_reached in Hcap. apply andb_true_iff in Hcap as [_ H].
        now apply Z.leb_le in H. }
      split; [destruct Hl; lia | split; [exact Hl | destruct Hl; lia]]. }
    rewrite loop_step in Hrk, Hr0 by exact Hr.
    assert (Hlt : Z.of_nat (checked s) < k).
    { unfold cap_reached, truthy in Hcap.
      apply andb_false_iff in Hcap as [H | H].
      - rewrite negb_false_iff, Z.eqb_eq in H. lia.
      - apply Z.leb_gt in H. lia. }
    destruct (in_range_lookup _ _ _ Hr) as (sp & tr & Hsp & Htr).
    assert (Hcap0 : cap_reached 0 s = false) by reflexivity.
    destruct (Z.eq_dec (s_ip sp) (t_ip tr)) as [Heq | Hne].
    + rewrite (body_match _ _ _ _ _ _ _ Hsp Htr Hcap Heq) in Hrk.
      rewrite (body_match _ _ _ _ _ _ _ Hsp Htr Hcap0 Heq) in Hr0.
      destruct (matched_cases spike_insns stop_on_error sp tr s)
        as [(e & ds & Hm) | (Hstop & d & Hm)]; rewrite Hm in Hrk, Hr0.
      * eapply IH; [|exact Hrk|exact Hr0]; simpl; lia.
      * injection Hrk as <-. injection Hr0 as <-.
        split; [simpl; lia | split; [apply later_refl | auto]].
    + rewrite (body_mismatch _ _ _ _ _ _ _ Hsp Htr Hcap Hne) in Hrk.
      rewrite (body_mismatch _ _ _ _ _ _ _ Hsp Htr Hcap0 Hne) in Hr0.
      eapply IH; [|exact Hrk|exact Hr0]; simpl; lia.
Qed.

End CapCut.

(** X4.  A run capped at [k > 0] is the run without a cap, cut: it checks
    [min k n] instructions where the uncapped run checks [n]; its output is
    the beginning of the uncapped output; its errors and warnings are not
    more; and when the uncapped run checks fewer than [k] instructions the
    two runs end in the same state. *)
Theorem cap_cuts_uncapped_run
    (spike_insns : list SpikeInsn) (trace_insns : list TraceInsn)
    (stop_on_error : bool) (k : Z) :
  0 < k ->
  exists sk s0,
    check_run spike_insns trace_insns k stop_on_error = Some sk /\
    check_run spike_insns trace_insns 0 stop_on_error = Some s0 /\
    Z.of_nat (checked sk) = Z.min k (Z.of_nat (checked s0)) /\
    starts (out sk) (out s0) /\
    (errors sk <= errors s0)%nat /\ (warnings sk <= warnings s0)%nat /\
    (Z.of_nat (checked s0) < k -> sk = s0).
Proof.
  intros Hk.
  destruct (check_run_total spike_insns trace_insns k stop_on_error)
    as (sk & Hrk).
  destruct (check_run_total spike_insns trace_insns 0 stop_on_error)
    as (s0 & Hr0).
  exists sk, s0. split; [exact Hrk|]. split; [exact Hr0|].
  destruct (capped_against_uncapped spike_insns trace_insns stop_on_error
              k Hk _ init sk s0 ltac:(simpl; lia) Hrk Hr0)
    as (Hmin & (_ & He & Hw & Hst) & Hsame).
  repeat split; auto.
Qed.

(** The theorem on Example 4 with cap 2: two of the five pairs checked. *)
Lemma cap_cuts_uncapped_run_witness :
  0 < 2 /\
  exists sk, check_run spike_five trace_five 2 false = Some sk /\
             checked sk = 2%nat.
Proof.
  split; [lia|].
  destruct (cap_cuts_uncapped_run spike_five trace_five false 2 ltac:(lia))
    as (sk & s0 & Hk & H0 & Hmin & _).
  exists sk. split; [exact Hk|].
  assert (H5 : option_map checked (Some s0) = Some 5%nat)
    by (rewrite <- H0; reflexivity).
  injection H5 as H5. rewrite H5 in Hmin. simpl in Hmin. lia.
Defined.

(** ** Entries before and after the part of the trace that matters *)

Lemma loop_fuel_more spike_insns trace_insns max_insns stop_on_error :
  forall fuel fuel' s r,
    loop spike_insns trace_insns max_insns stop_on_error fuel s = Some r ->
    (fuel <= fuel')%nat ->
    loop spike_insns trace_insns max_insns stop_on_error fuel' s = Some r.
Proof.
  induction fuel as [|fuel IH]; intros fuel' s r Hrun Hle.
  - simpl in Hrun. destruct (in_range _ _ s) eqn:Hr; [discriminate|].
    injection Hrun as <-. now apply loop_exit.
  - destruct (in_range spike_insns trace_insns s) eqn:Hr.
    + destruct fuel' as [|fuel']; [lia|].
      rewrite loop_step in Hrun |- * by exact Hr.
      destruct (body _ _ _ _ s); [|exact Hrun].
      apply IH; [exact Hrun | lia].
    + rewrite loop_exit in Hrun |- * by exact Hr. exact Hrun.
Qed.

(** A pass reads the trace at its cursor only. *)
Lemma body_same_entry spike_insns trace_insns trace_insns' max_insns
    stop_on_error s :
  nth_error trace_insns (ti s) = nth_error trace_insns' (ti s) ->
  body spike_insns trace_insns max_insns stop_on_error s =
  body spike_insns trace_insns' max_insns stop_on_error s.
Proof. intros H. unfold body. now rewrite H. Qed.

Section Prefix.

Variable spike_insns : list SpikeInsn.
Variable max_insns : Z.
Variable stop_on_error : bool.
Variable r0 : SpikeInsn.
Variable pre : list TraceInsn.
Variable trace_insns : list TraceInsn.

Let shift := skip_prefix r0 pre.

Lemma in_range_shift s :
  in_range spike_insns (pre ++ trace_insns) (shift s) =
  in_range spike_insns trace_insns s.
Proof.
  unfold in_range, n_trace, shift, skip_prefix. simpl. rewrite length_app.
  f_equal.
  destruct (Nat.ltb_spec (ti s) (length trace_insns));
    [apply Nat.ltb_lt | apply Nat.ltb_ge]; lia.
Qed.

Lemma body_shift s :
  body spike_insns (pre ++ trace_insns) max_insns stop_on_error (shift s) =
  map_outcome shift
    (body spike_insns trace_insns max_insns stop_on_error s).
Proof.
  unfold body. change (cap_reached max_insns (shift s))
    with (cap_reached max_insns s).
  destruct (cap_reached max_insns s); [reflexivity|].
  change (si (shift s)) with (si s).
  replace (nth_error (pre ++ trace_insns) (ti (shift s)))
    with (nth_error trace_insns (ti s)).
  2:{ unfold shift, skip_prefix. simpl.
      rewrite nth_error_app2 by lia. f_equal. lia. }
  destruct (nth_error spike_insns (si s)) as [sp|]; [|reflexivity].
  destruct (nth_error trace_insns (ti s)) as [tr|]; [|reflexivity].
  destruct (negb (s_ip sp =? t_ip tr)).
  - simpl. f_equal. unfold shift, skip_prefix, resync. simpl.
    apply State_eq; simpl; try lia; try reflexivity.
    now rewrite app_assoc.
  - destruct stop_on_error eqn:Es.
    + rewrite !matched_stop by reflexivity. cbv zeta.
      change (si (shift s)) with (si s).
      change (checked (shift s)) with (checked s).
      destruct (pair_diags _ _ _ _) as [|d rest]; simpl; f_equal;
        unfold shift, skip_prefix; simpl;
        apply State_eq; simpl; try lia; try reflexivity.
      now rewrite app_assoc.
    + rewrite !matched_all by reflexivity. cbv zeta.
      change (si (shift s)) with (si s).
      change (checked (shift s)) with (checked s).
      simpl. f_equal. unfold shift, skip_prefix; simpl.
      apply State_eq; simpl; try lia; try reflexivity.
      now rewrite app_assoc.
Qed.

(** Past the entries in front, the run on the longer trace is the run on
    the shorter one, shifted. *)
Lemma loop_shift : forall fuel s,
  loop spike_insns (pre ++ trace_insns) max_insns stop_on_error fuel
       (shift s) =
  option_map shift
    (loop spike_insns trace_insns max_insns stop_on_error fuel s).
Proof.
  induction fuel as [|fuel IH]; intros s.
  - simpl. rewrite in_range_shift.
    now destruct (in_range spike_insns trace_insns s).
  - destruct (in_range spike_insns trace_insns s) eqn:Hr.
    + rewrite !loop_step by (try rewrite in_range_shift; exact Hr).
      rewrite body_shift.
      destruct (body spike_insns trace_insns max_insns stop_on_error s);
        simpl; [apply IH | reflexivity].
    + rewrite !loop_exit by (try rewrite in_range_shift; exact Hr).
      reflexivity.
Qed.

End Prefix.

Lemma skip_one spike_insns max_insns stop_on_error r0 c trace_insns :
  nth_error spike_insns 0 = Some r0 ->
  t_ip c <> s_ip r0 -> 0 <= max_insns ->
  check_run spike_insns (c :: trace_insns) max_insns stop_on_error =
  option_map (skip_prefix r0 [c])
    (check_run spike_insns trace_insns max_insns stop_on_error).
Proof.
  intros Hr0 Hne Hmax. unfold check_run, n_trace. simpl length.
  assert (Hcap : cap_reached max_insns init = false).
  { unfold cap_reached, truthy. simpl.
    destruct (max_insns =? 0) eqn:E; [reflexivity|].
    apply Z.eqb_neq in E. simpl. apply Z.leb_gt. lia. }
  rewrite loop_step.
  2:{ apply lookup_in_range with (sp := r0) (tr := c); [exact Hr0|reflexivity]. }
  rewrite (body_mismatch spike_insns (c :: trace_insns) max_insns
             stop_on_error init r0 c Hr0 eq_refl Hcap)
    by (intros H; apply Hne; now symmetry).
  change (resync r0 c init) with (skip_prefix r0 [c] init).
  apply (loop_shift spike_insns max_insns stop_on_error r0 [c] trace_insns).
Qed.

(** X5.  Entries at the front of the trace that differ in address from the
    first reference instruction (boot code the reference does not have) are
    skipped, and the rest is checked as if they were not there: for a cap
    that is not negative, the run on [pre ++ trace] ends in the final state
    of the run on [trace] with the trace cursor and the warnings moved up by
    the number of entries in front and their SYNC lines printed first; what
    is checked, the errors and the exit code are the same. *)
Theorem leading_entries_skipped
    (spike_insns : list SpikeInsn) (pre trace_insns : list TraceInsn)
    (max_insns : Z) (stop_on_error : bool) (r0 : SpikeInsn) :
  nth_error spike_insns 0 = Some r0 ->
  Forall (fun c => t_ip c <> s_ip r0) pre ->
  0 <= max_insns ->
  exists s,
    check_run spike_insns trace_insns max_insns stop_on_error = Some s /\
    check_run spike_insns (pre ++ trace_insns) max_insns stop_on_error
      = Some (skip_prefix r0 pre s) /\
    check spike_insns (pre ++ trace_insns) max_insns stop_on_error
      = check spike_insns trace_insns max_insns stop_on_error.
Proof.
  intros Hr0 Hpre Hmax.
  destruct (check_run_total spike_insns trace_insns max_insns stop_on_error)
    as (s & Hs).
  exists s. split; [exact Hs|].
  assert (H : check_run spike_insns (pre ++ trace_insns) max_insns
                stop_on_error = Some (skip_prefix r0 pre s)).
  { induction Hpre as [|c pre' Hc _ IH]; simpl.
    - rewrite Hs. f_equal. now destruct s.
    - rewrite (skip_one _ _ _ r0) by assumption.
      rewrite IH. reflexivity. }
  split; [exact H|]. unfold check. now rewrite H, Hs.
Qed.

(** The theorem on Example 4 behind three entries of boot code. *)
Lemma leading_entries_skipped_witness :
  Forall (fun c => t_ip c <> 0x100) trace_apart /\
  check spike_five (trace_apart ++ trace_five) 0 false
  = check spike_five trace_five 0 false.
Proof.
  assert (H : Forall (fun c => t_ip c <> 0x100) trace_apart)
    by (repeat constructor; discriminate).
  split; [exact H|].
  destruct (leading_entries_skipped spike_five trace_apart trace_five 0 false
              (mkSpikeInsn 0x100 None None) eq_refl H ltac:(lia))
    as (s & _ & _ & Hc).
  exact Hc.
Defined.

Lemma loop_longer_trace spike_insns trace_insns extra max_insns
    stop_on_error :
  forall fuel s r,
    loop spike_insns trace_insns max_insns stop_on_error fuel s = Some r ->
    (ti r < length trace_insns)%nat \/ si r = length spike_insns ->
    loop spike_insns (trace_insns ++ extra) max_insns stop_on_error fuel s
    = Some r.
Proof.
  assert (Hout : forall s,
            in_range spike_insns trace_insns s = false ->
            (ti s < length trace_insns)%nat \/ si s = length spike_insns ->
            in_range spike_insns (trace_insns ++ extra) s = false).
  { intros s Hr H. unfold in_range, n_spike, n_trace in *.
    apply andb_false_iff in Hr. rewrite !Nat.ltb_ge in Hr.
    apply andb_false_iff. left. apply Nat.ltb_ge. lia. }
  assert (Hin : forall s,
            in_range spike_insns trace_insns s = true ->
            in_range spike_insns (trace_insns ++ extra) s = true /\
            nth_error trace_insns (ti s)
            = nth_error (trace_insns ++ extra) (ti s)).
  { intros s Hr. unfold in_range, n_spike, n_trace in *.
    apply andb_true_iff in Hr as [H1 H2]. rewrite Nat.ltb_lt in H2.
    split.
    - rewrite H1. simpl. apply Nat.ltb_lt. rewrite length_app. lia.
    - now rewrite nth_error_app1. }
  induction fuel as [|fuel IH]; intros s r Hrun Hend.
  - simpl in Hrun. destruct (in_range _ _ s) eqn:Hr; [discriminate|].
    injection Hrun as <-. apply loop_exit. now apply Hout.
  - destruct (in_range spike_insns trace_insns s) eqn:Hr.
    + destruct (Hin s Hr) as [Hr' Hnth].
      rewrite loop_step in Hrun |- * by assumption.
      rewrite <- (body_same_entry _ _ _ _ _ _ Hnth).
      destruct (body _ _ _ _ s); [now apply IH | exact Hrun].
    + rewrite loop_exit in Hrun by exact Hr. injection Hrun as <-.
      apply loop_exit. now apply Hout.
Qed.

(** X6.  A run that does not end for want of trace entries (it stops short
    of the end of the trace, or has used up the reference) never looks at
    what follows in the trace: with any entries added at the end it ends in
    the same state. *)
Theorem trailing_entries_ignored
    (spike_insns : list SpikeInsn) (trace_insns extra : list TraceInsn)
    (max_insns : Z) (stop_on_error : bool) (s : State) :
  check_run spike_insns trace_insns max_insns stop_on_error = Some s ->
  (ti s < length trace_insns)%nat \/ si s = length spike_insns ->
  check_run spike_insns (trace_insns ++ extra) max_insns stop_on_error
  = Some s.
Proof.
  unfold check_run, n_trace. intros Hrun Hend.
  apply loop_fuel_more with (fuel := length trace_insns).
  - now apply loop_longer_trace.
  - rewrite length_app. lia.
Qed.

(** The theorem on Example 4 with three more entries after the fifth. *)
Lemma trailing_entries_ignored_witness :
  check_run spike_five (trace_five ++ trace_apart) 0 false
  = Some (mkState 5 5 5 0 0 []).
Proof.
  apply (trailing_entries_ignored spike_five trace_five trace_apart 0 false).
  - reflexivity.
  - right. reflexivity.
Defined.

(** ** A reference instruction the trace does not have *)

Lemma body_break_ti spike_insns trace_insns max_insns stop_on_error s s' :
  in_range spike_insns trace_insns s = true ->
  body spike_insns trace_insns max_insns stop_on_error s = Break s' ->
  ti s' = ti s.
Proof.
  intros Hr Hb.
  destruct (body_cases _ _ max_insns stop_on_error _ Hr)
    as (sp & tr & _ & _ & Hc). cbv zeta in Hc.
  destruct Hc as [(_ & H) | [(_ & _ & H) | [(_ & _ & _ & H)
                 | (_ & _ & _ & d & rest & _ & H)]]];
    rewrite H in Hb; try discriminate; injection Hb as <-; reflexivity.
Qed.

(** A run that has used up a trace goes on, on a longer trace, from the
    state it ended in. *)
Lemma loop_resumes spike_insns trace_insns more max_insns stop_on_error :
  forall fuel s0 s,
    loop spike_insns trace_insns max_insns stop_on_error fuel s0 = Some s ->
    ti s = length trace_insns ->
    forall fuel' r,
      loop spike_insns (trace_insns ++ more) max_insns stop_on_error
           fuel' s = Some r ->
      loop spike_insns (trace_insns ++ more) max_insns stop_on_error
           (fuel + fuel') s0 = Some r.
Proof.
  induction fuel as [|fuel IH]; intros s0 s Hrun Hti fuel' r Hr.
  - simpl in Hrun. destruct (in_range _ _ s0); [discriminate|].
    injection Hrun as <-. exact Hr.
  - destruct (in_range spike_insns trace_insns s0) eqn:Hin.
    + rewrite loop_step in Hrun by exact Hin.
      assert (Hlt : (ti s0 < length trace_insns)%nat).
      { unfold in_range, n_trace in Hin.
        apply andb_true_iff in Hin as [_ H]. now apply Nat.ltb_lt in H. }
      assert (Hin' : in_range spike_insns (trace_insns ++ more) s0 = true).
      { unfold in_range, n_spike, n_trace in *.
        apply andb_true_iff in Hin as [H1 _]. rewrite H1. simpl.
        apply Nat.ltb_lt. rewrite length_app. lia. }
      change (S fuel + fuel')%nat with (S (fuel + fuel')).
      rewrite loop_step by exact Hin'.
      rewrite <- (body_same_entry spike_insns trace_insns
                    (trace_insns ++ more) max_insns stop_on_error s0)
        by (now rewrite nth_error_app1).
      destruct (body spike_insns trace_insns max_insns stop_on_error s0)
        as [s1|s1] eqn:Hb.
      * eapply IH; eauto.
      * injection Hrun as <-.
        apply body_break_ti in Hb; [lia | exact Hin].
    + rewrite loop_exit in Hrun by exact Hin. injection Hrun as <-.
      eapply loop_fuel_more; [exact Hr | lia].
Qed.

(** X18.  The reference cursor never skips.  Take a run that has used up
    the trace with the reference cursor on an instruction [r], and continue
    the trace by entries that all differ from [r] in address.  When the cap
    is not reached in the state the run ended in, the run on the longer
    trace ends in the same state but for one SYNC line and one warning for
    each added entry, which are all skipped.  When the cap is reached there,
    the run on the longer trace ends in that very state, the added entries
    unread.  Either way nothing more is checked, no error is added and the
    reference cursor stays on [r], whatever the reference holds after
    [r]. *)
Theorem reference_never_skips
    (spike_insns : list SpikeInsn) (trace_insns more : list TraceInsn)
    (max_insns : Z) (stop_on_error : bool) (s : State) (r : SpikeInsn) :
  check_run spike_insns trace_insns max_insns stop_on_error = Some s ->
  ti s = length trace_insns ->
  nth_error spike_insns (si s) = Some r ->
  Forall (fun c => t_ip c <> s_ip r) more ->
  check_run spike_insns (trace_insns ++ more) max_insns stop_on_error
  = Some (if cap_reached max_insns s then s else skip_rest r more s).
Proof.
  intros Hrun Hti Hr Hmore.
  destruct (cap_reached max_insns s) eqn:Hcap.
  { unfold check_run, n_trace. rewrite length_app.
    apply (loop_resumes spike_insns trace_insns more max_insns stop_on_error
             (length trace_insns) init s Hrun Hti).
    destruct more as [|c more'].
    - apply loop_exit. unfold in_range, n_trace.
      rewrite app_nil_r, Hti, Nat.ltb_irrefl. apply andb_false_r.
    - change (length (c :: more')) with (S (length more')).
      rewrite loop_step.
      + now rewrite cap_break by exact Hcap.
      + unfold in_range, n_spike, n_trace. apply andb_true_iff. split.
        * apply Nat.ltb_lt, nth_error_Some. congruence.
        * apply Nat.ltb_lt. rewrite Hti, length_app. simpl. lia. }
  set (ext := trace_insns ++ more).
  destruct (loop_total spike_insns ext max_insns stop_on_error
              (length more) s) as (s' & Hs').
  { unfold n_trace, ext. rewrite length_app. lia. }
  set (P := fun s0 : State =>
    si s0 = si s /\ checked s0 = checked s /\ errors s0 = errors s /\
    (length trace_insns <= ti s0 <= length ext)%nat /\
    warnings s0 = (warnings s + (ti s0 - length trace_insns))%nat /\
    out s0 = out s ++ map (fun c => Sync (checked s) (s_ip r) (t_ip c))
                          (firstn (ti s0 - length trace_insns) more)).
  assert (HP : P s' /\ ti s' = length ext).
  { apply (loop_rule spike_insns ext max_insns stop_on_error P
             (fun s0 => P s0 /\ ti s0 = length ext) _ _ _) with (4 := Hs').
    - intros s0 (Hsi & Hch & He & Hb & Hw & Ho) Hin.
      destruct (in_range_lookup _ _ _ Hin) as (sp & tr & Hsp & Htr).
      rewrite Hsi, Hr in Hsp. injection Hsp as <-.
      assert (Hcap0 : cap_reached max_insns s0 = false)
        by (unfold cap_reached in *; now rewrite Hch).
      assert (Htr' : nth_error more (ti s0 - length trace_insns) = Some tr).
      { unfold ext in Htr. now rewrite nth_error_app2 in Htr by lia. }
      assert (Hne : s_ip r <> t_ip tr).
      { rewrite Forall_forall in Hmore. intros H.
        apply (Hmore tr (nth_error_In _ _ Htr')). now symmetry. }
      rewrite (body_mismatch spike_insns ext max_insns stop_on_error s0 r tr
                 ltac:(now rewrite Hsi) Htr Hcap0 Hne).
      assert (Hlt : (ti s0 < length ext)%nat)
        by (apply nth_error_Some; congruence).
      unfold P, resync; cbn [si ti checked errors warnings out].
      repeat split; auto; try lia.
      replace (S (ti s0) - length trace_insns)%nat
        with (S (ti s0 - length trace_insns)) by lia.
      rewrite (firstn_snoc _ _ _ Htr'), map_app, app_assoc, <- Ho, Hch.
      reflexivity.
    - intros s0 HP0 Hin. split; [exact HP0|].
      destruct HP0 as (Hsi & _ & _ & Hb & _).
      unfold in_range, n_spike, n_trace in Hin.
      apply andb_false_iff in Hin. rewrite !Nat.ltb_ge in Hin.
      assert ((si s < length spike_insns)%nat)
        by (apply nth_error_Some; congruence).
      lia.
    - unfold P. rewrite Hti, Nat.sub_diag. simpl. rewrite app_nil_r.
      unfold ext. rewrite length_app. repeat split; auto; lia. }
  destruct HP as ((Hsi & Hch & He & Hb & Hw & Ho) & Hend).
  assert (Heq : s' = skip_rest r more s).
  { unfold ext in Hend. rewrite length_app in Hend.
    apply State_eq; unfold skip_rest; simpl; auto; try lia.
    rewrite Ho. f_equal. f_equal.
    replace (ti s' - length trace_insns)%nat with (length more) by lia.
    apply firstn_all. }
  subst s'. unfold check_run, n_trace. fold ext.
  replace (length ext) with (length trace_insns + length more)%nat
    by (unfold ext; now rewrite length_app).
  eapply loop_resumes; eauto.
Qed.

(** The theorem on a trace that lacks the second instruction of the
    reference. *)
Lemma reference_never_skips_witness :
  check_run spike_jump
    ([mkTraceInsn 0x100 0 0 [] []] ++ [mkTraceInsn 0x200 0 0 [] [0x10]])
    0 false
  = Some (mkState 1 2 1 0 1 [Sync 1 0x104 0x200]).
Proof.
  apply (reference_never_skips spike_jump [mkTraceInsn 0x100 0 0 [] []]
           [mkTraceInsn 0x200 0 0 [] [0x10]] 0 false
           (mkState 1 1 1 0 0 []) (mkSpikeInsn 0x104 None None)).
  - reflexivity.
  - reflexivity.
  - reflexivity.
  - repeat constructor. discriminate.
Defined.

(** ** What a clean run has checked *)

Lemma pair_diags_nil spike_insns i sp tr n :
  s_ip sp = t_ip tr ->
  pair_diags sp tr (spike_taken spike_insns i sp tr) n = [] ->
  agrees spike_insns i sp tr.
Proof.
  intros Heq H. unfold pair_diags in H.
  apply app_eq_nil in H as [Hb H]. apply app_eq_nil in H as [Hs Hd].
  split; [exact Heq|]. repeat apply conj.
  - unfold branch_diag in Hb.
    destruct (truthy (is_branch tr) && negb (branch_taken tr =? _)) eqn:E;
      [discriminate|].
    apply andb_false_iff in E as [E | E].
    + left. unfold truthy in E. now rewrite negb_false_iff, Z.eqb_eq in E.
    + right. now rewrite negb_false_iff, Z.eqb_eq in E.
  - intros a Ha. unfold src_diag in Hs. rewrite Ha in Hs.
    destruct (is_mmio a); [now left|]. right.
    destruct (mem_in a (src_mem tr)) eqn:E; [|discriminate].
    now apply mem_in_spec.
  - intros Ha. unfold src_diag in Hs. rewrite Ha in Hs.
    destruct (src_mem tr); [reflexivity | discriminate].
  - intros a Ha. unfold dst_diag in Hd. rewrite Ha in Hd.
    destruct (is_mmio a); [now left|]. right.
    destruct (mem_in a (dst_mem tr)) eqn:E; [|discriminate].
    now apply mem_in_spec.
  - intros Ha. unfold dst_diag in Hd. rewrite Ha in Hd.
    destruct (dst_mem tr); [reflexivity | discriminate].
Qed.

(** X19.  What a run without errors and warnings vouches for: it has gone
    through the first [checked] instructions of both sequences in step, and
    each of these pairs has the same address, no branch claim against the
    inferred outcome, the reference's load (store) among the entry's loads
    (stores) unless it is MMIO, and no load (store) in the entry where the
    reference has none. *)
Theorem clean_run_agrees
    (spike_insns : list SpikeInsn) (trace_insns : list TraceInsn)
    (max_insns : Z) (stop_on_error : bool) (s : State) :
  check_run spike_insns trace_insns max_insns stop_on_error = Some s ->
  errors s = 0%nat -> warnings s = 0%nat ->
  si s = checked s /\ ti s = checked s /\
  forall i, (i < checked s)%nat ->
    exists sp tr,
      nth_error spike_insns i = Some sp /\
      nth_error trace_insns i = Some tr /\
      agrees spike_insns i sp tr.
Proof.
  intros Hrun He Hw.
  set (P := fun s0 : State =>
    errors s0 = 0%nat -> warnings s0 = 0%nat ->
    si s0 = checked s0 /\ ti s0 = checked s0 /\
    forall i, (i < checked s0)%nat ->
      exists sp tr,
        nth_error spike_insns i = Some sp /\
        nth_error trace_insns i = Some tr /\
        agrees spike_insns i sp tr).
  assert (HP : P s); [|now apply HP].
  unfold check_run in Hrun.
  apply (loop_rule spike_insns trace_insns max_insns stop_on_error P P
           _ _ _) with (4 := Hrun).
  - intros s0 H0 Hr.
    destruct (body_cases _ _ max_insns stop_on_error _ Hr)
      as (sp & tr & Hsp & Htr & Hc). cbv zeta in Hc.
    destruct Hc as [(_ & ->) | [(_ & _ & ->) | [(_ & Heq & _ & ->)
                   | (_ & _ & _ & d & rest & _ & ->)]]]; unfold P; simpl.
    + exact H0.
    + intros _ Hw1. discriminate.
    + intros He1 Hw1.
      destruct (pair_diags sp tr _ _) as [|d ds] eqn:Hd;
        [|simpl in He1; lia].
      rewrite Nat.add_0_r in He1.
      destruct (H0 He1 Hw1) as (Hsi & Hti & Hall).
      repeat split; try congruence.
      intros i Hi. destruct (Nat.eq_dec i (checked s0)) as [-> | Hne].
      * exists sp, tr.
        split; [now rewrite <- Hsi|]. split; [now rewrite <- Hti|].
        rewrite <- Hsi. eapply pair_diags_nil; [exact Heq | exact Hd].
      * apply Hall. lia.
    + intros He1. discriminate.
  - auto.
  - unfold P; simpl. intros _ _. repeat split. intros i Hi. lia.
Qed.

(** The theorem on Example 4. *)
Lemma clean_run_agrees_witness :
  check_run spike_five trace_five 0 false = Some (mkState 5 5 5 0 0 []) /\
  exists sp tr,
    nth_error spike_five 1 = Some sp /\ nth_error trace_five 1 = Some tr /\
    agrees spike_five 1 sp tr.
Proof.
  split; [reflexivity|].
  destruct (clean_run_agrees spike_five trace_five 0 false
              (mkState 5 5 5 0 0 []) eq_refl eq_refl eq_refl)
    as (_ & _ & H).
  apply H. simpl. lia.
Defined.

(** ** What the branch check does and does not look at *)

Lemma count_branch_taken_pair sp tr taken n :
  count_kind BRANCH_TAKEN (pair_diags sp tr taken n) =
  if truthy (is_branch tr) && negb (branch_taken tr =? taken)
  then 1%nat else 0%nat.
Proof. exact (count_branch_taken false sp tr taken n). Qed.

Lemma count_kind_head_le k d rest :
  (count_kind k [d] <= count_kind k (d :: rest))%nat.
Proof. simpl. lia. Qed.

(** X7.  The branch flag itself is never compared with the reference: a
    trace whose entries all have branch=0 gets no BRANCH_TAKEN line,
    whatever the control flow of the reference, jumps included.  (Any other
    digit, 2 to 9 as well as 1, counts as a branch claim and is outside this
    statement.) *)
Theorem no_branch_claim_no_branch_error
    (spike_insns : list SpikeInsn) (trace_insns : list TraceInsn)
    (max_insns : Z) (stop_on_error : bool) :
  (forall tr, In tr trace_insns -> is_branch tr = 0) ->
  exists s,
    check_run spike_insns trace_insns max_insns stop_on_error = Some s /\
    count_kind BRANCH_TAKEN (out s) = 0%nat.
Proof.
  intros Hnb.
  destruct (check_run_total spike_insns trace_insns max_insns stop_on_error)
    as (s & Hs).
  exists s. split; [exact Hs|].
  unfold check_run in Hs.
  apply (loop_rule spike_insns trace_insns max_insns stop_on_error
           (fun s0 => count_kind BRANCH_TAKEN (out s0) = 0%nat)
           (fun s0 => count_kind BRANCH_TAKEN (out s0) = 0%nat)
           _ _ _) with (4 := Hs).
  - intros s0 H0 Hr.
    destruct (body_cases _ _ max_insns stop_on_error _ Hr)
      as (sp & tr & _ & Htr & Hc). cbv zeta in Hc.
    pose proof (count_branch_taken_pair sp tr
                  (spike_taken spike_insns (si s0) sp tr) (S (checked s0)))
      as Hb.
    rewrite (Hnb tr (nth_error_In _ _ Htr)) in Hb. simpl in Hb.
    destruct Hc as [(_ & ->) | [(_ & _ & ->) | [(_ & _ & _ & ->)
                   | (_ & _ & _ & d & rest & Hd & ->)]]]; simpl.
    + exact H0.
    + rewrite count_kind_app, H0. reflexivity.
    + rewrite count_kind_app, H0, Hb. reflexivity.
    + rewrite count_kind_app, H0. rewrite Hd in Hb.
      pose proof (count_kind_head_le BRANCH_TAKEN d rest). lia.
  - auto.
  - reflexivity.
Qed.

(** The theorem on the jump of Example 2, with a trace that calls nothing a
    branch. *)
Lemma no_branch_claim_no_branch_error_witness :
  check spike_jump
    [mkTraceInsn 0x100 0 0 [] []; mkTraceInsn 0x104 0 1 [] [];
     mkTraceInsn 0x200 0 0 [] []] 0 false = Some 0%nat /\
  exists s,
    check_run spike_jump
      [mkTraceInsn 0x100 0 0 [] []; mkTraceInsn 0x104 0 1 [] [];
       mkTraceInsn 0x200 0 0 [] []] 0 false = Some s /\
    count_kind BRANCH_TAKEN (out s) = 0%nat.
Proof.
  split; [reflexivity|].
  apply no_branch_claim_no_branch_error.
  intros tr Hin. simpl in Hin.
  repeat (destruct Hin as [<- | Hin]; [reflexivity|]). destruct Hin.
Defined.

Lemma spike_taken_bit spike_insns i sp tr :
  spike_taken spike_insns i sp tr = 0 \/ spike_taken spike_insns i sp tr = 1.
Proof.
  rewrite spike_taken_inferred. unfold inferred_taken.
  destruct (nth_error spike_insns (S i)) as [nx|]; [|now left].
  destruct (negb _ && negb _); auto.
Qed.

(** X8.  The inferred outcome is 0 or 1, and 0 at the last instruction of
    the reference.  So at a matched pair whose trace entry says branch, a
    taken digit other than 0 and 1 is always reported, and so is any taken
    digit but 0 when the reference has no next instruction. *)
Theorem branch_claims_never_accepted
    (spike_insns : list SpikeInsn) (trace_insns : list TraceInsn)
    (max_insns : Z) (stop_on_error : bool)
    (s : State) (sp : SpikeInsn) (tr : TraceInsn) :
  nth_error spike_insns (si s) = Some sp ->
  nth_error trace_insns (ti s) = Some tr ->
  cap_reached max_insns s = false ->
  s_ip sp = t_ip tr ->
  is_branch tr <> 0 ->
  let inferred := spike_taken spike_insns (si s) sp tr in
  (inferred = 0 \/ inferred = 1) /\
  (nth_error spike_insns (S (si s)) = None -> inferred = 0) /\
  exists ds,
    out (state_of (body spike_insns trace_insns max_insns stop_on_error s))
      = out s ++ ds /\
    (branch_taken tr <> 0 -> branch_taken tr <> 1 ->
       count_kind BRANCH_TAKEN ds = 1%nat) /\
    (nth_error spike_insns (S (si s)) = None -> branch_taken tr <> 0 ->
       count_kind BRANCH_TAKEN ds = 1%nat).
Proof.
  intros Hsp Htr Hcap Heq Hb inferred.
  assert (Hbit := spike_taken_bit spike_insns (si s) sp tr).
  fold inferred in Hbit.
  assert (Hlast : nth_error spike_insns (S (si s)) = None -> inferred = 0).
  { intros Hn. unfold inferred, spike_taken, infer_branch. now rewrite Hn. }
  split; [exact Hbit|]. split; [exact Hlast|].
  eexists. split; [apply body_match_out with (tr := tr); eassumption|].
  rewrite count_branch_taken. fold inferred.
  assert (Hwrong : branch_taken tr <> inferred ->
            (if truthy (is_branch tr) && negb (branch_taken tr =? inferred)
             then 1%nat else 0%nat) = 1%nat).
  { intros Hne.
    assert (H : truthy (is_branch tr)
                && negb (branch_taken tr =? inferred) = true)
      by (now apply branch_wrong_spec).
    now rewrite H. }
  split.
  - intros H0 H1. apply Hwrong. destruct Hbit as [-> | ->]; assumption.
  - intros Hn H0. apply Hwrong. now rewrite (Hlast Hn).
Qed.

(** The theorem at the last instruction of a reference, against a trace
    entry that says branch=1 taken=1. *)
Lemma branch_claims_never_accepted_witness :
  cap_reached 0 init = false /\
  spike_taken spike_load 0 (mkSpikeInsn 0x100 (Some 0x2000) None)
              (mkTraceInsn 0x100 1 1 [] [0x2000]) = 0.
Proof.
  split; [reflexivity|].
  destruct (branch_claims_never_accepted spike_load
              [mkTraceInsn 0x100 1 1 [] [0x2000]] 0 false init
              (mkSpikeInsn 0x100 (Some 0x2000) None)
              (mkTraceInsn 0x100 1 1 [] [0x2000])
              eq_refl eq_refl eq_refl eq_refl ltac:(discriminate))
    as (_ & Hlast & _).
  apply Hlast. reflexivity.
Defined.

(** * Further properties of the parsers *)

(** ** The values parsed *)

Lemma hex_value_nonneg c : 0 <= hex_value c.
Proof. unfold hex_value. destruct (code c <=? 57)%nat; lia. Qed.

Lemma digits_value_nonneg b s : forall acc,
  0 <= b -> 0 <= acc -> 0 <= digits_value b acc s.
Proof.
  induction s as [|c s IH]; intros acc Hb Hacc; simpl; [exact Hacc|].
  apply IH; [exact Hb|].
  apply Z.add_nonneg_nonneg; [now apply Z.mul_nonneg_nonneg|].
  apply hex_value_nonneg.
Qed.

Lemma int16_nonneg g v : int16 g = Ok v -> 0 <= v.
Proof.
  unfold int16. destruct g as [[|a [|b ds]]|]; try discriminate.
  - destruct a as [[] [] [] [] [] [] [] []]; discriminate.
  - destruct (Ascii.eqb a "0") eqn:Ea;
      [apply Ascii.eqb_eq in Ea; subst a
      |destruct a as [[] [] [] [] [] [] [] []]; try discriminate;
       destruct b as [[] [] [] [] [] [] [] []]; discriminate].
    destruct (Ascii.eqb b "x") eqn:Eb;
      [apply Ascii.eqb_eq in Eb; subst b
      |destruct b as [[] [] [] [] [] [] [] []]; try discriminate].
    destruct ds as [|c ds]; [discriminate|].
    destruct (all_chars is_hex (String c ds)); [|discriminate].
    intros H. injection H as <-.
    apply digits_value_nonneg; [lia | apply hex_value_nonneg].
Qed.

Lemma int10_digit_range t v :
  lang (Class is_digit) t -> int10 (Some t) = Ok v -> 0 <= v <= 9.
Proof.
  simpl. intros (c & -> & Hc). simpl. rewrite Hc. simpl.
  intros H. injection H as <-.
  unfold is_digit in Hc. apply andb_true_iff in Hc as [H1 H2].
  apply Nat.leb_le in H1, H2. unfold hex_value.
  replace (code c <=? 57)%nat with true by (symmetry; now apply Nat.leb_le).
  lia.
Qed.

Lemma nonzero_In a l : In a (nonzero l) <-> In a l /\ a <> 0.
Proof.
  unfold nonzero. rewrite filter_In. unfold truthy.
  rewrite negb_true_iff, Z.eqb_neq. reflexivity.
Qed.

Lemma nonzero_length l : (length (nonzero l) <= length l)%nat.
Proof. unfold nonzero. apply filter_length_le. Qed.

Lemma nonzero_positive l :
  Forall (fun a => 0 <= a) l -> Forall (fun a => 0 < a) (nonzero l).
Proof.
  intros H. apply Forall_forall. intros a Ha.
  apply nonzero_In in Ha as [Hin Hne].
  rewrite Forall_forall in H. specialize (H a Hin). lia.
Qed.

(** What a line of the trace parses to, when it parses to an instruction. *)
Lemma parse_debug_line_values line tr :
  parse_debug_line line = Ok (Some tr) ->
  0 <= t_ip tr /\
  0 <= is_branch tr <= 9 /\ 0 <= branch_taken tr <= 9 /\
  (length (dst_mem tr) <= 2)%nat /\ (length (src_mem tr) <= 4)%nat /\
  Forall (fun a => 0 < a) (dst_mem tr) /\
  Forall (fun a => 0 < a) (src_mem tr).
Proof.
  unfold parse_debug_line.
  destruct (startswith "#" line); [discriminate|].
  destruct (re_match DEBUG_RE (strip line)) as [m|] eqn:E; [|discriminate].
  destruct (re_match_in _ _ _ E) as (w & rest & Hin).
  destruct (int16 (m 1%nat)) as [ip|] eqn:E1; [|discriminate].
  simpl bind. apply int16_nonneg in E1.
  group_of Hin 2%nat.
  destruct (int10 (Some t)) as [b|] eqn:E2; [|discriminate].
  simpl bind. apply (int10_digit_range _ _ Hl) in E2.
  group_of Hin 3%nat.
  destruct (int10 (Some t0)) as [k|] eqn:E3; [|discriminate].
  simpl bind. apply (int10_digit_range _ _ Hl0) in E3.
  destruct (int16 (m 10%nat)) as [d0|] eqn:E10; [|discriminate].
  simpl bind. apply int16_nonneg in E10.
  destruct (int16 (m 11%nat)) as [d1|] eqn:E11; [|discriminate].
  simpl bind. apply int16_nonneg in E11.
  destruct (int16 (m 12%nat)) as [s0|] eqn:E12; [|discriminate].
  simpl bind. apply int16_nonneg in E12.
  destruct (int16 (m 13%nat)) as [s1|] eqn:E13; [|discriminate].
  simpl bind. apply int16_nonneg in E13.
  destruct (int16 (m 14%nat)) as [s2|] eqn:E14; [|discriminate].
  simpl bind. apply int16_nonneg in E14.
  destruct (int16 (m 15%nat)) as [s3|] eqn:E15; [|discriminate].
  simpl bind. apply int16_nonneg in E15.
  intros Hrec. injection Hrec as <-.
  cbn [t_ip is_branch branch_taken dst_mem src_mem].
  repeat split; try lia.
  - apply (nonzero_length [d0; d1]).
  - apply (nonzero_length [s0; s1; s2; s3]).
  - apply (nonzero_positive [d0; d1]). repeat constructor; assumption.
  - apply (nonzero_positive [s0; s1; s2; s3]).
    repeat constructor; assumption.
Qed.

Lemma parsed_line_of {A} (parse_line : string -> result (option A))
    lines i :
  In i (flat_map (kept parse_line) lines) ->
  exists line, In line lines /\ parse_line line = Ok (Some i).
Proof.
  intros Hin. apply in_flat_map in Hin as (line & Hl & Hk).
  exists line. split; [exact Hl|]. unfold kept in Hk.
  destruct (parse_line line) as [[j|]|]; [|destruct Hk|destruct Hk].
  destruct Hk as [<- | []]. reflexivity.
Qed.

(** X9.  Every instruction [parse_debug] returns has a non-negative
    address, branch and taken flags between 0 and 9 (one decimal digit each,
    not only 0 and 1), at most two store addresses and at most four load
    addresses, and all of these addresses positive: a zero slot is never an
    address. *)
Theorem parsed_trace_values (lines : list string) :
  exists insns,
    parse_debug lines = Ok insns /\
    forall tr, In tr insns ->
      0 <= t_ip tr /\
      0 <= is_branch tr <= 9 /\ 0 <= branch_taken tr <= 9 /\
      (length (dst_mem tr) <= 2)%nat /\ (length (src_mem tr) <= 4)%nat /\
      Forall (fun a => 0 < a) (dst_mem tr) /\
      Forall (fun a => 0 < a) (src_mem tr).
Proof.
  eexists. split; [apply parse_debug_kept|].
  intros tr Hin. apply parsed_line_of in Hin as (line & _ & Hp).
  now apply parse_debug_line_values in Hp.
Qed.

Lemma parse_spike_line_values line i :
  parse_spike_line line = Ok (Some i) ->
  0 <= s_ip i /\
  (forall a, load_addr i = Some a -> 0 <= a) /\
  (forall a, store_addr i = Some a -> 0 <= a).
Proof.
  unfold parse_spike_line.
  destruct (re_match SPIKE_RE (strip line)) as [m|]; [|discriminate].
  destruct (int16 (m 1%nat)) as [ip|] eqn:E1; [|discriminate]. simpl.
  apply int16_nonneg in E1.
  destruct (m 2%nat) as [rest|]; [|discriminate].
  destruct (re_search MEM_RE rest) as [mm|].
  - destruct (int16 (mm 1%nat)) as [addr|] eqn:E2; [|discriminate]. simpl.
    apply int16_nonneg in E2.
    destruct (mm 2%nat); intros H; injection H as <-; simpl;
      repeat split; auto; intros a Ha; try discriminate;
      injection Ha as <-; exact E2.
  - intros H; injection H as <-; simpl. repeat split; auto; discriminate.
Qed.

(** X10.  Every instruction [parse_spike] returns has a non-negative
    address, and its load or store address, when it has one, is not
    negative. *)
Theorem parsed_reference_values (lines : list string) :
  exists insns,
    parse_spike lines = Ok insns /\
    forall i, In i insns ->
      0 <= s_ip i /\
      (forall a, load_addr i = Some a -> 0 <= a) /\
      (forall a, store_addr i = Some a -> 0 <= a).
Proof.
  eexists. split; [apply parse_spike_kept|].
  intros i Hin. apply parsed_line_of in Hin as (line & _ & Hp).
  now apply parse_spike_line_values in Hp.
Qed.

(** ** Address zero *)

(** X11.  A reference load at address zero can be matched by no trace that
    [parse_debug] returns: zero is what the parser takes for an unused slot,
    and it is no MMIO address.  At every matched pair of such a load with a
    parsed trace entry, when the pass reaches the load check, one SRC_MEM
    line is printed; and the same for a store at zero and DST_MEM. *)
Theorem address_zero_never_matched
    (lines : list string) (spike_insns : list SpikeInsn)
    (trace_insns : list TraceInsn) (max_insns : Z) (stop_on_error : bool)
    (s : State) (sp : SpikeInsn) (tr : TraceInsn) :
  parse_debug lines = Ok trace_insns ->
  nth_error spike_insns (si s) = Some sp ->
  nth_error trace_insns (ti s) = Some tr ->
  cap_reached max_insns s = false ->
  s_ip sp = t_ip tr ->
  exists ds,
    out (state_of (body spike_insns trace_insns max_insns stop_on_error s))
      = out s ++ ds /\
    (load_addr sp = Some 0 -> reaches_load stop_on_error ds ->
       count_kind SRC_MEM ds = 1%nat) /\
    (store_addr sp = Some 0 -> reaches_store stop_on_error ds ->
       count_kind DST_MEM ds = 1%nat).
Proof.
  intros Hp Hsp Htr Hcap Heq.
  rewrite parse_debug_kept in Hp. injection Hp as <-.
  destruct (parsed_line_of _ _ _ (nth_error_In _ _ Htr)) as (line & _ & Hl).
  destruct (parse_debug_line_values _ _ Hl)
    as (_ & _ & _ & _ & _ & Hd & Hs).
  assert (Hs0 : ~ In 0 (src_mem tr)).
  { intros H. rewrite Forall_forall in Hs. specialize (Hs 0 H). lia. }
  assert (Hd0 : ~ In 0 (dst_mem tr)).
  { intros H. rewrite Forall_forall in Hd. specialize (Hd 0 H). lia. }
  eexists. split; [apply body_match_out with (tr := tr); eassumption|].
  set (taken := spike_taken spike_insns (si s) sp tr).
  set (n := S (checked s)).
  split.
  - intros Hload Hr. unfold reaches_load in Hr.
    rewrite count_branch_taken in Hr. rewrite count_src_mem.
    rewrite (src_diag_missing sp tr n 0 Hload eq_refl Hs0).
    destruct stop_on_error; [|reflexivity].
    destruct Hr as [Hr | Hr]; [discriminate|].
    destruct (truthy _ && _); [discriminate | reflexivity].
  - intros Hstore Hr. unfold reaches_store in Hr.
    rewrite count_branch_taken, count_src_mem in Hr.
    rewrite count_dst_mem.
    rewrite (dst_diag_missing sp tr n 0 Hstore eq_refl Hd0).
    destruct stop_on_error; [|reflexivity].
    destruct Hr as [Hr | [Hb Hl0]]; [discriminate|].
    destruct (truthy _ && _); [discriminate|]. simpl in *.
    destruct (src_diag sp tr n); [reflexivity | discriminate].
Qed.

(** The theorem on a load at zero against the trace line that reports it in
    its first slot. *)
Lemma address_zero_never_matched_witness :
  parse_debug
    ["ip=0x100 branch=0 taken=0 dst_regs=[5,0] src_regs=[0,0,0,0] dst_mem=[0x0,0x0] src_mem=[0x0,0x0,0x0,0x0]"%string]
  = Ok trace_no_load /\
  count_kind SRC_MEM
    (out (state_of (body [mkSpikeInsn 0x100 (Some 0) None] trace_no_load
                         0 false init))) = 1%nat.
Proof.
  assert (Hp : parse_debug
    ["ip=0x100 branch=0 taken=0 dst_regs=[5,0] src_regs=[0,0,0,0] dst_mem=[0x0,0x0] src_mem=[0x0,0x0,0x0,0x0]"%string]
    = Ok trace_no_load) by (vm_compute; reflexivity).
  split; [exact Hp|].
  destruct (address_zero_never_matched _ [mkSpikeInsn 0x100 (Some 0) None]
              trace_no_load 0 false init (mkSpikeInsn 0x100 (Some 0) None)
              (mkTraceInsn 0x100 0 0 [] []) Hp
              eq_refl eq_refl eq_refl eq_refl)
    as (ds & Hout & Hload & _).
  rewrite Hout. change (count_kind SRC_MEM ds = 1%nat).
  apply Hload; [reflexivity | now left].
Defined.

(** ** Whitespace around a line *)

Lemma lstrip_spaces ws : all_chars is_space ws = true -> lstrip ws = EmptyString.
Proof.
  induction ws as [|c ws IH]; simpl; [reflexivity|].
  intros H. apply andb_true_iff in H as [Hc Hws]. rewrite Hc. auto.
Qed.

Lemma rstrip_spaces ws : all_chars is_space ws = true -> rstrip ws = EmptyString.
Proof.
  induction ws as [|c ws IH]; simpl; [reflexivity|].
  intros H. apply andb_true_iff in H as [Hc Hws]. now rewrite IH, Hc.
Qed.

Lemma lstrip_app_spaces ws s :
  all_chars is_space ws = true -> lstrip (ws ++ s) = lstrip s.
Proof.
  induction ws as [|c ws IH]; simpl; [reflexivity|].
  intros H. apply andb_true_iff in H as [Hc Hws]. rewrite Hc. auto.
Qed.

Lemma rstrip_app_spaces s ws :
  all_chars is_space ws = true -> rstrip (s ++ ws) = rstrip s.
Proof.
  intros Hws. induction s as [|c s IH]; simpl.
  - now apply rstrip_spaces.
  - now rewrite IH.
Qed.

Lemma lstrip_spaces_after s ws :
  all_chars is_space ws = true ->
  lstrip (s ++ ws) =
  match lstrip s with
  | EmptyString => EmptyString
  | t => (t ++ ws)%string
  end.
Proof.
  intros Hws. induction s as [|c s IH]; simpl.
  - now apply lstrip_spaces.
  - destruct (is_space c); [exact IH | reflexivity].
Qed.

Lemma strip_padded ws1 s ws2 :
  all_chars is_space ws1 = true -> all_chars is_space ws2 = true ->
  strip (ws1 ++ s ++ ws2) = strip s.
Proof.
  intros H1 H2. unfold strip.
  rewrite lstrip_app_spaces by exact H1.
  rewrite lstrip_spaces_after by exact H2.
  destruct (lstrip s) as [|c t]; [reflexivity|].
  now apply (rstrip_app_spaces (String c t)).
Qed.

Lemma rstrip_keeps_head c s :
  is_space c = false -> exists t, rstrip (String c s) = String c t.
Proof.
  intros Hc. simpl. destruct (rstrip s); [rewrite Hc|]; eauto.
Qed.

Lemma debug_re_not_comment s :
  re_match DEBUG_RE (String "#" s) = None.
Proof. reflexivity. Qed.

Lemma startswith_hash c s :
  startswith "#" (String c s) = Ascii.eqb "#" c.
Proof.
  unfold startswith. cbn [drop_prefix].
  now destruct (Ascii.eqb "#" c).
Qed.

Lemma space_not_hash w : is_space w = true -> Ascii.eqb "#" w = false.
Proof.
  intros Hw. destruct (Ascii.eqb "#" w) eqn:E; [|reflexivity].
  apply Ascii.eqb_eq in E. subst w. discriminate.
Qed.

Lemma comment_padded ws1 s ws2 :
  all_chars is_space ws1 = true -> all_chars is_space ws2 = true ->
  startswith "#" s = false ->
  startswith "#" (ws1 ++ s ++ ws2) = false.
Proof.
  intros H1 H2 Hs. destruct ws1 as [|w ws1].
  - destruct s as [|c s].
    + destruct ws2 as [|w ws2]; [reflexivity|].
      cbn [all_chars] in H2. apply andb_true_iff in H2 as [Hw _].
      change (startswith "#" (String w ws2) = false).
      rewrite startswith_hash. now apply space_not_hash.
    + change (startswith "#" (String c (s ++ ws2)) = false).
      rewrite startswith_hash in *. exact Hs.
  - cbn [all_chars] in H1. apply andb_true_iff in H1 as [Hw _].
    change (startswith "#" (String w (ws1 ++ s ++ ws2)) = false).
    rewrite startswith_hash. now apply space_not_hash.
Qed.

(** X12.  Whitespace before and after a line changes nothing for either
    parser (indentation, or the carriage return of a CRLF line end): the
    padded line parses to what the line parses to.  For the trace parser
    this holds of comment lines too: a comment behind whitespace is not taken
    for a comment, and then fails the grammar. *)
Theorem surrounding_whitespace_ignored (ws1 line ws2 : string) :
  all_chars is_space ws1 = true ->
  all_chars is_space ws2 = true ->
  parse_spike_line (ws1 ++ line ++ ws2) = parse_spike_line line /\
  parse_debug_line (ws1 ++ line ++ ws2) = parse_debug_line line.
Proof.
  intros H1 H2. split.
  - unfold parse_spike_line. now rewrite strip_padded.
  - unfold parse_debug_line. rewrite strip_padded by assumption.
    destruct (startswith "#" line) eqn:Hc.
    + assert (Hdrop : re_match DEBUG_RE (strip line) = None).
      { destruct line as [|c line]; [discriminate|].
        rewrite startswith_hash in Hc.
        apply Ascii.eqb_eq in Hc. subst c. unfold strip.
        change (lstrip (String "#" line)) with (String "#" line).
        destruct (rstrip_keeps_head "#" line eq_refl) as (t & ->).
        apply debug_re_not_comment. }
      rewrite Hdrop. now destruct (startswith "#" (ws1 ++ line ++ ws2)).
    + now rewrite comment_padded.
Qed.

(** The theorem on a reference line with a tab in front and CR LF behind. *)
Lemma surrounding_whitespace_ignored_witness :
  parse_spike_line
    (String (ascii_of_nat 9) EmptyString ++ line_load_first
       ++ String (ascii_of_nat 13) (String (ascii_of_nat 10) EmptyString))
  = Ok (Some (mkSpikeInsn 0x80000008 (Some 0x10) None)).
Proof.
  destruct (surrounding_whitespace_ignored
              (String (ascii_of_nat 9) EmptyString) line_load_first
              (String (ascii_of_nat 13) (String (ascii_of_nat 10) EmptyString))
              eq_refl eq_refl) as [H _].
  rewrite H. vm_compute. reflexivity.
Defined.

(** ** Files put together *)

Lemma kept_length {A} (parse_line : string -> result (option A)) lines :
  (length (flat_map (kept parse_line) lines) <= length lines)%nat.
Proof.
  induction lines as [|line lines IH]; simpl; [lia|].
  rewrite length_app. unfold kept at 1.
  destruct (parse_line line) as [[i|]|]; simpl; lia.
Qed.

(** X13.  Each parser works line by line: the parse of two pieces of a file
    one after the other is the parse of the first followed by the parse of
    the second, and no parse has more instructions than the file has
    lines. *)
Theorem parse_line_by_line (lines1 lines2 : list string) :
  (exists a b,
     parse_spike lines1 = Ok a /\ parse_spike lines2 = Ok b /\
     parse_spike (lines1 ++ lines2) = Ok (a ++ b) /\
     (length a <= length lines1)%nat) /\
  (exists a b,
     parse_debug lines1 = Ok a /\ parse_debug lines2 = Ok b /\
     parse_debug (lines1 ++ lines2) = Ok (a ++ b) /\
     (length a <= length lines1)%nat).
Proof.
  split; eexists _, _.
  - rewrite !parse_spike_kept, flat_map_app.
    repeat split. apply kept_length.
  - rewrite !parse_debug_kept, flat_map_app.
    repeat split. apply kept_length.
Qed.

(** ** The MMIO filter *)

Lemma is_mmio_in_app regions1 regions2 a :
  is_mmio_in (regions1 ++ regions2) a =
  is_mmio_in regions1 a || is_mmio_in regions2 a.
Proof.
  induction regions1 as [|[lo hi] rest IH]; simpl; [reflexivity|].
  destruct ((lo <=? a) && (a <? hi)); [reflexivity | exact IH].
Qed.

(** X14.  [is_mmio] over any list of regions says whether the address lies
    in one of them, the upper end of a region left out; so a region whose
    ends are equal or swapped takes no address, and the regions of two lists
    put together are those of either.  With the four regions of the script,
    an MMIO address lies between 0x00100000 and 0x100000ff, and the last
    address written in the table for the CLINT and for the PLIC is not
    one. *)
Theorem mmio_filter :
  (forall regions a,
     is_mmio_in regions a = true <->
     exists lo hi, In (lo, hi) regions /\ lo <= a < hi) /\
  (forall lo hi a, hi <= lo -> is_mmio_in [(lo, hi)] a = false) /\
  (forall regions1 regions2 a,
     is_mmio_in (regions1 ++ regions2) a =
     is_mmio_in regions1 a || is_mmio_in regions2 a) /\
  (forall a, is_mmio a = true -> 0x00100000 <= a <= 0x100000ff) /\
  is_mmio 0x0200FFFF = false /\ is_mmio 0x0FFFFFFF = false.
Proof.
  repeat apply conj.
  - apply is_mmio_in_spec.
  - intros lo hi a H. simpl.
    destruct ((lo <=? a) && (a <? hi)) eqn:E; [|reflexivity].
    apply andb_true_iff in E as [E1 E2].
    apply Z.leb_le in E1. apply Z.ltb_lt in E2. lia.
  - apply is_mmio_in_app.
  - intros a H. apply is_mmio_in_spec in H as (lo & hi & Hin & Hr).
    simpl in Hin.
    repeat (destruct Hin as [Hin | Hin]; [injection Hin as <- <-; lia|]).
    destruct Hin.
  - reflexivity.
  - reflexivity.
Qed.

(** The theorem on a region written with its ends swapped. *)
Lemma mmio_filter_witness :
  0x10000000 <= 0x10000100 /\
  is_mmio_in [(0x10000100, 0x10000000)] 0x10000005 = false.
Proof.
  split; [lia|].
  destruct mmio_filter as (_ & Hempty & _).
  apply Hempty. lia.
Defined.

(** * Properties of run_sweep.py *)

(** ** Fields of a line *)



(** ** When the statistics cannot be read *)

Lemma scan_parts_cons p rest st :
  scan_parts (p :: rest) st =
  (st1 <- (if String.eqb p "Accuracy:"
           then match rest with
                | next :: _ => Ok (mkStats (ipc st) next (mpki st))
                | [] => Raise
                end
           else Ok st) ;;
   st2 <- (if String.eqb p "MPKI:"
           then match rest with
                | next :: _ => Ok (mkStats (ipc st1) (acc st1) next)
                | [] => Raise
                end
           else Ok st1) ;;
   scan_parts rest st2).
Proof. reflexivity. Qed.

Lemma scan_parts_raise parts : forall st,
  scan_parts parts st = Raise <->
  exists pre l, parts = pre ++ [l] /\
                (l = "Accuracy:"%string \/ l = "MPKI:"%string).
Proof.
  induction parts as [|p rest IH]; intros st.
  - split; [discriminate|]. intros (pre & l & H & _).
    now destruct pre.
  - rewrite scan_parts_cons. destruct rest as [|next rest'].
    + split.
      * intros H. exists [], p. split; [reflexivity|].
        destruct (String.eqb_spec p "Accuracy:"); [now left|].
        destruct (String.eqb_spec p "MPKI:"); [now right|].
        discriminate.
      * intros (pre & l & H & Hl).
        destruct pre as [|x pre]; [|destruct pre; discriminate].
        injection H as ->.
        destruct Hl as [-> | ->]; reflexivity.
    + destruct (String.eqb p "Accuracy:"), (String.eqb p "MPKI:");
        cbn [bind]; rewrite IH; (split;
        [ intros (pre & l & H & Hl); exists (p :: pre), l;
          split; [now rewrite H | exact Hl]
        | intros (pre & l & H & Hl);
          destruct pre as [|x pre]; [discriminate|];
          injection H as -> H; eauto ]).
Qed.

Lemma parse_stats_line_raise line st :
  parse_stats_line line st = Raise <-> breaks_stats line.
Proof.
  unfold parse_stats_line, breaks_stats.
  destruct (startswith "CPU 0 cumulative IPC" line).
  - destruct (nth_error (split_ws line) 4) as [v|] eqn:E; cbn [bind].
    + assert (Hlen : (4 < length (split_ws line))%nat)
        by (apply nth_error_Some; congruence).
      destruct (contains "Branch Prediction Accuracy" line).
      * rewrite scan_parts_raise. split; [intros H; now right|].
        intros [[_ H] | [_ H]]; [lia | exact H].
      * split; [discriminate|].
        intros [[_ H] | [H _]]; [lia | discriminate].
    + apply nth_error_None in E. split; [|reflexivity].
      intros _. left. split; [reflexivity | lia].
  - cbn [bind]. destruct (contains "Branch Prediction Accuracy" line).
    + rewrite scan_parts_raise. split; [intros H; now right|].
      intros [[H _] | [_ H]]; [discriminate | exact H].
    + split; [discriminate|].
      intros [[H _] | [H _]]; discriminate.
Qed.

Lemma parse_stats_from_raise lines : forall st,
  parse_stats_from lines st = Raise <-> Exists breaks_stats lines.
Proof.
  induction lines as [|line rest IH]; intros st; simpl.
  - split; [discriminate | intros H; inversion H].
  - destruct (parse_stats_line line st) as [st'|] eqn:E; cbn [bind].
    + rewrite IH. split; [intros H; now right|].
      intros H. inversion H as [? ? Hb | ? ? Hr]; subst; [|exact Hr].
      apply parse_stats_line_raise with (st := st) in Hb. congruence.
    + split; [|reflexivity]. intros _. left.
      now apply parse_stats_line_raise with (st := st).
Qed.

(** X15.  [parse_stats] raises exactly when the output has a line starting
    with "CPU 0 cumulative IPC" that has fewer than five fields, or a line
    containing "Branch Prediction Accuracy" whose last field is "Accuracy:"
    or "MPKI:"; on any other output it returns the three statistics. *)
Theorem parse_stats_raises (lines : list string) :
  (parse_stats lines = Raise <-> Exists breaks_stats lines) /\
  (~ Exists breaks_stats lines -> exists st, parse_stats lines = Ok st).
Proof.
  split; [apply parse_stats_from_raise|].
  intros H. destruct (parse_stats lines) as [st|] eqn:E; [eauto|].
  apply parse_stats_from_raise in E. contradiction.
Qed.

(** The theorem on an output with its two lines in order. *)
Lemma parse_stats_raises_witness :
  exists st,
    parse_stats
      ["CPU 0 cumulative IPC: 1.25 instructions: 100 cycles: 80";
       "CPU 0 Branch Prediction Accuracy: 97.5% MPKI: 4.2"]%string = Ok st.
Proof.
  apply parse_stats_raises.
  intros H. apply parse_stats_from_raise with (st := mkStats NA NA NA) in H.
  vm_compute in H. discriminate.
Defined.

(** ** What the statistics are *)





(** ** The table of the report *)

Lemma strlen_app (a b : string) :
  String.length (a ++ b) = (String.length a + String.length b)%nat.
Proof. induction a as [|c a IH]; simpl; [reflexivity | now rewrite IH]. Qed.

Lemma strlen_spaces n : String.length (spaces n) = n.
Proof. induction n as [|n IH]; simpl; [reflexivity | now rewrite IH]. Qed.

Lemma strlen_ljust w s : String.length (ljust w s) = Nat.max w (String.length s).
Proof. unfold ljust. rewrite strlen_app, strlen_spaces. lia. Qed.

Lemma strlen_rjust w s : String.length (rjust w s) = Nat.max w (String.length s).
Proof. unfold rjust. rewrite strlen_app, strlen_spaces. lia. Qed.

Lemma strlen_row bp tname st :
  String.length (report_row bp tname st) =
  (Nat.max 22 (String.length bp) + Nat.max 20 (String.length tname)
   + Nat.max 8 (String.length (ipc st)) + Nat.max 10 (String.length (acc st))
   + Nat.max 8 (String.length (mpki st)) + 4)%nat.
Proof.
  unfold report_row.
  rewrite !strlen_app, !strlen_ljust, !strlen_rjust. simpl. lia.
Qed.

Lemma report_rows_length results : forall rows,
  report_rows results = Ok rows -> length rows = length results.
Proof.
  induction results as [|[[bp tname] txt] rest IH]; intros rows H; simpl in H.
  - now injection H as <-.
  - destruct (parse_stats txt) as [st|]; [|discriminate]. cbn [bind] in H.
    destruct (report_rows rest) as [rows'|]; [|discriminate].
    cbn [bind] in H. injection H as <-. simpl. f_equal. now apply IH.
Qed.

Lemma report_rows_raise results :
  report_rows results = Raise <->
  Exists (fun r => Exists breaks_stats (snd r)) results.
Proof.
  induction results as [|[[bp tname] txt] rest IH]; simpl.
  - split; [discriminate | intros H; inversion H].
  - destruct (parse_stats txt) as [st|] eqn:E; cbn [bind].
    + destruct (report_rows rest) as [rows|]; cbn [bind].
      * split; [discriminate|].
        intros H. inversion H as [? ? Hb | ? ? Hr]; subst.
        -- simpl in Hb. apply parse_stats_from_raise
             with (st := mkStats NA NA NA) in Hb.
           unfold parse_stats in E. congruence.
        -- apply IH in Hr. discriminate.
      * split; [|reflexivity]. intros _. right. now apply IH.
    + split; [|reflexivity]. intros _. left. simpl.
      now apply parse_stats_from_raise in E.
Qed.

(** X17.  In the table of [generate_report] a field is padded to its column
    and never cut: a row is as long as the widths of its five columns or the
    fields that are wider, plus the four spaces between them; so it is as
    long as the header and the line of dashes, 72 characters, exactly when
    every field fits its column.  The report has the header, the dashes and
    one row for each result, and is not produced at all exactly when the
    output of some result has a line on which [parse_stats] raises. *)
Theorem report_table :
  (forall bp tname st,
     String.length (report_row bp tname st) =
     (Nat.max 22 (String.length bp) + Nat.max 20 (String.length tname)
      + Nat.max 8 (String.length (ipc st))
      + Nat.max 10 (String.length (acc st))
      + Nat.max 8 (String.length (mpki st)) + 4)%nat) /\
  (forall bp tname st,
     String.length (report_row bp tname st) = String.length report_header
     <->
     (String.length bp <= 22 /\ String.length tname <= 20 /\
      String.length (ipc st) <= 8 /\ String.length (acc st) <= 10 /\
      String.length (mpki st) <= 8)%nat) /\
  (forall results lines,
     report_lines results = Ok lines ->
     length lines = (2 + length results)%nat /\
     nth_error lines 0 = Some report_header /\
     nth_error lines 1 = Some (dashes 72)) /\
  (forall results,
     report_lines results = Raise <->
     Exists (fun r => Exists breaks_stats (snd r)) results).
Proof.
  repeat apply conj.
  - apply strlen_row.
  - intros bp tname st. rewrite strlen_row.
    change (String.length report_header) with 72%nat. lia.
  - intros results lines H. unfold report_lines in H.
    destruct (report_rows results) as [rows|] eqn:E; [|discriminate].
    cbn [bind] in H. injection H as <-.
    apply report_rows_length in E. simpl. now rewrite E.
  - intros results. unfold report_lines. rewrite <- report_rows_raise.
    destruct (report_rows results); cbn [bind];
      split; intros; congruence.
Qed.

(** The theorem on one result whose fields all fit. *)
Lemma report_table_witness :
  (String.length "gshare" <= 22 /\ String.length "rv32im_o0_10it" <= 20 /\
   String.length "1.25" <= 8 /\ String.length "97.5%" <= 10 /\
   String.length "4.2" <= 8)%nat /\
  String.length
    (report_row "gshare" "rv32im_o0_10it" (mkStats "1.25" "97.5%" "4.2"))
  = 72%nat.
Proof.
  assert (H : (String.length "gshare" <= 22 /\
               String.length "rv32im_o0_10it" <= 20 /\
               String.length "1.25" <= 8 /\ String.length "97.5%" <= 10 /\
               String.length "4.2" <= 8)%nat) by (simpl; lia).
  split; [exact H|].
  destruct report_table as (_ & Hfit & _).
  apply (Hfit "gshare" "rv32im_o0_10it" (mkStats "1.25" "97.5%" "4.2"))%string.
  exact H.
Defined.
